(** * mtlognorm: multi-tissue informed log-domain intensity normalisation

    A shallow embedding of [cmd/mtlognorm.cpp] (MRtrix3) and the
    properties of its estimation engine: mask refinement, the
    scale-factor solver with quartile-based outlier rejection, the
    polynomial bias-field fit, the two nested iteration-count-bounded
    loops and the output stage.

    Images are lists of samples in the order in which [Loop] visits the
    voxels; sample arithmetic is kept abstract behind the [Arith]
    interface and instantiated with the real numbers where a property is
    about the values themselves.  In that reading every value is a
    finite real and nothing is rounded; a second instance adds the
    infinities and NaN of IEEE 754 to the reals, for the behaviour of
    the command on such samples. *)

From Stdlib Require Import ZArith List Bool Arith Lia Reals Lra Psatz.
From Stdlib Require Import Sorted Permutation.
From Equations Require Import Equations.
Import ListNotations.

Set Implicit Arguments.

(** ** Sample arithmetic *)

(** The operations the command performs on its samples.  [F] stands for
    the values of a [double]; the operations are those of [double], and
    [ffloat] is the conversion to [float] that takes place wherever the
    source stores a value in a [float] variable or in an [Image<float>]
    (an operation between two [float]s being the [double] operation
    followed by that conversion). *)
Class Arith (F : Type) : Type := {
  fzero : F;
  fone : F;
  fadd : F -> F -> F;
  fsub : F -> F -> F;
  fmul : F -> F -> F;
  fdiv : F -> F -> F;
  fabs : F -> F;
  flog : F -> F;                (* std::log *)
  fexp : F -> F;                (* std::exp *)
  fltb : F -> F -> bool;        (* operator<  *)
  fleb : F -> F -> bool;        (* operator<= *)
  fisfinite : F -> bool;        (* std::isfinite *)
  fofZ : Z -> F;                (* conversion of an integer count *)
  ffloat : F -> F               (* (float) x *)
}.

Declare Scope arith_scope.
Delimit Scope arith_scope with ar.
Infix "+" := fadd : arith_scope.
Infix "-" := fsub : arith_scope.
Infix "*" := fmul : arith_scope.
Infix "/" := fdiv : arith_scope.
Infix "<?" := fltb : arith_scope.
Infix "<=?" := fleb : arith_scope.

(** ** Outcomes of a run *)

(** The [Exception]s the command throws, one constructor for each
    [throw] of the file, in the order of the source.  What the functions
    it calls throw themselves ([Image::open], [check_dimensions],
    [get_options], Eigen) is not in the file and has no constructor. *)
Inductive Exception (F : Type) : Type :=
| OddArguments                       (* line 119 *)
| TooFewTissues                      (* line 122 *)
| OutputExists (tissue_index : nat)  (* line 139 *)
| EmptyMask                          (* line 189 *)
| NonPositiveNormValue               (* line 196 *)
| NonPositiveScaleFactor (tissue_index : nat) (scale_factor : F).  (* line 255 *)

Arguments OddArguments {F}.
Arguments TooFewTissues {F}.
Arguments OutputExists {F} tissue_index.
Arguments EmptyMask {F}.
Arguments NonPositiveNormValue {F}.

(** A computation returns, throws, or reads a [std::vector] outside its
    bounds, which C++ leaves undefined. *)
Inductive result (F A : Type) : Type :=
| Ok (a : A)
| Throw (e : Exception F)
| OutOfBounds.

Arguments Ok {F A} a.
Arguments Throw {F A} e.
Arguments OutOfBounds {F A}.

Definition bind {F A B} (m : result F A) (k : A -> result F B) : result F B :=
  match m with
  | Ok a => k a
  | Throw e => Throw e
  | OutOfBounds => OutOfBounds
  end.

Notation "x <- m ;; k" := (bind m (fun x => k))
  (at level 61, m at next level, right associativity).

(** ** List helpers standing for the voxel loops *)

Fixpoint map2 {A B C} (f : A -> B -> C) (l1 : list A) (l2 : list B) : list C :=
  match l1, l2 with
  | a :: l1', b :: l2' => f a b :: map2 f l1' l2'
  | _, _ => []
  end.

Fixpoint map3 {A B C D} (f : A -> B -> C -> D)
  (l1 : list A) (l2 : list B) (l3 : list C) : list D :=
  match l1, l2, l3 with
  | a :: l1', b :: l2', c :: l3' => f a b c :: map3 f l1' l2' l3'
  | _, _, _ => []
  end.

(** [update i f l] rewrites the element at index [i], as
    [img.value() = f (img.value())] does with the cursor at [i]. *)
Fixpoint update {A} (i : nat) (f : A -> A) (l : list A) : list A :=
  match l, i with
  | [], _ => []
  | a :: l', O => f a :: l'
  | a :: l', S i' => a :: update i' f l'
  end.

Definition count_true (m : list bool) : nat := length (filter (fun b => b) m).

(** Values of [img] at the voxels where [m] is set, in loop order. *)
Fixpoint masked {A} (m : list bool) (img : list A) : list A :=
  match m, img with
  | b :: m', a :: img' => if b then a :: masked m' img' else masked m' img'
  | _, _ => []
  end.

(** ** Quartile indices *)

(** [(float) n] for a [size_t] n: the nearest single-precision value
    (24-bit significand, ties to even).  Counts below 2^24 are exact. *)
Definition float_of_size (n : Z) : Z :=
  if (n <? 2 ^ 24)%Z then n
  else
    let e := (Z.log2 n - 23)%Z in
    let q := Z.shiftr n e in
    let r := (n - Z.shiftl q e)%Z in
    let half := (2 ^ (e - 1))%Z in
    let q' := if (r <? half)%Z then q
              else if (half <? r)%Z then (q + 1)%Z
              else if Z.even q then q else (q + 1)%Z in
    Z.shiftl q' e.

(** [std::round ((float) n * 0.25)] and [std::round ((float) n * 0.75)]:
    the products are exact in double precision and [std::round] rounds
    halves away from zero, so on a non-negative count the results are
    floor ((f + 2) / 4) and floor ((3 f + 2) / 4). *)
Definition lower_quartile_index (n : Z) : Z := ((float_of_size n + 2) / 4)%Z.
Definition upper_quartile_index (n : Z) : Z := ((3 * float_of_size n + 2) / 4)%Z.

(** [n--] on a [size_t]. *)
Definition size_dec (n : Z) : Z := ((n - 1) mod 2 ^ 64)%Z.

(** [v[i]] on a [std::vector]: undefined outside the bounds. *)
Definition vector_at {F A} (v : list A) (i : Z) : result F A :=
  match nth_error v (Z.to_nat i) with
  | Some a => Ok a
  | None => OutOfBounds
  end.

Section Program.

Context {F : Type} {AF : Arith F}.
Local Open Scope arith_scope.

(** The literals [1.6], [0.001] and [100] of the source. *)
Definition lit_1_6 : F := fofZ 16 / fofZ 10.
Definition lit_0_001 : F := fone / fofZ 1000.
Definition lit_100 : F := fofZ 100.

(** [std::max<float> (a, b)] *)
Definition fmax (a b : F) : F := if a <? b then b else a.

(** [std::sort] on the collected values. *)
Fixpoint insert_sorted (x : F) (l : list F) : list F :=
  match l with
  | [] => [x]
  | y :: l' => if x <? y then x :: l else y :: insert_sorted x l'
  end.

Definition sort_values (l : list F) : list F := fold_right insert_sorted [] l.

(** ** Basis functions and mask refinement *)

Definition n_basis_vecs : nat := 20.

Definition basis_function (pos : F * F * F) : list F :=
  let '(x, y, z) := pos in
  [ fone; x; y; z;
    x * x; y * y; z * z;
    x * y; x * z; y * z;
    x * x * x; y * y * y; z * z * z;
    x * x * y; x * x * z; y * y * x; y * y * z; z * z * x; z * z * y;
    x * y * z ].

Definition refine_mask (summed : list F) (initial_mask : list bool) : list bool :=
  map2 (fun s m => fisfinite s && (fzero <? s) && m) summed initial_mask.

(** ** What the command takes from outside this file *)

(** [X.colPivHouseholderQr().solve(y)] of Eigen: a least-squares solution
    of [X c = y]; the matrix is a list of rows. *)
Variable lstsq : list (list F) -> list F -> list F.

(** [transform.voxel2scanner * vox] for the voxel numbered [v] in loop
    order ([Transform] is declared in transform.h). *)
Variable scanner_pos : nat -> F * F * F.

(** The voxel an image's cursor rests on once a [Loop] over its three
    spatial axes has run to completion ([Loop] is declared in
    algo/loop.h).  When it rests outside the volume, the assignment of
    line 281 falls outside the image, which the model leaves as it is. *)
Variable loop_rest : nat.

(** ** Inputs and state *)

(** An input image is the list of its voxels, each voxel holding the
    samples along the axes beyond the third.  The images and the mask
    are taken to lie on one grid, as [check_dimensions] demands of the
    images.

    The path arguments come in pairs, an input image and its output:
    [input_images] are the images the inputs open as, in order,
    [output_exists] tells for each pair whether [Path::exists] holds of
    its output path, and [trailing_argument] whether one more argument
    follows the last pair. *)
Record Inputs : Type := {
  input_images : list (list (list F));
  trailing_argument : bool;
  output_exists : list bool;
  overwrite_files : bool;      (* -force *)
  orig_mask : list bool;
  normalisation_value : F;     (* -value, a float *)
  max_iter : nat;              (* -maxiter, as size_t *)
  independent : bool           (* -independent *)
}.

(** [argument.size()] *)
Definition n_arguments (inp : Inputs) : nat :=
  2 * length (input_images inp) + (if trailing_argument inp then 1 else 0).

(** What [run] fixes before the outer loop. *)
Record Env : Type := {
  n_tissue_types : nat;
  n_voxels : nat;
  combined_tissue : list (list F);   (* voxel -> tissue -> clamped value *)
  initial_mask : list bool;
  log_norm_value : F;
  env_max_iter : nat
}.

(** [INFO] lines. *)
Inductive Info : Type :=
| InfoIteration (iter : nat)
| InfoNormIteration (norm_iter : nat)
| InfoChange (percentage : F)
| InfoScaleFactors (c : list F).

Definition is_iteration (i : Info) : bool :=
  match i with InfoIteration _ => true | _ => false end.

Definition is_norm_iteration (i : Info) : bool :=
  match i with InfoNormIteration _ => true | _ => false end.

(** How many times the body of the outer loop, and of the inner loop,
    has been entered, read off the [INFO] lines. *)
Definition outer_passes (l : list Info) : nat := length (filter is_iteration l).
Definition inner_passes (l : list Info) : nat := length (filter is_norm_iteration l).

Record State : Type := {
  mask : list bool;
  num_voxels : Z;
  scale_factors : list F;
  previous_scale_factors : list F;
  bias_field_weights : list F;
  bias_field_image : list F;
  bias_field_log : list F;
  info : list Info
}.

(** The sample an image yields with its cursor on the first volume. *)
Definition value0 (samples : list F) : F := hd fzero samples.

(** ** Set-up: lines 118-215 *)

(** Lines 118-122 and 138-139: the checks on the path arguments.  The
    loop of lines 131-143 stops at the first pair whose output exists. *)
Fixpoint first_existing (outputs : list bool) (j : nat) : option nat :=
  match outputs with
  | [] => None
  | e :: outputs' => if e then Some j else first_existing outputs' (S j)
  end.

Definition check_arguments (inp : Inputs) : result F unit :=
  if Nat.odd (n_arguments inp) then Throw OddArguments
  else if (n_arguments inp <? 4)%nat then Throw TooFewTissues
  else if overwrite_files inp then Ok tt
  else
    match first_existing
            (firstn (length (input_images inp)) (output_exists inp)) 0 with
    | Some j => Throw (OutputExists j)
    | None => Ok tt
    end.

(** Lines 157-162: [summed] is an [Image<float>]. *)
Definition sum_inputs (imgs : list (list (list F))) (nvox : nat) : list F :=
  fold_left (fun summed img => map2 (fun s x => ffloat (s + value0 x)) summed img)
    imgs (repeat fzero nvox).

Definition pack_tissues (imgs : list (list (list F))) (nvox : nat) : list (list F) :=
  map (fun v => map (fun img => fmax (value0 (nth v img [])) fzero) imgs) (seq 0 nvox).

(** ** One inner iteration: lines 229-317 *)

Section Inner.

Variable env : Env.

(** Lines 239-247: the quotient of two [float]s is a [float]. *)
Definition design_matrix (m : list bool) (bias : list F) : list (list F) :=
  masked m (map2 (fun tv b => map (fun t => ffloat (t / b)) tv)
              (combined_tissue env) bias).

(** The positivity check and the accumulation of [log_sum]. *)
Fixpoint log_sum_loop (c : list F) (js : list nat) (log_sum : F) : result F F :=
  match js with
  | [] => Ok log_sum
  | j :: js' =>
      if nth j c fzero <=? fzero
      then Throw (NonPositiveScaleFactor j (nth j c fzero))
      else log_sum_loop c js' (log_sum + flog (nth j c fzero))
  end.

Definition renormalise (c : list F) (log_sum : F) : list F :=
  map (fun x => x / fexp (log_sum / fofZ (Z.of_nat (n_tissue_types env)))) c.

Definition mean (l : list F) : F :=
  fold_left fadd l fzero / fofZ (Z.of_nat (length l)).

Definition relative_change (prev c : list F) : F :=
  mean (map2 (fun p x => fabs (p - x) / p) prev c).

(** Lines 274-282: one pass per tissue over the whole volume, and the
    logarithm taken once after each pass, where the cursor rests. *)
Definition summed_log_image (c : list F) (bias : list F) : list F :=
  fold_left
    (fun summed_log j =>
       update loop_rest (fun s => ffloat (flog s))
         (map3 (fun s tv b => ffloat (s + nth j c fzero * nth j tv fzero / b))
               summed_log (combined_tissue env) bias))
    (seq 0 (n_tissue_types env))
    (repeat fzero (n_voxels env)).

(** Lines 301-308. *)
Fixpoint reject (lower upper : F) (m : list bool) (summed_log : list F)
  (nv : Z) : list bool * Z :=
  match m, summed_log with
  | b :: m', s :: sl' =>
      if b then
        if (s <? lower) || (upper <? s)
        then let '(r, k) := reject lower upper m' sl' (size_dec nv) in
             (false :: r, k)
        else let '(r, k) := reject lower upper m' sl' nv in (true :: r, k)
      else let '(r, k) := reject lower upper m' sl' nv in (false :: r, k)
  | _, _ => ([], nv)
  end.

(** Lines 297-298: the quartiles are [float]s, so is their difference;
    the product with the [double] 1.6 and the sum are [double]s, and the
    result is stored in a [float]. *)
Definition upper_outlier_threshold (lower_quartile upper_quartile : F) : F :=
  ffloat (upper_quartile + lit_1_6 * ffloat (upper_quartile - lower_quartile)).

Definition lower_outlier_threshold (lower_quartile upper_quartile : F) : F :=
  ffloat (lower_quartile - lit_1_6 * ffloat (upper_quartile - lower_quartile)).

(** Lines 286-308. *)
Definition reject_outliers (summed_log : list F) (m : list bool)
  : result F (list bool * Z) :=
  let summed_log_values := masked m summed_log in
  let nv := Z.of_nat (length summed_log_values) in
  let sorted := sort_values summed_log_values in
  lower_quartile <- vector_at sorted (lower_quartile_index nv) ;;
  upper_quartile <- vector_at sorted (upper_quartile_index nv) ;;
  Ok (reject (lower_outlier_threshold lower_quartile upper_quartile)
             (upper_outlier_threshold lower_quartile upper_quartile)
             m summed_log nv).

Definition set_info (st : State) (i : list Info) : State :=
  {| mask := mask st; num_voxels := num_voxels st;
     scale_factors := scale_factors st;
     previous_scale_factors := previous_scale_factors st;
     bias_field_weights := bias_field_weights st;
     bias_field_image := bias_field_image st;
     bias_field_log := bias_field_log st;
     info := i |}.

Definition say (st : State) (i : Info) : State := set_info st (info st ++ [i]).

(** Lines 233-260: the solve, the positivity check and the
    re-normalisation. *)
Definition solve_scale_factors (st : State) : result F (list F) :=
  let solved :=
    lstsq (design_matrix (mask st) (bias_field_image st))
          (repeat fone (Z.to_nat (num_voxels st))) in
  log_sum <- log_sum_loop solved (seq 0 (n_tissue_types env)) fzero ;;
  Ok (renormalise solved log_sum).

(** The body of the inner [while]; the flag returned is [norm_converged]. *)
Definition inner_body (iter norm_iter : nat) (st : State) : result F (State * bool) :=
  let st := say st (InfoNormIteration norm_iter) in
  c <- solve_scale_factors st ;;
  let change := relative_change (previous_scale_factors st) c in
  let st := if (1 <? iter)%nat then say st (InfoChange (change * lit_100)) else st in
  let norm_converged :=
    if (1 <? iter)%nat then change <? lit_0_001 else false in
  if norm_converged then
    Ok ({| mask := mask st; num_voxels := num_voxels st;
           scale_factors := c; previous_scale_factors := c;
           bias_field_weights := bias_field_weights st;
           bias_field_image := bias_field_image st;
           bias_field_log := bias_field_log st;
           info := info st |}, true)
  else
    let summed_log := summed_log_image c (bias_field_image st) in
    let refined := refine_mask summed_log (initial_mask env) in
    rejected <- reject_outliers summed_log refined ;;
    Ok ({| mask := fst rejected; num_voxels := snd rejected;
           scale_factors := c; previous_scale_factors := c;
           bias_field_weights := bias_field_weights st;
           bias_field_image := bias_field_image st;
           bias_field_log := bias_field_log st;
           info := info st |}, false).

(** The inner [while (!norm_converged && norm_iter < max_iter)]. *)
Equations? inner_loop (iter_ norm_iter : nat) (norm_converged : bool) (st : State)
  : result F State by wf (env_max_iter env - norm_iter)%nat lt :=
inner_loop iter_ norm_iter true st := Ok st;
inner_loop iter_ norm_iter false st with lt_dec norm_iter (env_max_iter env) := {
  | right _ := Ok st;
  | left _ with inner_body iter_ norm_iter st := {
      | Ok (st', conv) := inner_loop iter_ (S norm_iter) conv st';
      | Throw e := Throw e;
      | OutOfBounds := OutOfBounds } }.
Proof. lia. Qed.

(** ** The bias-field fit: lines 320-355 *)

Definition tissue_sum (c tv : list F) : F :=
  fold_left (fun sum j => sum + nth j c fzero * nth j tv fzero)
    (seq 0 (n_tissue_types env)) fzero.

Definition dot (a b : list F) : F := fold_left fadd (map2 fmul a b) fzero.

Definition fit_bias (st : State) : State :=
  let voxels := seq 0 (n_voxels env) in
  let bias_field_basis :=
    masked (mask st) (map (fun v => basis_function (scanner_pos v)) voxels) in
  let y :=
    masked (mask st)
      (map (fun tv => flog (tissue_sum (scale_factors st) tv) - log_norm_value env)
           (combined_tissue env)) in
  let weights := lstsq bias_field_basis y in
  let field_log :=
    map (fun v => ffloat (dot (basis_function (scanner_pos v)) weights)) voxels in
  {| mask := mask st; num_voxels := num_voxels st;
     scale_factors := scale_factors st;
     previous_scale_factors := previous_scale_factors st;
     bias_field_weights := weights;
     bias_field_image := map (fun l => ffloat (fexp l)) field_log;
     bias_field_log := field_log;
     info := info st |}.

(** ** The outer loop: lines 217-359 *)

Definition outer_body (iter : nat) (st : State) : result F State :=
  st1 <- inner_loop iter 1 false (say st (InfoIteration iter)) ;;
  Ok (fit_bias (say st1 (InfoScaleFactors (scale_factors st1)))).

Equations? outer_loop (iter_ : nat) (st : State)
  : result F State by wf (env_max_iter env - iter_)%nat lt :=
outer_loop iter_ st with lt_dec iter_ (env_max_iter env) := {
  | right _ := Ok st;
  | left _ with outer_body iter_ st := {
      | Ok st' := outer_loop (S iter_) st';
      | Throw e := Throw e;
      | OutOfBounds := OutOfBounds } }.
Proof. lia. Qed.

End Inner.

(** ** The output stage: lines 375-403 *)

Record Outputs : Type := {
  output_images : list (list (list F));
  normalisation_scale_factor : list F;   (* the header entry of each output *)
  bias_output : list F;                  (* -bias *)
  mask_output : list bool;               (* -check *)
  messages : list Info
}.

Definition final_scale_factors (indep : bool) (c : list F) : list F :=
  if indep then c
  else
    let mean := fold_left (fun mean x => ffloat (mean + flog x)) c fzero in
    let mean := ffloat (mean / fofZ (Z.of_nat (length c))) in
    let mean := ffloat (fexp mean) in
    map (fun _ => mean) c.

Definition write_output (cj : F) (img : list (list F)) (bias : list F)
  : list (list F) :=
  map2 (fun samples b => map (fun s => fmax (ffloat (cj * s / b)) fzero) samples)
    img bias.

Definition compose_outputs (inp : Inputs) (st : State) : Outputs :=
  let c := final_scale_factors (independent inp) (scale_factors st) in
  let js := seq 0 (length (input_images inp)) in
  {| output_images :=
       map (fun j => write_output (nth j c fzero) (nth j (input_images inp) [])
                       (bias_field_image st)) js;
     normalisation_scale_factor := map (fun j => nth j c fzero) js;
     bias_output := bias_field_image st;
     mask_output := mask st;
     messages := info st |}.

(** ** [run] *)

(** Lines 118-215, up to the outer loop.  [uninit] and [uninit_prev] are
    whatever the freshly constructed [Eigen::VectorXd scale_factors (n)]
    and [previous_scale_factors (n)] hold: the constructor leaves the
    coefficients unset. *)
Definition setup (inp : Inputs) (uninit uninit_prev : list F)
  : result F (Env * State) :=
  _ <- check_arguments inp ;;
  let imgs := input_images inp in
  let nvox := length (hd [] imgs) in
  let summed := sum_inputs imgs nvox in
  let initial := refine_mask summed (orig_mask inp) in
  let nv := count_true initial in
  if (nv =? 0)%nat then Throw EmptyMask
  else if normalisation_value inp <=? fzero then Throw NonPositiveNormValue
  else
      Ok ({| n_tissue_types := length imgs;
             n_voxels := nvox;
             combined_tissue := pack_tissues imgs nvox;
             initial_mask := initial;
             log_norm_value := ffloat (flog (normalisation_value inp));
             env_max_iter := max_iter inp |},
          {| mask := initial; num_voxels := Z.of_nat nv;
             scale_factors := uninit;
             previous_scale_factors := uninit_prev;
             bias_field_weights := [];
             bias_field_image := repeat fone nvox;
             bias_field_log := repeat fzero nvox;
             info := [] |}).

Definition run (inp : Inputs) (uninit uninit_prev : list F) : result F Outputs :=
  es <- setup inp uninit uninit_prev ;;
  st <- outer_loop (fst es) 1 (snd es) ;;
  Ok (compose_outputs inp st).

End Program.

(** ** Real-number arithmetic *)

(** The samples read as real numbers: every value is finite, the
    conversion to [float] changes nothing, and rounding, overflow and
    NaN are left out.  [ln] is the logarithm of the Standard Library,
    which is 0 on non-positive arguments, so the instance speaks for the
    program where it takes logarithms of positive values.  What is
    proved of this instance is a statement about the computation in
    exact arithmetic; the properties that hold of the command whatever
    the samples are stated for every instance of [Arith]. *)

Local Open Scope R_scope.

Definition Rltb (a b : R) : bool := if Rlt_dec a b then true else false.
Definition Rleb (a b : R) : bool := if Rle_dec a b then true else false.

#[export] Instance RArith : Arith R := {|
  fzero := 0%R;
  fone := 1%R;
  fadd := Rplus;
  fsub := Rminus;
  fmul := Rmult;
  fdiv := Rdiv;
  fabs := Rabs;
  flog := ln;
  fexp := exp;
  fltb := Rltb;
  fleb := Rleb;
  fisfinite := fun _ => true;
  fofZ := IZR;
  ffloat := fun x => x
|}.

Arguments Rltb : simpl never.
Arguments Rleb : simpl never.
Arguments IZR : simpl never.

(** ** Arithmetic with infinities and NaN *)

(** The reals with the two infinities and the NaN of IEEE 754, operated
    on as the standard lays down for them.  Finite results stay exact:
    nothing is rounded and nothing overflows; zero carries no sign, so a
    division by zero takes the sign of the numerator. *)
Inductive xreal : Type :=
| XFinite (r : R)
| XInf (negative : bool)
| XNaN.

Definition Rnegative (r : R) : bool := Rltb r 0.
Definition Rzero (r : R) : bool := negb (Rltb r 0) && negb (Rltb 0 r).

Definition xneg (x : xreal) : xreal :=
  match x with
  | XFinite r => XFinite (- r)
  | XInf s => XInf (negb s)
  | XNaN => XNaN
  end.

Definition xadd (x y : xreal) : xreal :=
  match x, y with
  | XFinite a, XFinite b => XFinite (a + b)
  | XFinite _, XInf t => XInf t
  | XInf s, XFinite _ => XInf s
  | XInf s, XInf t => if Bool.eqb s t then XInf s else XNaN
  | _, _ => XNaN
  end.

Definition xsub (x y : xreal) : xreal := xadd x (xneg y).

Definition xmul (x y : xreal) : xreal :=
  match x, y with
  | XFinite a, XFinite b => XFinite (a * b)
  | XFinite a, XInf t => if Rzero a then XNaN else XInf (xorb (Rnegative a) t)
  | XInf s, XFinite b => if Rzero b then XNaN else XInf (xorb s (Rnegative b))
  | XInf s, XInf t => XInf (xorb s t)
  | _, _ => XNaN
  end.

Definition xdiv (x y : xreal) : xreal :=
  match x, y with
  | XFinite a, XFinite b =>
      if Rzero b then (if Rzero a then XNaN else XInf (Rnegative a))
      else XFinite (a / b)
  | XFinite _, XInf _ => XFinite 0
  | XInf s, XFinite b => XInf (xorb s (Rnegative b))
  | _, _ => XNaN
  end.

Definition xabs (x : xreal) : xreal :=
  match x with
  | XFinite r => XFinite (Rabs r)
  | XInf _ => XInf false
  | XNaN => XNaN
  end.

Definition xlog (x : xreal) : xreal :=
  match x with
  | XFinite r =>
      if Rltb 0 r then XFinite (ln r)
      else if Rzero r then XInf true else XNaN
  | XInf false => XInf false
  | _ => XNaN
  end.

Definition xexp (x : xreal) : xreal :=
  match x with
  | XFinite r => XFinite (exp r)
  | XInf false => XInf false
  | XInf true => XFinite 0
  | XNaN => XNaN
  end.

Definition xltb (x y : xreal) : bool :=
  match x, y with
  | XFinite a, XFinite b => Rltb a b
  | XFinite _, XInf t => negb t
  | XInf s, XFinite _ => s
  | XInf s, XInf t => s && negb t
  | _, _ => false
  end.

Definition xleb (x y : xreal) : bool :=
  match x, y with
  | XFinite a, XFinite b => Rleb a b
  | XFinite _, XInf t => negb t
  | XInf s, XFinite _ => s
  | XInf s, XInf t => s || negb t
  | _, _ => false
  end.

Definition xisfinite (x : xreal) : bool :=
  match x with XFinite _ => true | _ => false end.

#[export] Instance XArith : Arith xreal := {|
  fzero := XFinite 0%R;
  fone := XFinite 1%R;
  fadd := xadd;
  fsub := xsub;
  fmul := xmul;
  fdiv := xdiv;
  fabs := xabs;
  flog := xlog;
  fexp := xexp;
  fltb := xltb;
  fleb := xleb;
  fisfinite := xisfinite;
  fofZ := fun z => XFinite (IZR z);
  ffloat := fun x => x
|}.

Local Close Scope R_scope.

(** ** The vocabulary of the specification *)

(** round (n * 0.25) and round (n * 0.75) on the exact count, halves away
    from zero. *)
Definition round_quarter (n : Z) : Z := ((n + 2) / 4)%Z.
Definition round_three_quarters (n : Z) : Z := ((3 * n + 2) / 4)%Z.

Section Vocabulary.

Context {F : Type} {AF : Arith F}.
Local Open Scope arith_scope.

(** A value strictly outside the interval [lower, upper]. *)
Definition outside (lower upper s : F) : bool := (s <? lower) || (upper <? s).

(** [b] is not below [a]: the order [std::sort] leaves two neighbours in. *)
Definition not_above (a b : F) : Prop := (b <? a) = false.

(** What the passes over the tissues [js] add to [acc] at one voxel with
    tissue values [tv] and bias [b], no logarithm taken. *)
Definition plain_sum (c tv : list F) (b : F) (js : list nat) (acc : F) : F :=
  fold_left (fun s j => ffloat (s + nth j c fzero * nth j tv fzero / b)) js acc.

(** L(v) = log (sum over j of c_j * tissue_j(v) / bias_image(v)) at every
    voxel v. *)
Definition log_of_summed (env : Env) (c bias : list F) : list F :=
  map2 (fun tv b =>
          flog (fold_left (fun s j => s + nth j c fzero * nth j tv fzero / b)
                  (seq 0 (n_tissue_types env)) fzero))
    (combined_tissue env) bias.

End Vocabulary.

(** exp (mean (log c)) *)
Definition geometric_mean (c : list R) : R := exp (mean (map ln c)).

(** ** Invariants of the working state *)

(** Every voxel of [a] is a voxel of [b]. *)
Definition mask_within (a b : list bool) : Prop :=
  forall v, nth v a false = true -> nth v b false = true.

Section Invariants.

Context {F : Type} {AF : Arith F}.
Local Open Scope arith_scope.

(** The working mask lies inside the initial mask, [num_voxels] counts
    it, and the mask and the bias field fit the grid. *)
Definition consistent (env : Env (F:=F)) (st : State (F:=F)) : Prop :=
  mask_within (mask st) (initial_mask env) /\
  num_voxels st = Z.of_nat (count_true (mask st)) /\
  (length (mask st) <= n_voxels env)%nat /\
  length (bias_field_image st) = n_voxels env.

End Invariants.

(** ** Example data *)

Local Open Scope R_scope.

(** The least-squares solution of a full-rank system with two columns,
    from the normal equations (X^T X) c = X^T y. *)
Definition column (j : nat) (X : list (list R)) : list R :=
  map (fun row => nth j row 0) X.

Definition inner (a b : list R) : R := fold_right Rplus 0 (map2 Rmult a b).

(** The normal equations X^T (X w - y) = 0, which every least-squares
    solution [w] of [X w = y] satisfies, one for each of the first [n]
    columns. *)
Definition normal_equations (n : nat) (X : list (list R)) (y w : list R) : Prop :=
  forall i, (i < n)%nat ->
    inner (column i X) (map2 (fun row yr => dot row w - yr) X y) = 0.

Definition normal_solve2 (X : list (list R)) (y : list R) : list R :=
  let g00 := inner (column 0 X) (column 0 X) in
  let g01 := inner (column 0 X) (column 1 X) in
  let g11 := inner (column 1 X) (column 1 X) in
  let h0 := inner (column 0 X) y in
  let h1 := inner (column 1 X) y in
  let det := g00 * g11 - g01 * g01 in
  [ (g11 * h0 - g01 * h1) / det; (g00 * h1 - g01 * h0) / det ].

(** All the weight on the constant term of the basis: the fitted field is
    the constant [hd 0 y], an exact solution when [y] is constant. *)
Definition constant_fit (y : list R) : list R := hd 0 y :: repeat 0 19.

Definition lstsq_demo (X : list (list R)) (y : list R) : list R :=
  match X with
  | row :: _ => if (length row =? 2)%nat then normal_solve2 X y else constant_fit y
  | [] => []
  end.

Definition scanner_demo (v : nat) : R * R * R := (INR v, 0, 0).

(** Two tissues on a 5 x 1 x 1 grid, every voxel in the mask. *)
Definition demo_inputs (maxiter : nat) : Inputs (F:=R) :=
  {| input_images := [ [[1]; [1]; [0]; [1]; [0]]; [[1]; [0]; [1]; [0]; [1]] ];
     trailing_argument := false;
     output_exists := [];
     overwrite_files := false;
     orig_mask := [true; true; true; true; true];
     normalisation_value := 1;
     max_iter := maxiter;
     independent := false |}.

Definition demo_env (maxiter : nat) : Env (F:=R) :=
  {| n_tissue_types := 2; n_voxels := 5;
     combined_tissue := [[1; 1]; [1; 0]; [0; 1]; [1; 0]; [0; 1]];
     initial_mask := [true; true; true; true; true];
     log_norm_value := ln 1;
     env_max_iter := maxiter |}.

Definition demo_state (u up : list R) : State (F:=R) :=
  {| mask := [true; true; true; true; true]; num_voxels := 5;
     scale_factors := u; previous_scale_factors := up;
     bias_field_weights := [];
     bias_field_image := [1; 1; 1; 1; 1];
     bias_field_log := [0; 0; 0; 0; 0];
     info := [] |}.

(** The state the example settles in: the first voxel out of the working
    mask, both scale factors 1, the bias field all ones. *)
Definition demo_settled (st : State (F:=R)) : Prop :=
  mask st = [false; true; true; true; true] /\
  num_voxels st = 4%Z /\
  scale_factors st = [1; 1] /\
  previous_scale_factors st = [1; 1] /\
  bias_field_image st = [1; 1; 1; 1; 1].

(** A system whose least-squares solution has a zero component. *)
Definition degenerate_env : Env (F:=R) :=
  {| n_tissue_types := 2; n_voxels := 2;
     combined_tissue := [[1; 1]; [1; 2]];
     initial_mask := [true; true];
     log_norm_value := ln 1;
     env_max_iter := 2 |}.

Definition degenerate_state : State (F:=R) :=
  {| mask := [true; true]; num_voxels := 2;
     scale_factors := []; previous_scale_factors := [];
     bias_field_weights := [];
     bias_field_image := [1; 1];
     bias_field_log := [0; 0];
     info := [] |}.

(** Two tissues on a 7 x 1 x 1 grid, the first voxel outside the mask. *)
Definition shrink_inputs : Inputs (F:=R) :=
  {| input_images := [ [[1]; [0]; [0]; [1]; [3]; [4]; [4]];
                       [[1]; [1]; [2]; [0]; [0]; [0]; [0]] ];
     trailing_argument := false;
     output_exists := [];
     overwrite_files := false;
     orig_mask := [false; true; true; true; true; true; true];
     normalisation_value := 1;
     max_iter := 3;
     independent := false |}.

Definition shrink_env : Env (F:=R) :=
  {| n_tissue_types := 2; n_voxels := 7;
     combined_tissue := [[1; 1]; [0; 1]; [0; 2]; [1; 0]; [3; 0]; [4; 0]; [4; 0]];
     initial_mask := [false; true; true; true; true; true; true];
     log_norm_value := ln 1;
     env_max_iter := 3 |}.

Definition shrink_state (m : list bool) (nv : Z) (c cp : list R) (i : list Info)
  : State (F:=R) :=
  {| mask := m; num_voxels := nv;
     scale_factors := c; previous_scale_factors := cp;
     bias_field_weights := [];
     bias_field_image := [1; 1; 1; 1; 1; 1; 1];
     bias_field_log := [0; 0; 0; 0; 0; 0; 0];
     info := i |}.

(** Two tissues on a 2 x 1 x 1 grid: too few voxels for the quartiles. *)
Definition tiny_inputs : Inputs (F:=R) :=
  {| input_images := [ [[1]; [0]]; [[0]; [1]] ];
     trailing_argument := false;
     output_exists := [];
     overwrite_files := false;
     orig_mask := [true; true];
     normalisation_value := 1;
     max_iter := 3;
     independent := false |}.

Definition tiny_env : Env (F:=R) :=
  {| n_tissue_types := 2; n_voxels := 2;
     combined_tissue := [[1; 0]; [0; 1]];
     initial_mask := [true; true];
     log_norm_value := ln 1;
     env_max_iter := 3 |}.

Definition tiny_state (u up : list R) : State (F:=R) :=
  {| mask := [true; true]; num_voxels := 2;
     scale_factors := u; previous_scale_factors := up;
     bias_field_weights := [];
     bias_field_image := [1; 1];
     bias_field_log := [0; 0];
     info := [] |}.

(** One image only. *)
Definition single_inputs : Inputs (F:=R) :=
  {| input_images := [ [[1]; [1]] ];
     trailing_argument := false;
     output_exists := [];
     overwrite_files := false;
     orig_mask := [true; true];
     normalisation_value := 1;
     max_iter := 3;
     independent := false |}.

(** Two tissues on a single voxel, two volumes each, the second volume of
    the first tissue holding a NaN; the loop is not entered. *)
Definition nan_inputs : Inputs (F:=xreal) :=
  {| input_images := [ [[XFinite 1; XNaN]]; [[XFinite 1; XFinite 1]] ];
     trailing_argument := false;
     output_exists := [];
     overwrite_files := false;
     orig_mask := [true];
     normalisation_value := XFinite 1;
     max_iter := 1;
     independent := true |}.

(** A solver and a transform for it; neither is called. *)
Definition no_lstsq (X : list (list xreal)) (y : list xreal) : list xreal := [].
Definition no_scanner (v : nat) : xreal * xreal * xreal :=
  (XFinite 0, XFinite 0, XFinite 0).

(** The factor by which the solved pair (a, b) is divided. *)
Definition gm2 (a b : R) : R := exp ((0 + ln a + ln b) / 2).

Local Close Scope R_scope.

(** * Lemmas *)

(** ** Deciding comparisons of reals *)

Lemma Rltb_true (a b : R) : (a < b)%R -> Rltb a b = true.
Proof. intros H. unfold Rltb. destruct (Rlt_dec a b); [reflexivity | contradiction]. Qed.

Lemma Rltb_false (a b : R) : (b <= a)%R -> Rltb a b = false.
Proof. intros H. unfold Rltb. destruct (Rlt_dec a b); [lra | reflexivity]. Qed.

Lemma Rleb_true (a b : R) : (a <= b)%R -> Rleb a b = true.
Proof. intros H. unfold Rleb. destruct (Rle_dec a b); [reflexivity | contradiction]. Qed.

Lemma Rleb_false (a b : R) : (b < a)%R -> Rleb a b = false.
Proof. intros H. unfold Rleb. destruct (Rle_dec a b); [lra | reflexivity]. Qed.

Lemma Rleb_spec (a b : R) : Rleb a b = true <-> (a <= b)%R.
Proof. unfold Rleb. destruct (Rle_dec a b); split; intros; auto; discriminate. Qed.

(** Evaluation of the program on concrete real data: comparisons are
    settled by [lra], counts by computation. *)
Ltac Rdecide :=
  repeat match goal with
  | |- context [Rltb ?a ?b] =>
      first [rewrite (@Rltb_true a b) by lra | rewrite (@Rltb_false a b) by lra]
  | |- context [Rleb ?a ?b] =>
      first [rewrite (@Rleb_true a b) by lra | rewrite (@Rleb_false a b) by lra]
  end.

Ltac nat_eval :=
  repeat match goal with
  | |- context [Pos.to_nat ?p] =>
      let n := eval vm_compute in (Pos.to_nat p) in change (Pos.to_nat p) with n
  | |- context [Z.to_nat ?z] =>
      let n := eval vm_compute in (Z.to_nat z) in change (Z.to_nat z) with n
  end.

Ltac Reval := repeat (progress (cbn; nat_eval; unfold fmax; Rdecide)).

(** ** Results and lists *)

Lemma bind_Ok {F A B} (m : result F A) (k : A -> result F B) b :
  bind m k = Ok b -> exists a, m = Ok a /\ k a = Ok b.
Proof. destruct m; simpl; intros H; try discriminate. eauto. Qed.

Section Lists.
Context {A B C : Type}.

Lemma map2_length (f : A -> B -> C) l1 l2 :
  length (map2 f l1 l2) = Nat.min (length l1) (length l2).
Proof.
  revert l2; induction l1 as [| a l1 IH]; intros [| b l2]; simpl; auto.
Qed.

Lemma nth_map2 (f : A -> B -> C) l1 l2 v da db dc :
  (v < length l1)%nat -> (v < length l2)%nat ->
  nth v (map2 f l1 l2) dc = f (nth v l1 da) (nth v l2 db).
Proof.
  revert l2 v; induction l1 as [| a l1 IH]; intros [| b l2] [| v]; simpl;
    intros H1 H2; try lia; auto.
  apply IH; lia.
Qed.

End Lists.

Lemma count_true_cons b m : count_true (b :: m) = ((if b then 1 else 0) + count_true m)%nat.
Proof. unfold count_true. simpl. destruct b; reflexivity. Qed.

Lemma count_true_map2_le {A} (g : A -> bool -> bool) (l : list A) (m : list bool) :
  (forall a b, g a b = true -> b = true) ->
  (count_true (map2 g l m) <= count_true m)%nat.
Proof.
  intros Hg. revert m; induction l as [| a l IH]; intros [| b m]; simpl;
    try (unfold count_true; simpl; lia).
  rewrite !count_true_cons. specialize (IH m).
  destruct (g a b) eqn:E; [rewrite (Hg _ _ E) |]; destruct b; lia.
Qed.

Lemma count_true_map2_le_l {A} (g : bool -> A -> bool) (m : list bool) (l : list A) :
  (forall b a, g b a = true -> b = true) ->
  (count_true (map2 g m l) <= count_true m)%nat.
Proof.
  intros Hg. revert l; induction m as [| b m IH]; intros [| a l]; simpl;
    try (unfold count_true; simpl; lia).
  rewrite !count_true_cons. specialize (IH l).
  destruct (g b a) eqn:E; [rewrite (Hg _ _ E) |]; destruct b; lia.
Qed.

Lemma nth_true_in_range (m : list bool) v : nth v m false = true -> (v < length m)%nat.
Proof.
  intros H. destruct (Nat.lt_ge_cases v (length m)); [assumption |].
  rewrite nth_overflow in H by assumption. discriminate.
Qed.

Section Lists3.
Context {A B C D : Type}.

Lemma map3_length (f : A -> B -> C -> D) l1 l2 l3 :
  length (map3 f l1 l2 l3) = Nat.min (length l1) (Nat.min (length l2) (length l3)).
Proof.
  revert l2 l3; induction l1 as [| a l1 IH]; intros [| b l2] [| c l3]; simpl; auto.
Qed.

Lemma nth_map3 (f : A -> B -> C -> D) l1 l2 l3 v da db dc dd :
  (v < length l1)%nat -> (v < length l2)%nat -> (v < length l3)%nat ->
  nth v (map3 f l1 l2 l3) dd = f (nth v l1 da) (nth v l2 db) (nth v l3 dc).
Proof.
  revert l2 l3 v; induction l1 as [| a l1 IH]; intros [| b l2] [| c l3] [| v]; simpl;
    intros H1 H2 H3; try lia; auto.
  apply IH; lia.
Qed.

Lemma update_length (i : nat) (f : A -> A) l : length (update i f l) = length l.
Proof. revert i; induction l as [| a l IH]; intros [| i]; simpl; auto. Qed.

Lemma nth_update_other (i v : nat) (f : A -> A) l d :
  v <> i -> nth v (update i f l) d = nth v l d.
Proof.
  revert i v; induction l as [| a l IH]; intros [| i] [| v] H; simpl; auto; try lia.
Qed.

Lemma nth_update_same (i : nat) (f : A -> A) l d :
  (i < length l)%nat -> nth i (update i f l) d = f (nth i l d).
Proof.
  revert i; induction l as [| a l IH]; intros [| i] H; simpl in *; auto; try lia.
  apply IH; lia.
Qed.

End Lists3.

Lemma nth_map_lt {A B} (f : A -> B) l j d d' :
  (j < length l)%nat -> nth j (map f l) d = f (nth j l d').
Proof.
  intros Hj. rewrite (nth_indep _ d (f d')) by (rewrite length_map; exact Hj).
  apply map_nth.
Qed.

Lemma update_overflow {A} (i : nat) (f : A -> A) l :
  (length l <= i)%nat -> update i f l = l.
Proof.
  revert i; induction l as [| a l IH]; intros [| i] H; simpl in *; try lia; auto.
  f_equal. apply IH. lia.
Qed.

Lemma masked_length_le {A} (m : list bool) (l : list A) :
  (length (masked m l) <= length m)%nat.
Proof.
  revert l; induction m as [| b m IH]; intros [| a l]; simpl; try lia.
  specialize (IH l). destruct b; simpl; lia.
Qed.

(** ** The quartile indices as integers *)

Section QuartileIndex.
Local Open Scope Z_scope.

Lemma float_of_size_small n : n < 2 ^ 24 -> float_of_size n = n.
Proof. intros H. unfold float_of_size. destruct (Z.ltb_spec n (2 ^ 24)); [reflexivity | lia]. Qed.

Lemma float_of_size_bounds n :
  2 ^ 24 <= n ->
  n - 2 ^ (Z.log2 n - 24) <= float_of_size n <= n + 2 ^ (Z.log2 n - 24).
Proof.
  intros Hn. unfold float_of_size.
  destruct (Z.ltb_spec n (2 ^ 24)) as [Hlt | _]; [lia |].
  assert (Hlog : 24 <= Z.log2 n) by (apply Z.log2_le_pow2; lia).
  set (e := Z.log2 n - 23).
  assert (He : 1 <= e) by (unfold e; lia).
  replace (Z.log2 n - 24) with (e - 1) by (unfold e; lia).
  rewrite !Z.shiftr_div_pow2, !Z.shiftl_mul_pow2 by lia.
  assert (Hp : 2 ^ e = 2 * 2 ^ (e - 1)).
  { replace e with (Z.succ (e - 1)) at 1 by lia. rewrite Z.pow_succ_r by lia. reflexivity. }
  assert (Hh : 0 < 2 ^ (e - 1)) by (apply Z.pow_pos_nonneg; lia).
  pose proof (Z.div_mod n (2 ^ e) ltac:(lia)) as Hdm.
  pose proof (Z.mod_pos_bound n (2 ^ e) ltac:(lia)) as Hmod.
  set (q := n / 2 ^ e) in *. set (r := n mod 2 ^ e) in *.
  replace (n - q * 2 ^ e) with r by lia.
  set (h := 2 ^ (e - 1)) in *.
  destruct (Z.ltb_spec r h); [nia |].
  destruct (Z.ltb_spec h r); [nia |].
  destruct (Z.even q); nia.
Qed.

Lemma pow2_log2_le n k : 0 < n -> 0 <= k <= Z.log2 n -> 2 ^ k * 2 ^ (Z.log2 n - k) <= n.
Proof.
  intros Hn Hk. rewrite <- Z.pow_add_r by lia.
  replace (k + (Z.log2 n - k)) with (Z.log2 n) by lia.
  apply Z.log2_spec; lia.
Qed.

Lemma float_of_size_nonneg n : 0 <= n -> 0 <= float_of_size n.
Proof.
  intros Hn. destruct (Z.lt_ge_cases n (2 ^ 24)) as [H | H].
  - rewrite float_of_size_small; lia.
  - pose proof (float_of_size_bounds H). 
    assert (Hlog : 24 <= Z.log2 n) by (apply Z.log2_le_pow2; lia).
    pose proof (@pow2_log2_le n 24 ltac:(lia) ltac:(lia)).
    assert (0 < 2 ^ (Z.log2 n - 24)) by (apply Z.pow_pos_nonneg; lia).
    lia.
Qed.

Lemma upper_quartile_index_lt n : 3 <= n -> 0 <= upper_quartile_index n < n.
Proof.
  intros Hn. unfold upper_quartile_index.
  pose proof (@float_of_size_nonneg n ltac:(lia)) as H0.
  split; [apply Z.div_pos; lia |].
  apply Z.div_lt_upper_bound; [lia |].
  destruct (Z.lt_ge_cases n (2 ^ 24)) as [H | H].
  - rewrite float_of_size_small; lia.
  - pose proof (float_of_size_bounds H).
    assert (Hlog : 24 <= Z.log2 n) by (apply Z.log2_le_pow2; lia).
    pose proof (@pow2_log2_le n 24 ltac:(lia) ltac:(lia)).
    lia.
Qed.

Lemma lower_le_upper_quartile_index n : 0 <= n -> 0 <= lower_quartile_index n <= upper_quartile_index n.
Proof.
  intros Hn. unfold lower_quartile_index, upper_quartile_index.
  pose proof (float_of_size_nonneg Hn).
  split; [apply Z.div_pos; lia | apply Z.div_le_mono; lia].
Qed.

Lemma upper_quartile_index_ge n : 0 <= n <= 2 -> n <= upper_quartile_index n.
Proof.
  intros Hn. assert (n = 0 \/ n = 1 \/ n = 2) as [-> | [-> | ->]] by lia; vm_compute; congruence.
Qed.

Lemma quartile_index_exact n :
  0 <= n <= 2 ^ 24 ->
  lower_quartile_index n = round_quarter n /\
  upper_quartile_index n = round_three_quarters n.
Proof.
  intros Hn. unfold lower_quartile_index, upper_quartile_index,
    round_quarter, round_three_quarters.
  destruct (Z.eq_dec n (2 ^ 24)) as [-> | Hne]; [split; reflexivity |].
  rewrite float_of_size_small by lia. split; reflexivity.
Qed.

End QuartileIndex.

(** ** Sorting and vector reads *)

Section Generic.
Context {F : Type} {AF : Arith F}.

Lemma insert_sorted_length (x : F) l : length (insert_sorted x l) = S (length l).
Proof.
  induction l as [| y l IH]; simpl; [reflexivity |].
  destruct (fltb x y); simpl; congruence.
Qed.

Lemma sort_values_length (l : list F) : length (sort_values l) = length l.
Proof.
  induction l as [| x l IH]; simpl; [reflexivity |].
  rewrite insert_sorted_length. congruence.
Qed.

Lemma vector_at_in_bounds {A} (v : list A) (i : Z) :
  (0 <= i < Z.of_nat (length v))%Z -> exists a, @vector_at F A v i = Ok a.
Proof.
  intros Hi. unfold vector_at.
  destruct (nth_error v (Z.to_nat i)) eqn:E; [eauto |].
  apply nth_error_None in E. lia.
Qed.

Lemma vector_at_out_of_bounds {A} (v : list A) (i : Z) :
  (Z.of_nat (length v) <= i)%Z -> @vector_at F A v i = OutOfBounds.
Proof.
  intros Hi. unfold vector_at.
  destruct (nth_error v (Z.to_nat i)) eqn:E; [| reflexivity].
  assert (nth_error v (Z.to_nat i) <> None) as Hn by congruence.
  apply nth_error_Some in Hn. lia.
Qed.

Lemma vector_at_cases {A} (v : list A) (i : Z) :
  (exists a, @vector_at F A v i = Ok a) \/ @vector_at F A v i = OutOfBounds.
Proof. unfold vector_at. destruct (nth_error v (Z.to_nat i)); eauto. Qed.

Lemma vector_at_Ok {A} (v : list A) i a :
  vector_at (F:=F) v i = Ok a -> nth_error v (Z.to_nat i) = Some a.
Proof. unfold vector_at. destruct (nth_error v (Z.to_nat i)); congruence. Qed.

End Generic.

(** ** Outlier rejection *)

Section Reject.
Context {F : Type} {AF : Arith F}.
Local Open Scope arith_scope.

Lemma reject_fst lower upper m (L : list F) nv :
  fst (reject lower upper m L nv) =
  map2 (fun b s => b && negb (outside lower upper s)) m L.
Proof.
  unfold outside.
  revert L nv; induction m as [| b m IH]; intros [| s L] nv; simpl; auto.
  destruct b; simpl.
  - destruct ((s <? lower) || (upper <? s)); simpl.
    + specialize (IH L (size_dec nv)).
      destruct (reject lower upper m L (size_dec nv)); simpl in *. congruence.
    + specialize (IH L nv). destruct (reject lower upper m L nv); simpl in *. congruence.
  - specialize (IH L nv). destruct (reject lower upper m L nv); simpl in *. congruence.
Qed.

Lemma reject_snd lower upper m (L : list F) nv :
  (Z.of_nat (length (masked m L)) <= nv < 2 ^ 64)%Z ->
  snd (reject lower upper m L nv) =
  (nv - Z.of_nat (length (filter (outside lower upper) (masked m L))))%Z.
Proof.
  unfold outside.
  revert L nv; induction m as [| b m IH]; intros [| s L] nv Hnv; simpl in *;
    try lia.
  destruct b; simpl in *.
  - destruct ((s <? lower) || (upper <? s)) eqn:E; simpl.
    + assert (Hm : size_dec nv = (nv - 1)%Z) by (apply Z.mod_small; lia).
      rewrite Hm. specialize (IH L (nv - 1)%Z ltac:(lia)).
      destruct (reject lower upper m L (nv - 1)%Z); simpl in *. lia.
    + specialize (IH L nv ltac:(lia)).
      destruct (reject lower upper m L nv); simpl in *. lia.
  - specialize (IH L nv ltac:(lia)).
    destruct (reject lower upper m L nv); simpl in *. lia.
Qed.

Lemma count_true_kept lower upper m (L : list F) :
  (count_true (map2 (fun b s => b && negb (outside lower upper s)) m L)
   + length (filter (outside lower upper) (masked m L)) = length (masked m L))%nat.
Proof.
  revert L; induction m as [| b m IH]; intros [| s L]; simpl; auto.
  rewrite count_true_cons. specialize (IH L).
  destruct b; simpl; [| lia].
  destruct (outside lower upper s); simpl; lia.
Qed.

Lemma reject_outliers_Ok (L : list F) (m : list bool) r :
  reject_outliers L m = Ok r ->
  exists q1 q3,
    vector_at (F:=F) (sort_values (masked m L))
      (lower_quartile_index (Z.of_nat (length (masked m L)))) = Ok q1 /\
    vector_at (F:=F) (sort_values (masked m L))
      (upper_quartile_index (Z.of_nat (length (masked m L)))) = Ok q3 /\
    r = reject (lower_outlier_threshold q1 q3) (upper_outlier_threshold q1 q3)
          m L (Z.of_nat (length (masked m L))).
Proof.
  unfold reject_outliers. intros H.
  apply bind_Ok in H. destruct H as [q1 [H1 H]].
  apply bind_Ok in H. destruct H as [q3 [H3 H]].
  exists q1, q3. inversion H. auto.
Qed.

Lemma reject_outliers_eval (L : list F) (m : list bool)
  (sorted : list F) (q1 q3 : F) :
  let n := Z.of_nat (length (masked m L)) in
  let lower := lower_outlier_threshold q1 q3 in
  let upper := upper_outlier_threshold q1 q3 in
  sort_values (masked m L) = sorted ->
  nth_error sorted (Z.to_nat (lower_quartile_index n)) = Some q1 ->
  nth_error sorted (Z.to_nat (upper_quartile_index n)) = Some q3 ->
  (n < 2 ^ 64)%Z ->
  reject_outliers L m =
  Ok (map2 (fun b s => b && negb (outside lower upper s)) m L,
      (n - Z.of_nat (length (filter (outside lower upper) (masked m L))))%Z).
Proof.
  intros n lower upper Hs H1 H3 Hn.
  unfold reject_outliers, vector_at. fold n. rewrite Hs, H1, H3. simpl.
  fold lower upper. f_equal.
  rewrite (surjective_pairing (reject lower upper m L n)).
  rewrite reject_fst, reject_snd by (fold n; lia). reflexivity.
Qed.

Lemma reject_outliers_no_throw (L : list F) m e :
  reject_outliers L m <> Throw e.
Proof.
  unfold reject_outliers.
  destruct (vector_at_cases (F:=F) (sort_values (masked m L))
              (lower_quartile_index (Z.of_nat (length (masked m L))))) as [[a Ha] | Ha];
    rewrite Ha; simpl; [| discriminate].
  destruct (vector_at_cases (F:=F) (sort_values (masked m L))
              (upper_quartile_index (Z.of_nat (length (masked m L))))) as [[b Hb] | Hb];
    rewrite Hb; simpl; discriminate.
Qed.

Lemma reject_outliers_in_bounds (summed_log : list F) (m : list bool) :
  (3 <= Z.of_nat (length (masked m summed_log)))%Z ->
  exists r, reject_outliers summed_log m = Ok r.
Proof.
  set (n := Z.of_nat (length (masked m summed_log))). intros Hn.
  pose proof (upper_quartile_index_lt Hn) as Hu.
  pose proof (@lower_le_upper_quartile_index n ltac:(lia)) as Hl.
  unfold reject_outliers. fold n.
  destruct (@vector_at_in_bounds F F (sort_values (masked m summed_log))
              (lower_quartile_index n)) as [a Ha];
    [rewrite sort_values_length; fold n; lia |].
  destruct (@vector_at_in_bounds F F (sort_values (masked m summed_log))
              (upper_quartile_index n)) as [b Hb];
    [rewrite sort_values_length; fold n; lia |].
  rewrite Ha, Hb. simpl. eauto.
Qed.

(** C3: when the number n of values collected into the sorted vector is
    at most 2 (n = 0 included), the upper-quartile index round (n * 0.75)
    is at least n and the lookup leaves the vector; for every n >= 3 both
    quartile indices are inside it. *)
Theorem quartile_lookup_bounds (summed_log : list F) (m : list bool) :
  let n := Z.of_nat (length (masked m summed_log)) in
  ((n <= 2)%Z ->
     (n <= upper_quartile_index n)%Z /\
     reject_outliers summed_log m = OutOfBounds) /\
  ((3 <= n)%Z ->
     (0 <= lower_quartile_index n < n)%Z /\
     (0 <= upper_quartile_index n < n)%Z /\
     exists r, reject_outliers summed_log m = Ok r).
Proof.
  intros n. split; intros Hn.
  - assert (Hge : (n <= upper_quartile_index n)%Z)
      by (apply upper_quartile_index_ge; unfold n; lia).
    split; [exact Hge |].
    unfold reject_outliers. fold n.
    assert (Hup : @vector_at F F (sort_values (masked m summed_log))
                    (upper_quartile_index n) = OutOfBounds).
    { apply vector_at_out_of_bounds. rewrite sort_values_length. exact Hge. }
    destruct (vector_at_cases (F:=F) (sort_values (masked m summed_log))
                (lower_quartile_index n)) as [[a Ha] | Ha];
      rewrite Ha; simpl; [rewrite Hup |]; reflexivity.
  - pose proof (upper_quartile_index_lt Hn) as Hu.
    pose proof (@lower_le_upper_quartile_index n ltac:(lia)) as Hl.
    split; [lia |]. split; [exact Hu |].
    apply reject_outliers_in_bounds. exact Hn.
Qed.

Lemma insert_sorted_perm (x : F) l : Permutation (x :: l) (insert_sorted x l).
Proof.
  induction l as [| y l IH]; simpl; [apply Permutation_refl |].
  destruct (x <? y); [apply Permutation_refl |].
  etransitivity; [apply perm_swap |]. apply perm_skip. exact IH.
Qed.

Lemma sort_values_perm (l : list F) : Permutation l (sort_values l).
Proof.
  induction l as [| x l IH]; simpl; [apply perm_nil |].
  etransitivity; [| apply insert_sorted_perm]. apply perm_skip. exact IH.
Qed.

Lemma insert_sorted_in_order (x : F) l :
  (forall a b, (a <? b) = true -> (b <? a) = false) ->
  Sorted not_above l -> Sorted not_above (insert_sorted x l).
Proof.
  intros Hasym. unfold not_above.
  induction l as [| y l IH]; intros Hs; simpl.
  - repeat constructor.
  - destruct (x <? y) eqn:E.
    + constructor; [assumption |]. constructor. apply Hasym. exact E.
    + inversion Hs as [| ? ? Hs' Hhd]; subst.
      constructor; [apply IH; assumption |].
      destruct l as [| z l]; simpl.
      * constructor. exact E.
      * destruct (x <? z); constructor.
        -- exact E.
        -- inversion Hhd; assumption.
Qed.

Lemma sort_values_in_order (l : list F) :
  (forall a b, (a <? b) = true -> (b <? a) = false) ->
  Sorted not_above (sort_values l).
Proof.
  intros Hasym. induction l as [| x l IH]; simpl; [constructor |].
  apply insert_sorted_in_order; assumption.
Qed.

(** C7 (amended): one outlier-rejection pass over 3 <= n < 2^64 masked
    values takes Q1 and Q3 from the sorted list of the masked values (a
    permutation of them, in ascending order as far as [<] is asymmetric)
    at the indices round (f * 0.25) and round (f * 0.75), where f is n
    converted to single precision (f = n, and the indices are
    round (n * 0.25) and round (n * 0.75), as long as n <= 2^24).  The
    fences are stored as floats: lower is Q1 - 1.6 d and upper is
    Q3 + 1.6 d converted to float, d being Q3 - Q1 as a float.  The pass
    unsets exactly the masked voxels whose value is below lower or above
    upper under [<] and decrements the voxel count once per removed
    voxel, so that with k such values the count becomes n - k, the number
    of voxels left in the mask. *)
Theorem outlier_rejection_pass (L : list F) (m : list bool) :
  let values := masked m L in
  let n := Z.of_nat (length values) in
  (3 <= n < 2 ^ 64)%Z ->
  Permutation values (sort_values values) /\
  ((forall a b, (a <? b) = true -> (b <? a) = false) ->
   Sorted not_above (sort_values values)) /\
  exists Q1 Q3,
    nth_error (sort_values values) (Z.to_nat (lower_quartile_index n)) = Some Q1 /\
    nth_error (sort_values values) (Z.to_nat (upper_quartile_index n)) = Some Q3 /\
    ((n <= 2 ^ 24)%Z ->
       lower_quartile_index n = round_quarter n /\
       upper_quartile_index n = round_three_quarters n) /\
    let lower := ffloat (Q1 - lit_1_6 * ffloat (Q3 - Q1)) in
    let upper := ffloat (Q3 + lit_1_6 * ffloat (Q3 - Q1)) in
    exists m' nv',
      reject_outliers L m = Ok (m', nv') /\
      (forall v, nth v m' false = true <->
                 nth v m false = true /\ (v < length L)%nat /\
                 (nth v L fzero <? lower) = false /\
                 (upper <? nth v L fzero) = false) /\
      nv' = (n - Z.of_nat (length (filter (outside lower upper) values)))%Z /\
      nv' = Z.of_nat (count_true m').
Proof.
  intros values n Hn.
  split; [apply sort_values_perm |].
  split; [apply sort_values_in_order |].
  destruct (@reject_outliers_in_bounds L m ltac:(fold values; fold n; lia))
    as [[m' nv'] Hr].
  destruct (reject_outliers_Ok _ _ Hr) as [Q1 [Q3 [H1 [H3 Hrej]]]].
  fold values in H1, H3. fold n in H1, H3, Hrej.
  exists Q1, Q3.
  split; [apply (vector_at_Ok (F:=F)); exact H1 |].
  split; [apply (vector_at_Ok (F:=F)); exact H3 |].
  split; [intros H24; apply quartile_index_exact; lia |].
  intros lower upper.
  change (lower_outlier_threshold Q1 Q3) with lower in Hrej.
  change (upper_outlier_threshold Q1 Q3) with upper in Hrej.
  exists m', nv'. split; [exact Hr |].
  assert (Hm' : m' = map2 (fun b s => b && negb (outside lower upper s)) m L)
    by (change m' with (fst (m', nv')); rewrite Hrej; apply reject_fst).
  assert (Hnv : nv' = (n - Z.of_nat (length (filter (outside lower upper) values)))%Z).
  { change nv' with (snd (m', nv')). rewrite Hrej. apply reject_snd. fold values. fold n. lia. }
  split; [| split].
  - intros v. split.
    + intros Hv. rewrite Hm' in Hv.
      pose proof (nth_true_in_range _ _ Hv) as Hr'. rewrite map2_length in Hr'.
      rewrite (@nth_map2 _ _ _ _ m L v false fzero false) in Hv by lia.
      apply andb_true_iff in Hv. destruct Hv as [Hmv Hout].
      apply negb_true_iff in Hout. unfold outside in Hout.
      apply orb_false_iff in Hout.
      split; [exact Hmv |]. split; [lia | exact Hout].
    + intros [Hmv [Hlv [Hlo Hup]]]. rewrite Hm'.
      pose proof (nth_true_in_range _ _ Hmv) as Hr'.
      rewrite (@nth_map2 _ _ _ _ m L v false fzero false) by lia.
      rewrite Hmv. simpl. apply negb_true_iff. unfold outside.
      rewrite Hlo, Hup. reflexivity.
  - exact Hnv.
  - rewrite Hnv, Hm'. pose proof (count_true_kept lower upper m L) as Hk.
    fold values in Hk. unfold n. lia.
Qed.

End Reject.

(** ** Outlier rejection on real values *)

Section RejectR.
Local Open Scope R_scope.

Lemma insert_sorted_sorted (x : R) l :
  Sorted Rle l -> Sorted Rle (insert_sorted x l).
Proof.
  induction l as [| y l IH]; intros Hs; simpl.
  - repeat constructor.
  - change (fltb x y) with (Rltb x y). unfold Rltb.
    destruct (Rlt_dec x y) as [Hlt | Hge].
    + constructor; [assumption |]. constructor. lra.
    + inversion Hs as [| ? ? Hs' Hhd]; subst.
      constructor; [apply IH; assumption |].
      destruct l as [| z l]; simpl.
      * constructor. lra.
      * change (fltb x z) with (Rltb x z). unfold Rltb.
        destruct (Rlt_dec x z); constructor.
        -- lra.
        -- inversion Hhd; assumption.
Qed.

Lemma sort_values_sorted (l : list R) : Sorted Rle (sort_values l).
Proof.
  induction l as [| x l IH]; simpl; [constructor |].
  apply insert_sorted_sorted. exact IH.
Qed.

Lemma outside_real lower upper s :
  outside lower upper s = false <-> lower <= s <= upper.
Proof.
  unfold outside. change (@fltb R RArith) with Rltb. 
  rewrite orb_false_iff. unfold Rltb.
  destruct (Rlt_dec s lower), (Rlt_dec upper s); split; intros; try lra; intuition discriminate.
Qed.

Lemma outlier_thresholds_real (Q1 Q3 : R) :
  lower_outlier_threshold Q1 Q3 = Q1 - 1.6 * (Q3 - Q1) /\
  upper_outlier_threshold Q1 Q3 = Q3 + 1.6 * (Q3 - Q1).
Proof.
  unfold lower_outlier_threshold, upper_outlier_threshold, lit_1_6. cbn. split; lra.
Qed.

End RejectR.

(** ** The cubic basis *)

(** C10: for every physical position (x, y, z) the basis function returns
    the 20 monomials 1, x, y, z, x^2, y^2, z^2, xy, xz, yz, x^3, y^3, z^3,
    x^2 y, x^2 z, x y^2, y^2 z, x z^2, y z^2, xyz, in this order. *)
Theorem basis_function_monomials (x y z : R) :
  basis_function (x, y, z) =
  [ 1; x; y; z; x ^ 2; y ^ 2; z ^ 2; x * y; x * z; y * z;
    x ^ 3; y ^ 3; z ^ 3; x ^ 2 * y; x ^ 2 * z; x * y ^ 2; y ^ 2 * z;
    x * z ^ 2; y * z ^ 2; x * y * z ]%R
  /\ length (basis_function (x, y, z)) = n_basis_vecs.
Proof.
  split; [| reflexivity].
  unfold basis_function; cbn -[pow].
  repeat (f_equal; try ring).
Qed.

(** ** The two loops *)

Section InnerLoop.
Context {F : Type} {AF : Arith F}.
Variable lstsq : list (list F) -> list F -> list F.
Variable loop_rest : nat.
Variable env : Env (F:=F).

Local Abbreviation inner_body := (inner_body lstsq loop_rest env).
Local Abbreviation inner_loop := (inner_loop lstsq loop_rest env).

Lemma inner_passes_app (l1 l2 : list (Info (F:=F))) :
  inner_passes (l1 ++ l2) = (inner_passes l1 + inner_passes l2)%nat.
Proof. unfold inner_passes. rewrite filter_app, length_app. reflexivity. Qed.

Lemma outer_passes_app (l1 l2 : list (Info (F:=F))) :
  outer_passes (l1 ++ l2) = (outer_passes l1 + outer_passes l2)%nat.
Proof. unfold outer_passes. rewrite filter_app, length_app. reflexivity. Qed.

Lemma inner_body_info it k st st' b :
  inner_body it k st = Ok (st', b) ->
  inner_passes (info st') = S (inner_passes (info st)) /\
  outer_passes (info st') = outer_passes (info st).
Proof.
  unfold inner_body. intros H.
  apply bind_Ok in H. destruct H as [c [_ H]].
  set (st1 := say st (InfoNormIteration k)) in *.
  assert (H1 : inner_passes (info st1) = S (inner_passes (info st)) /\
               outer_passes (info st1) = outer_passes (info st)).
  { unfold st1. simpl. rewrite inner_passes_app, outer_passes_app. simpl.
    unfold inner_passes at 2, outer_passes at 2. simpl. lia. }
  set (st2 := if (1 <? it)%nat then say st1 _ else st1) in *.
  assert (H2 : inner_passes (info st2) = inner_passes (info st1) /\
               outer_passes (info st2) = outer_passes (info st1)).
  { unfold st2. destruct (1 <? it)%nat; [| tauto].
    simpl. rewrite inner_passes_app, outer_passes_app.
    unfold inner_passes at 2, outer_passes at 2. simpl. lia. }
  destruct (if (1 <? it)%nat then _ else false).
  - inversion H; subst. simpl. lia.
  - apply bind_Ok in H. destruct H as [r [_ H]]. inversion H; subst. simpl. lia.
Qed.

Lemma inner_body_first_pass k st st' b :
  inner_body 1 k st = Ok (st', b) -> b = false.
Proof.
  unfold inner_body. intros H.
  apply bind_Ok in H. destruct H as [c [_ H]].
  change (1 <? 1)%nat with false in H. cbv iota in H.
  apply bind_Ok in H. destruct H as [r [_ H]]. inversion H. reflexivity.
Qed.

Lemma inner_loop_passes it k conv st st' :
  inner_loop it k conv st = Ok st' ->
  (inner_passes (info st') <= inner_passes (info st) + (env_max_iter env - k))%nat /\
  outer_passes (info st') = outer_passes (info st) /\
  (it = 1%nat -> conv = false ->
   inner_passes (info st') = inner_passes (info st) + (env_max_iter env - k))%nat.
Proof.
  funelim (inner_loop it k conv st); intros Hrun.
  - inversion Hrun; subst. repeat split; try lia; intros; discriminate.
  - inversion Hrun; subst. repeat split; lia.
  - destruct (inner_body_info _ _ _ Heq) as [Hi Ho].
    destruct (H _ Hrun) as [IH1 [IH2 IH3]].
    repeat split; try lia.
    intros -> _.
    pose proof (inner_body_first_pass _ _ Heq) as Hc.
    specialize (IH3 eq_refl Hc). lia.
  - discriminate.
  - discriminate.
Qed.

Lemma inner_loop_converged it k st :
  inner_loop it k true st = Ok st.
Proof. simp inner_loop. reflexivity. Qed.

Lemma inner_loop_cap it k st :
  (env_max_iter env <= k)%nat ->
  inner_loop it k false st = Ok st.
Proof.
  intros H. simp inner_loop.
  destruct (lt_dec k (env_max_iter env)); [lia | reflexivity].
Qed.

Lemma inner_loop_step it k st :
  (k < env_max_iter env)%nat ->
  inner_loop it k false st =
  match inner_body it k st with
  | Ok (st', conv) => inner_loop it (S k) conv st'
  | Throw e => Throw e
  | OutOfBounds => OutOfBounds
  end.
Proof.
  intros H. simp inner_loop.
  destruct (lt_dec k (env_max_iter env)); [| lia]. simpl.
  destruct (inner_body it k st) as [[st' conv] | e |]; reflexivity.
Qed.

End InnerLoop.

Section OuterLoop.
Context {F : Type} {AF : Arith F}.
Variable lstsq : list (list F) -> list F -> list F.
Variable scanner_pos : nat -> F * F * F.
Variable loop_rest : nat.
Variable env : Env (F:=F).

Local Abbreviation inner_body := (inner_body lstsq loop_rest env).
Local Abbreviation inner_loop := (inner_loop lstsq loop_rest env).
Local Abbreviation outer_body := (outer_body lstsq scanner_pos loop_rest env).
Local Abbreviation outer_loop := (outer_loop lstsq scanner_pos loop_rest env).

Lemma fit_bias_info st : info (fit_bias lstsq scanner_pos env st) = info st.
Proof. reflexivity. Qed.

Lemma outer_body_passes it st st' :
  outer_body it st = Ok st' ->
  outer_passes (info st') = S (outer_passes (info st)).
Proof.
  unfold outer_body. intros H.
  apply bind_Ok in H. destruct H as [st1 [H1 H]].
  inversion H; subst; clear H.
  apply inner_loop_passes in H1. destruct H1 as [_ [H1 _]].
  rewrite fit_bias_info. simpl. rewrite outer_passes_app.
  rewrite H1. simpl. rewrite outer_passes_app.
  unfold outer_passes at 2 3. simpl. lia.
Qed.

Lemma outer_loop_passes it st st' :
  outer_loop it st = Ok st' ->
  outer_passes (info st') = (outer_passes (info st) + (env_max_iter env - it))%nat.
Proof.
  funelim (outer_loop it st); intros Hrun.
  - inversion Hrun; subst. lia.
  - pose proof (outer_body_passes _ _ Heq) as Hb.
    rewrite (H _ Hrun). lia.
  - discriminate.
  - discriminate.
Qed.

Lemma outer_loop_step it st :
  (it < env_max_iter env)%nat ->
  outer_loop it st =
  match outer_body it st with
  | Ok st' => outer_loop (S it) st'
  | Throw e => Throw e
  | OutOfBounds => OutOfBounds
  end.
Proof.
  intros H. simp outer_loop.
  destruct (lt_dec it (env_max_iter env)); [| lia]. simpl.
  destruct (outer_body it st); reflexivity.
Qed.

Lemma outer_loop_exit it st :
  (env_max_iter env <= it)%nat ->
  outer_loop it st = Ok st.
Proof.
  intros H. simp outer_loop.
  destruct (lt_dec it (env_max_iter env)); [lia |]. reflexivity.
Qed.

(** C8: the outer loop enters its body exactly max_iter - 1 times (the
    counter starts at 1 and runs while below max_iter; there is no outer
    convergence test); the inner loop of every outer pass enters its
    body at most max_iter - 1 times; in the first outer pass (iter = 1)
    no inner iteration sets the convergence flag, so the inner loop of
    that pass runs to the cap. *)
Theorem loop_iteration_counts :
  (forall st st', outer_loop 1 st = Ok st' ->
     outer_passes (info st') = (outer_passes (info st) + (env_max_iter env - 1))%nat) /\
  (forall it st st', inner_loop it 1 false st = Ok st' ->
     (inner_passes (info st') <= inner_passes (info st) + (env_max_iter env - 1))%nat) /\
  (forall k st st' conv, inner_body 1 k st = Ok (st', conv) -> conv = false) /\
  (forall st st', inner_loop 1 1 false st = Ok st' ->
     inner_passes (info st') = (inner_passes (info st) + (env_max_iter env - 1))%nat).
Proof.
  repeat split.
  - intros st st' H. apply (outer_loop_passes _ _ H).
  - intros it st st' H. apply (inner_loop_passes lstsq loop_rest env _ _ _ _ H).
  - intros k st st' conv H. apply (inner_body_first_pass lstsq loop_rest env _ _ H).
  - intros st st' H. apply (inner_loop_passes lstsq loop_rest env _ _ _ _ H); reflexivity.
Qed.

End OuterLoop.

(** ** The solve, the positivity check and the re-normalisation *)

Section LogSum.
Context {F : Type} {AF : Arith F}.

Lemma log_sum_loop_cases (c : list F) js acc :
  (log_sum_loop c js acc
     = Ok (fold_left (fun s j => fadd s (flog (nth j c fzero))) js acc) /\
   forall j, In j js -> fleb (nth j c fzero) fzero = false) \/
  (exists pre j post,
     js = pre ++ j :: post /\
     log_sum_loop c js acc = Throw (NonPositiveScaleFactor j (nth j c fzero)) /\
     fleb (nth j c fzero) fzero = true /\
     forall i, In i pre -> fleb (nth i c fzero) fzero = false).
Proof.
  revert acc; induction js as [| j js IH]; intros acc; simpl.
  - left. split; [reflexivity | intros j []].
  - destruct (fleb (nth j c fzero) fzero) eqn:E.
    + right. exists [], j, js. simpl.
      split; [reflexivity | split; [reflexivity | split; [exact E | intros i []]]].
    + destruct (IH (fadd acc (flog (nth j c fzero)))) as [[H1 H2] | [pre [j' [post [H1 [H2 [H3 H4]]]]]]].
      * left. split; [exact H1 |]. intros i [<- | Hi]; auto.
      * right. exists (j :: pre), j', post. simpl.
        split; [rewrite H1; reflexivity | split; [exact H2 | split; [exact H3 |]]].
        intros i [<- | Hi]; auto.
Qed.

End LogSum.

Section Solve.
Context {F : Type} {AF : Arith F}.
Variable lstsq : list (list F) -> list F -> list F.
Variable loop_rest : nat.
Variable env : Env (F:=F).

Lemma solve_scale_factors_say st i :
  solve_scale_factors lstsq env (say st i) = solve_scale_factors lstsq env st.
Proof. reflexivity. Qed.

Lemma inner_body_throw it k st e :
  inner_body lstsq loop_rest env it k st = Throw e <->
  solve_scale_factors lstsq env st = Throw e.
Proof.
  unfold inner_body. rewrite solve_scale_factors_say.
  destruct (solve_scale_factors lstsq env st) as [c | e' |]; simpl.
  - split; [| discriminate].
    destruct (if (1 <? it)%nat then _ else false); [discriminate |].
    match goal with |- context [reject_outliers ?L ?m] =>
      pose proof (@reject_outliers_no_throw F AF L m e) as Hn;
      destruct (reject_outliers L m); simpl; congruence end.
  - split; intros H; inversion H; reflexivity.
  - split; discriminate.
Qed.

Lemma inner_body_scale_factors it k st st' b :
  inner_body lstsq loop_rest env it k st = Ok (st', b) ->
  solve_scale_factors lstsq env st = Ok (scale_factors st').
Proof.
  unfold inner_body. rewrite solve_scale_factors_say. intros H.
  apply bind_Ok in H. destruct H as [c [Hc H]]. rewrite Hc. f_equal.
  destruct (if (1 <? it)%nat then _ else false).
  - inversion H. reflexivity.
  - apply bind_Ok in H. destruct H as [r [_ H]]. inversion H. reflexivity.
Qed.

End Solve.

Section SolveR.
Local Open Scope R_scope.

Lemma fold_left_Rplus_acc (l : list R) a : fold_left Rplus l a = a + fold_left Rplus l 0.
Proof.
  revert a; induction l as [| x l IH]; intros a; simpl; [lra |].
  rewrite (IH (a + x)), (IH (0 + x)). lra.
Qed.

Lemma log_sum_as_list_sum (pre c : list R) acc :
  fold_left (fun s j => s + ln (nth j (pre ++ c) 0)) (seq (length pre) (length c)) acc
  = acc + fold_left Rplus (map ln c) 0.
Proof.
  revert pre acc; induction c as [| x c IH]; intros pre acc; simpl; [lra |].
  rewrite app_nth2 by lia. rewrite Nat.sub_diag. simpl.
  replace (pre ++ x :: c) with ((pre ++ [x]) ++ c) by (rewrite <- app_assoc; reflexivity).
  replace (S (length pre)) with (length (pre ++ [x])) by (rewrite length_app; simpl; lia).
  rewrite IH. rewrite (fold_left_Rplus_acc _ (0 + ln x)). lra.
Qed.

Lemma ln_quotient x g : 0 < x -> 0 < g -> ln (x / g) = ln x - ln g.
Proof.
  intros Hx Hg. unfold Rdiv.
  rewrite ln_mult; [| assumption | apply Rinv_0_lt_compat; assumption].
  rewrite ln_Rinv by assumption. lra.
Qed.

Lemma sum_map_ln_div (c : list R) g :
  0 < g -> Forall (fun x => 0 < x) c ->
  fold_left Rplus (map ln (map (fun x => x / g) c)) 0
  = fold_left Rplus (map ln c) 0 - INR (length c) * ln g.
Proof.
  intros Hg Hc. induction Hc as [| x c Hx Hc IH].
  - simpl. lra.
  - cbn [map fold_left length]. rewrite S_INR.
    rewrite (fold_left_Rplus_acc _ (0 + ln (x / g))), (fold_left_Rplus_acc _ (0 + ln x)).
    rewrite IH. rewrite ln_quotient by assumption. lra.
Qed.

Variable lstsq : list (list R) -> list R -> list R.
Variable loop_rest : nat.
Variable env : Env (F:=R).

(** The two ways the step can end. *)
Lemma solve_scale_factors_cases (st : State) :
  let solved :=
    lstsq (design_matrix env (mask st) (bias_field_image st))
          (repeat 1 (Z.to_nat (num_voxels st))) in
  let n := n_tissue_types env in
  ((forall j, (j < n)%nat -> 0 < nth j solved 0) /\
   solve_scale_factors lstsq env st =
     Ok (renormalise env solved
           (fold_left (fun s j => s + ln (nth j solved 0)) (seq 0 n) 0))) \/
  (exists j, (j < n)%nat /\ nth j solved 0 <= 0 /\
             (forall i, (i < j)%nat -> 0 < nth i solved 0) /\
             solve_scale_factors lstsq env st =
               Throw (NonPositiveScaleFactor j (nth j solved 0))).
Proof.
  intros solved n.
  unfold solve_scale_factors.
  change (@fone R RArith) with 1. change (@fzero R RArith) with 0.
  fold solved. fold n.
  destruct (log_sum_loop_cases solved (seq 0 n) (0 : R))
    as [[H Hall] | [pre [j [post [Hjs [H [Hle Hpre]]]]]]].
  - left. split.
    + intros j Hj. specialize (Hall j ltac:(apply in_seq; lia)).
      change (Rleb (nth j solved 0) 0 = false) in Hall.
      unfold Rleb in Hall. destruct (Rle_dec (nth j solved 0) 0); [discriminate | lra].
    + rewrite H. reflexivity.
  - right. exists j.
    assert (Hlenpre : j = length pre).
    { pose proof (f_equal (fun l => nth (length pre) l 0%nat) Hjs) as Hn.
      simpl in Hn. rewrite app_nth2, Nat.sub_diag in Hn by lia. simpl in Hn.
      rewrite seq_nth in Hn; [lia |].
      pose proof (f_equal (@length nat) Hjs) as Hl.
      rewrite length_seq, length_app in Hl. simpl in Hl. lia. }
    assert (Hjn : (j < n)%nat).
    { assert (Hin : In j (seq 0 n)) by (rewrite Hjs; apply in_elt).
      apply in_seq in Hin. lia. }
    split; [exact Hjn |].
    change (Rleb (nth j solved 0) 0 = true) in Hle. apply Rleb_spec in Hle.
    split; [exact Hle |]. split.
    + intros i Hi.
      assert (Hin : In i pre).
      { pose proof (f_equal (fun l => nth i l 0%nat) Hjs) as Hn.
        simpl in Hn. rewrite app_nth1, seq_nth in Hn by lia. simpl in Hn.
        rewrite Hn. apply nth_In. lia. }
      specialize (Hpre i Hin).
      change (Rleb (nth i solved 0) 0 = false) in Hpre.
      unfold Rleb in Hpre. destruct (Rle_dec (nth i solved 0) 0); [discriminate | lra].
    + rewrite H. reflexivity.
Qed.

Lemma renormalise_geometric_mean (c : list R) :
  (0 < n_tissue_types env)%nat ->
  length c = n_tissue_types env ->
  Forall (fun x => 0 < x) c ->
  geometric_mean (renormalise env c (fold_left Rplus (map ln c) 0)) = 1.
Proof.
  intros Hn Hlen Hpos. set (s := fold_left Rplus (map ln c) 0).
  unfold geometric_mean, renormalise, mean.
  cbn [fadd fzero fdiv fexp fofZ RArith].
  rewrite sum_map_ln_div; [| apply exp_pos | assumption].
  rewrite !length_map, ln_exp. fold s. rewrite Hlen.
  rewrite INR_IZR_INZ.
  assert (Hnz : IZR (Z.of_nat (n_tissue_types env)) <> 0).
  { apply not_0_IZR. lia. }
  replace ((s - IZR (Z.of_nat (n_tissue_types env)) * (s / IZR (Z.of_nat (n_tissue_types env))))
           / IZR (Z.of_nat (n_tissue_types env))) with 0 by (field; assumption).
  apply exp_0.
Qed.

Lemma log_sum_fold (c : list R) :
  fold_left (fun s j => s + ln (nth j c 0)) (seq 0 (length c)) 0
  = fold_left Rplus (map ln c) 0.
Proof.
  pose proof (log_sum_as_list_sum [] c 0) as Hs. simpl in Hs. rewrite Hs. lra.
Qed.



End SolveR.

(** ** The working mask *)

Section WorkingMask.
Context {F : Type} {AF : Arith F}.
Variable lstsq : list (list F) -> list F -> list F.
Variable loop_rest : nat.
Variable env : Env (F:=F).

Lemma refine_mask_within (summed : list F) (initial : list bool) v :
  nth v (refine_mask summed initial) false = true -> nth v initial false = true.
Proof.
  intros H. pose proof (nth_true_in_range _ _ H) as Hv.
  unfold refine_mask in *. rewrite map2_length in Hv.
  rewrite (@nth_map2 _ _ _ _ summed initial v fzero false false) in H by lia.
  apply andb_true_iff in H. tauto.
Qed.

(** What an inner iteration that does not converge has done. *)
Lemma inner_body_not_converged it k st st' :
  inner_body lstsq loop_rest env it k st = Ok (st', false) ->
  exists c r,
    solve_scale_factors lstsq env st = Ok c /\
    reject_outliers (summed_log_image loop_rest env c (bias_field_image st))
      (refine_mask (summed_log_image loop_rest env c (bias_field_image st))
         (initial_mask env)) = Ok r /\
    mask st' = fst r /\ num_voxels st' = snd r /\
    scale_factors st' = c /\ bias_field_image st' = bias_field_image st.
Proof.
  unfold inner_body. intros H.
  apply bind_Ok in H. destruct H as [c [Hc H]].
  rewrite solve_scale_factors_say in Hc.
  destruct (if (1 <? it)%nat then _ else false); [inversion H |].
  apply bind_Ok in H. destruct H as [r [Hr H]].
  exists c, r. inversion H; subst; clear H. cbn [scale_factors mask num_voxels bias_field_image].
  destruct (1 <? it)%nat; cbn [say set_info bias_field_image] in *; auto 10.
Qed.

(** C2 (amended): within one inner iteration outlier rejection only
    removes voxels: after every inner iteration that does not converge
    the working mask is contained in the mask that refinement has just
    rebuilt from the initial mask, hence in the initial mask, its
    true-voxel count is at most theirs, and the voxel count kept by the
    program equals it.  Refinement starts again from the initial mask in
    every inner iteration. *)
Theorem working_mask_within_initial_mask it k st st' :
  inner_body lstsq loop_rest env it k st = Ok (st', false) ->
  (Z.of_nat (length (initial_mask env)) < 2 ^ 64)%Z ->
  let refined :=
    refine_mask (summed_log_image loop_rest env (scale_factors st') (bias_field_image st))
      (initial_mask env) in
  (forall v, nth v (mask st') false = true -> nth v refined false = true) /\
  (forall v, nth v refined false = true -> nth v (initial_mask env) false = true) /\
  (count_true (mask st') <= count_true refined <= count_true (initial_mask env))%nat /\
  num_voxels st' = Z.of_nat (count_true (mask st')).
Proof.
  intros H Hsize.
  destruct (inner_body_not_converged _ _ _ H) as [c [r [_ [Hr [Hm [Hn [Hc _]]]]]]].
  rewrite Hc, Hm, Hn. clear H Hm Hn Hc.
  set (L := summed_log_image loop_rest env c (bias_field_image st)) in *.
  set (refined := refine_mask L (initial_mask env)) in *.
  cbv zeta.
  apply reject_outliers_Ok in Hr. destruct Hr as [q1 [q3 [_ [_ Hr]]]].
  set (lower := lower_outlier_threshold q1 q3) in Hr.
  set (upper := upper_outlier_threshold q1 q3) in Hr.
  assert (Hlen : (length (masked refined L) <= length (initial_mask env))%nat).
  { etransitivity; [apply masked_length_le |].
    unfold refined, refine_mask. rewrite map2_length. lia. }
  assert (Hfst : fst r = map2 (fun b s => b && negb (outside lower upper s)) refined L)
    by (rewrite Hr; apply reject_fst).
  assert (Hsnd : snd r = Z.of_nat (count_true (fst r))).
  { rewrite Hfst, Hr, reject_snd by lia.
    pose proof (count_true_kept lower upper refined L). lia. }
  repeat split.
  - intros v Hv. rewrite Hfst in Hv.
    pose proof (nth_true_in_range _ _ Hv) as Hr'. rewrite map2_length in Hr'.
    rewrite (@nth_map2 _ _ _ _ refined L v false fzero false) in Hv by lia.
    apply andb_true_iff in Hv. tauto.
  - intros v. apply refine_mask_within.
  - rewrite Hfst. apply count_true_map2_le_l.
    intros b a Hba. apply andb_true_iff in Hba. tauto.
  - unfold refined, refine_mask. apply count_true_map2_le.
    intros a b Hab. apply andb_true_iff in Hab. tauto.
  - exact Hsnd.
Qed.

End WorkingMask.

(** ** The log-domain summed image *)

Section SummedLog.
Context {F : Type} {AF : Arith F}.
Variable loop_rest : nat.
Variable env : Env (F:=F).
Local Open Scope arith_scope.

Lemma summed_log_passes (c bias : list F) js (acc : list F) v :
  (v < length acc)%nat -> (v < length (combined_tissue env))%nat ->
  (v < length bias)%nat -> v <> loop_rest ->
  nth v (fold_left
           (fun summed_log j =>
              update loop_rest (fun s => ffloat (flog s))
                (map3 (fun s tv b => ffloat (s + nth j c fzero * nth j tv fzero / b))
                   summed_log (combined_tissue env) bias)) js acc) fzero
  = plain_sum c (nth v (combined_tissue env) []) (nth v bias fzero) js (nth v acc fzero).
Proof.
  intros Ha Hc Hb Hv. revert acc Ha.
  induction js as [| j js IH]; intros acc Ha; simpl; [reflexivity |].
  rewrite IH by (rewrite update_length, map3_length; lia).
  rewrite nth_update_other by exact Hv.
  rewrite (@nth_map3 _ _ _ _ _ acc (combined_tissue env) bias v fzero [] fzero fzero)
    by assumption.
  reflexivity.
Qed.

Lemma summed_log_away_from_cursor (c bias : list F) v :
  (v < n_voxels env)%nat -> (v < length (combined_tissue env))%nat ->
  (v < length bias)%nat -> v <> loop_rest ->
  nth v (summed_log_image loop_rest env c bias) fzero
  = plain_sum c (nth v (combined_tissue env) []) (nth v bias fzero)
      (seq 0 (n_tissue_types env)) fzero.
Proof.
  intros Hn Hc Hb Hv. unfold summed_log_image.
  rewrite summed_log_passes; try assumption.
  - rewrite nth_repeat. reflexivity.
  - rewrite repeat_length. exact Hn.
Qed.

End SummedLog.

(** ** The output stage *)

Section Output.
Context {F : Type} {AF : Arith F}.
Local Open Scope arith_scope.
Variable lstsq : list (list F) -> list F -> list F.
Variable scanner_pos : nat -> F * F * F.
Variable loop_rest : nat.

Lemma n_arguments_odd (inp : Inputs (F:=F)) :
  Nat.odd (n_arguments inp) = trailing_argument inp.
Proof.
  unfold n_arguments.
  rewrite Nat.odd_add, Nat.odd_mul. simpl.
  destruct (trailing_argument inp); reflexivity.
Qed.

Lemma first_existing_None (outputs : list bool) j0 :
  first_existing outputs j0 = None <-> forall j, nth j outputs false = false.
Proof.
  revert j0; induction outputs as [| e outputs IH]; intros j0; simpl.
  - split; [intros _ [| j]; reflexivity | reflexivity].
  - destruct e.
    + split; [discriminate | intros H; specialize (H 0%nat); discriminate].
    + rewrite IH. split.
      * intros H [| j]; [reflexivity | apply H].
      * intros H j. exact (H (S j)).
Qed.

Lemma first_existing_Some (outputs : list bool) j0 j :
  first_existing outputs j0 = Some j ->
  (j0 <= j)%nat /\ nth (j - j0) outputs false = true /\
  forall i, (i < j - j0)%nat -> nth i outputs false = false.
Proof.
  revert j0; induction outputs as [| e outputs IH]; intros j0; simpl; [discriminate |].
  destruct e.
  - intros H. inversion H; subst. rewrite Nat.sub_diag.
    split; [lia |]. split; [reflexivity | intros i Hi; lia].
  - intros H. destruct (IH _ H) as [H1 [H2 H3]].
    split; [lia |].
    replace (j - j0)%nat with (S (j - S j0)) by lia.
    split; [exact H2 |].
    intros [| i] Hi; [reflexivity | apply H3; lia].
Qed.

Lemma nth_firstn_lt {A} (l : list A) n j d :
  (j < n)%nat -> nth j (firstn n l) d = nth j l d.
Proof.
  revert n j; induction l as [| a l IH]; intros [| n] [| j] H; simpl; try lia;
    try reflexivity.
  apply IH. lia.
Qed.

Lemma check_arguments_Ok (inp : Inputs (F:=F)) (x : unit) :
  check_arguments inp = Ok x ->
  trailing_argument inp = false /\
  (2 <= length (input_images inp))%nat /\
  (overwrite_files inp = true \/
   forall j, (j < length (input_images inp))%nat ->
             nth j (output_exists inp) false = false).
Proof.
  unfold check_arguments. rewrite n_arguments_odd.
  destruct (trailing_argument inp) eqn:Et; [discriminate |].
  destruct (n_arguments inp <? 4)%nat eqn:E4; [discriminate |].
  apply Nat.ltb_ge in E4. unfold n_arguments in E4. rewrite Et in E4.
  intros H. split; [reflexivity |]. split; [lia |].
  destruct (overwrite_files inp); [left; reflexivity | right].
  destruct (first_existing _ 0) as [j |] eqn:Ef; [discriminate |].
  intros j Hj. rewrite <- (nth_firstn_lt _ _ Hj).
  revert j Hj. intros j _. apply (proj1 (first_existing_None _ 0) Ef).
Qed.

(** What a set-up that returns has checked and built. *)
Lemma setup_Ok_full (inp : Inputs) u up env st :
  setup inp u up = Ok (env, st) ->
  let nvox := length (hd [] (input_images inp)) in
  (2 <= length (input_images inp))%nat /\
  n_tissue_types env = length (input_images inp) /\
  n_voxels env = nvox /\
  combined_tissue env = pack_tissues (input_images inp) nvox /\
  initial_mask env = refine_mask (sum_inputs (input_images inp) nvox) (orig_mask inp) /\
  log_norm_value env = ffloat (flog (normalisation_value inp)) /\
  env_max_iter env = max_iter inp /\
  fleb (normalisation_value inp) fzero = false /\
  (1 <= count_true (initial_mask env))%nat /\
  mask st = initial_mask env /\
  num_voxels st = Z.of_nat (count_true (initial_mask env)) /\
  scale_factors st = u /\ previous_scale_factors st = up /\
  bias_field_image st = repeat fone nvox /\
  bias_field_log st = repeat fzero nvox /\
  info st = [].
Proof.
  intros H. cbv zeta. unfold setup in H.
  destruct (check_arguments inp) as [x | e |] eqn:E1; cbn [bind] in H;
    try discriminate.
  apply check_arguments_Ok in E1. destruct E1 as [_ [E1 _]].
  destruct (count_true _ =? 0)%nat eqn:E2; [discriminate |].
  destruct (fleb _ _) eqn:E3; [discriminate |].
  apply Nat.eqb_neq in E2.
  inversion H; subst; clear H. cbn. repeat split; try reflexivity; try lia.
  unfold count_true in E2. lia.
Qed.

Lemma setup_Ok (inp : Inputs) u up env st :
  setup inp u up = Ok (env, st) ->
  env_max_iter env = max_iter inp /\
  scale_factors st = u /\
  bias_field_image st = repeat fone (n_voxels env) /\
  info st = [] /\
  n_tissue_types env = length (input_images inp) /\
  mask st = initial_mask env /\
  num_voxels st = Z.of_nat (count_true (mask st)).
Proof.
  intros H. pose proof (setup_Ok_full _ _ _ H) as Hf. cbv zeta in Hf.
  destruct Hf as [_ [Hn [Hnv [_ [_ [_ [Hm [_ [_ [Hmask [Hnum [Hu [_ [Hb [_ Hi]]]]]]]]]]]]]]].
  rewrite Hnv, Hmask. auto 10.
Qed.

Lemma write_output_value (cj : F) (img : list (list F)) (bias : list F) v k :
  (v < length img)%nat -> (v < length bias)%nat ->
  (k < length (nth v img []))%nat ->
  nth k (nth v (write_output cj img bias) []) fzero
  = fmax (ffloat (cj * nth k (nth v img []) fzero / nth v bias fzero)) fzero.
Proof.
  intros Hv Hb Hk. unfold write_output.
  rewrite (@nth_map2 _ _ _ _ img bias v [] fzero []) by assumption.
  rewrite (@nth_map_lt _ _ _ (nth v img []) k fzero fzero) by assumption.
  reflexivity.
Qed.

Lemma write_output_not_below_zero (cj : F) (img : list (list F)) (bias : list F) :
  (fzero <? fzero) = false ->
  Forall (Forall (fun s => (s <? fzero) = false)) (write_output cj img bias).
Proof.
  intros H0. unfold write_output. revert bias.
  induction img as [| samples img IH]; intros [| b bias]; simpl; constructor.
  - apply Forall_forall. intros s Hs. apply in_map_iff in Hs.
    destruct Hs as [x [<- _]]. unfold fmax.
    destruct (ffloat (cj * x / b) <? fzero) eqn:E; [exact H0 | exact E].
  - apply IH.
Qed.

(** The header entry and the samples of output [j]. *)
Lemma compose_outputs_values (inp : Inputs) (st : State) j :
  (j < length (input_images inp))%nat ->
  let c := final_scale_factors (independent inp) (scale_factors st) in
  nth j (normalisation_scale_factor (compose_outputs inp st)) fzero = nth j c fzero /\
  forall v k,
    (v < length (nth j (input_images inp) []))%nat ->
    (v < length (bias_field_image st))%nat ->
    (k < length (nth v (nth j (input_images inp) []) []))%nat ->
    nth k (nth v (nth j (output_images (compose_outputs inp st)) []) []) fzero
    = fmax (ffloat (nth j c fzero * nth k (nth v (nth j (input_images inp) []) []) fzero
                    / nth v (bias_field_image st) fzero)) fzero.
Proof.
  intros Hj c. unfold compose_outputs.
  cbn [normalisation_scale_factor output_images]. fold c. split.
  - rewrite (@nth_map_lt _ _ _ (seq 0 (length (input_images inp))) j fzero 0%nat)
      by (rewrite length_seq; exact Hj).
    rewrite seq_nth by exact Hj. reflexivity.
  - intros v k Hv Hb Hk.
    rewrite (@nth_map_lt _ _ _ (seq 0 (length (input_images inp))) j [] 0%nat)
      by (rewrite length_seq; exact Hj).
    rewrite seq_nth by exact Hj. cbn [Nat.add].
    apply write_output_value; assumption.
Qed.

Lemma run_without_loop (inp : Inputs) u up env st :
  (max_iter inp <= 1)%nat ->
  setup inp u up = Ok (env, st) ->
  run lstsq scanner_pos loop_rest inp u up = Ok (compose_outputs inp st).
Proof.
  intros Hmax Hsetup.
  destruct (setup_Ok _ _ _ Hsetup) as [Hm _].
  unfold run. rewrite Hsetup. simpl.
  rewrite outer_loop_exit by lia. reflexivity.
Qed.

Lemma run_Ok (inp : Inputs) u up out :
  run lstsq scanner_pos loop_rest inp u up = Ok out ->
  exists env st0 st,
    setup inp u up = Ok (env, st0) /\
    outer_loop lstsq scanner_pos loop_rest env 1 st0 = Ok st /\
    out = compose_outputs inp st.
Proof.
  unfold run. intros H.
  apply bind_Ok in H. destruct H as [[env st0] [Hs H]].
  apply bind_Ok in H. destruct H as [st [Hl H]].
  inversion H. exists env, st0, st. auto.
Qed.

(** C4: with max_iter <= 1 the body of the outer loop is never entered
    and the output stage works on the scale factors as the constructor
    left them, with the bias field still all ones: the header entry of
    output j carries c_j, and every output sample is the larger of 0 and
    c_j * input / 1 stored as a float, where c is that unset vector
    itself with -independent and otherwise the exponential of the mean
    of its logarithms (accumulated in a float) at every index. *)
Theorem unset_scale_factors_reach_output (inp : Inputs) u up env st :
  (max_iter inp <= 1)%nat ->
  setup inp u up = Ok (env, st) ->
  run lstsq scanner_pos loop_rest inp u up = Ok (compose_outputs inp st) /\
  scale_factors st = u /\
  bias_field_image st = repeat fone (n_voxels env) /\
  messages (compose_outputs inp st) = [] /\
  let c := final_scale_factors (independent inp) u in
  let js := seq 0 (length (input_images inp)) in
  normalisation_scale_factor (compose_outputs inp st) = map (fun j => nth j c fzero) js /\
  output_images (compose_outputs inp st) =
    map (fun j => write_output (nth j c fzero) (nth j (input_images inp) [])
                    (repeat fone (n_voxels env))) js /\
  (independent inp = true -> c = u) /\
  (independent inp = false ->
   c = map (fun _ =>
              ffloat (fexp (ffloat
                (fold_left (fun mean x => ffloat (mean + flog x)) u fzero
                 / fofZ (Z.of_nat (length u)))))) u) /\
  forall j v k,
    (j < length (input_images inp))%nat ->
    (v < length (nth j (input_images inp) []))%nat ->
    (v < n_voxels env)%nat ->
    (k < length (nth v (nth j (input_images inp) []) []))%nat ->
    let x := ffloat (nth j c fzero * nth k (nth v (nth j (input_images inp) []) []) fzero
                     / fone) in
    nth k (nth v (nth j (output_images (compose_outputs inp st)) []) []) fzero
    = if x <? fzero then fzero else x.
Proof.
  intros Hmax Hsetup.
  destruct (setup_Ok _ _ _ Hsetup) as [Hm [Hu [Hb [Hi _]]]].
  split; [apply run_without_loop with env; assumption |].
  split; [exact Hu |]. split; [exact Hb |]. split; [exact Hi |].
  intros c js.
  split; [unfold compose_outputs; simpl; rewrite Hu; reflexivity |].
  split; [unfold compose_outputs; simpl; rewrite Hu, Hb; reflexivity |].
  split; [intros Hind; unfold c; rewrite Hind; reflexivity |].
  split; [intros Hind; unfold c; rewrite Hind; reflexivity |].
  intros j v k Hj Hv Hvn Hk x.
  destruct (compose_outputs_values inp st Hj) as [_ Hs]. cbv zeta in Hs.
  rewrite Hs; [| exact Hv | rewrite Hb, repeat_length; exact Hvn | exact Hk].
  rewrite Hu, Hb, nth_repeat_lt by exact Hvn. reflexivity.
Qed.

(** C9 (amended): for every tissue j, every voxel v and every volume k
    the written output sample is std::max of x and 0, where x is
    c_j * input / bias stored as a float, c_j the final scale factor of
    tissue j (the solved factor with -independent, otherwise the
    exponential of the mean of the logarithms of the solved factors) and
    bias the final image-domain bias field: the sample is 0 when x < 0
    and x itself otherwise, so that no output sample is below 0 whatever
    the sign of the input, but a NaN x is written as it is; the header
    entry of output j carries c_j. *)
Theorem output_samples (inp : Inputs) u up out :
  run lstsq scanner_pos loop_rest inp u up = Ok out ->
  exists env st0 st,
    setup inp u up = Ok (env, st0) /\
    outer_loop lstsq scanner_pos loop_rest env 1 st0 = Ok st /\
    bias_output out = bias_field_image st /\
    let c := final_scale_factors (independent inp) (scale_factors st) in
    (independent inp = true -> c = scale_factors st) /\
    (independent inp = false ->
       c = map (fun _ =>
                  ffloat (fexp (ffloat
                    (fold_left (fun mean x => ffloat (mean + flog x))
                       (scale_factors st) fzero
                     / fofZ (Z.of_nat (length (scale_factors st)))))))
             (scale_factors st)) /\
    (forall j, (j < length (input_images inp))%nat ->
       nth j (normalisation_scale_factor out) fzero = nth j c fzero /\
       forall v k,
         (v < length (nth j (input_images inp) []))%nat ->
         (v < length (bias_field_image st))%nat ->
         (k < length (nth v (nth j (input_images inp) []) []))%nat ->
         let x := ffloat (nth j c fzero
                          * nth k (nth v (nth j (input_images inp) []) []) fzero
                          / nth v (bias_field_image st) fzero) in
         nth k (nth v (nth j (output_images out) []) []) fzero
         = if x <? fzero then fzero else x) /\
    ((fzero <? fzero) = false ->
     Forall (Forall (Forall (fun s => (s <? fzero) = false))) (output_images out)).
Proof.
  intros Hrun. destruct (run_Ok _ _ _ Hrun) as [env [st0 [st [Hs [Hl Hout]]]]].
  exists env, st0, st. subst out.
  split; [exact Hs |]. split; [exact Hl |]. split; [reflexivity |].
  intros c. split; [| split; [| split]].
  - intros Hi. unfold c. rewrite Hi. reflexivity.
  - intros Hi. unfold c. rewrite Hi. reflexivity.
  - intros j Hj. destruct (compose_outputs_values inp st Hj) as [Hh Hv].
    split; [exact Hh |]. intros v k H1 H2 H3 x. exact (Hv v k H1 H2 H3).
  - intros H0. unfold compose_outputs. cbn [output_images].
    apply Forall_forall. intros img Himg. apply in_map_iff in Himg.
    destruct Himg as [j [<- _]]. apply write_output_not_below_zero. exact H0.
Qed.

End Output.

Section OutputR.
Local Open Scope R_scope.

Lemma fmax_zero_Rmax (x : R) : fmax x 0 = Rmax 0 x.
Proof.
  unfold fmax. change (@fltb R RArith) with Rltb. unfold Rltb, Rmax.
  destruct (Rlt_dec x 0), (Rle_dec 0 x); lra.
Qed.

Lemma fold_left_log_sum (c : list R) a :
  fold_left (fun mean x => mean + ln x) c a = fold_left Rplus (map ln c) a.
Proof. revert a; induction c as [| x c IH]; intros a; simpl; auto. Qed.

Lemma final_scale_factors_joint (c : list R) :
  final_scale_factors false c = map (fun _ => geometric_mean c) c.
Proof.
  unfold final_scale_factors, geometric_mean, mean.
  cbn [fadd fzero fdiv fexp fofZ flog RArith].
  rewrite fold_left_log_sum, length_map. reflexivity.
Qed.

Lemma write_output_sample (cj : R) (img : list (list R)) (bias : list R) v k :
  (v < length img)%nat -> (v < length bias)%nat ->
  (k < length (nth v img []))%nat ->
  nth k (nth v (write_output cj img bias) []) 0
  = Rmax 0 (cj * nth k (nth v img []) 0 / nth v bias 0).
Proof.
  intros Hv Hb Hk. unfold write_output.
  rewrite (@nth_map2 _ _ _ _ img bias v [] 0 []) by assumption.
  rewrite (@nth_map_lt _ _ _ (nth v img []) k 0 0) by assumption.
  apply fmax_zero_Rmax.
Qed.

End OutputR.

(** * Worked examples *)

Local Open Scope R_scope.

(** ** The example solvers *)

(** [normal_solve2] solves the normal equations, so on a system of full
    column rank it returns the least-squares solution. *)
Lemma normal_solve2_normal_equations (X : list (list R)) (y : list R) :
  let g00 := inner (column 0 X) (column 0 X) in
  let g01 := inner (column 0 X) (column 1 X) in
  let g11 := inner (column 1 X) (column 1 X) in
  g00 * g11 - g01 * g01 <> 0 ->
  g00 * nth 0 (normal_solve2 X y) 0 + g01 * nth 1 (normal_solve2 X y) 0
    = inner (column 0 X) y /\
  g01 * nth 0 (normal_solve2 X y) 0 + g11 * nth 1 (normal_solve2 X y) 0
    = inner (column 1 X) y.
Proof.
  intros g00 g01 g11 Hdet. unfold normal_solve2. fold g00 g01 g11.
  cbn [nth]. split; field; exact Hdet.
Qed.

(** The field fitted by [constant_fit] is the constant [hd 0 y]. *)
Lemma constant_fit_field (pos : R * R * R) (y : list R) :
  dot (basis_function pos) (constant_fit y) = hd 0 y.
Proof.
  destruct pos as [[x y0] z]. unfold dot, constant_fit, basis_function.
  cbn. lra.
Qed.

(** ** Two tissues on five voxels *)

Lemma demo_setup maxiter u up :
  setup (demo_inputs maxiter) u up = Ok (demo_env maxiter, demo_state u up).
Proof. unfold setup. Reval. reflexivity. Qed.

Lemma demo_solved maxiter :
  lstsq_demo (design_matrix (demo_env maxiter) [true; true; true; true; true] [1; 1; 1; 1; 1])
    [1; 1; 1; 1; 1] = [3/4; 3/4].
Proof.
  cbn. unfold normal_solve2, inner, column. cbn.
  f_equal; [field | f_equal; field].
Qed.

Lemma exp_half_ln a : 0 < a -> exp ((0 + ln a + ln a) / 2) = a.
Proof. intros. replace ((0 + ln a + ln a) / 2) with (ln a) by lra. apply exp_ln; assumption. Qed.

Lemma demo_scale_factors maxiter (st : State) :
  mask st = [true; true; true; true; true] ->
  num_voxels st = 5%Z ->
  bias_field_image st = [1; 1; 1; 1; 1] ->
  solve_scale_factors lstsq_demo (demo_env maxiter) st = Ok [1; 1].
Proof.
  intros Hm Hn Hb. unfold solve_scale_factors. rewrite Hm, Hn, Hb.
  nat_eval. change (@fone R RArith) with 1. cbn [repeat].
  rewrite demo_solved. Reval.
  unfold renormalise. cbn. rewrite exp_half_ln by lra.
  replace (3 / 4 / (3 / 4)) with 1 by field. reflexivity.
Qed.

Lemma demo_summed_log maxiter :
  summed_log_image 0 (demo_env maxiter) [1; 1] [1; 1; 1; 1; 1] = [0; 1; 1; 1; 1].
Proof.
  unfold summed_log_image. cbn.
  replace (0 + 1 * 1 / 1) with 1 by lra. rewrite ln_1.
  replace (0 + 1 * 1 / 1) with 1 by lra. rewrite ln_1.
  repeat (f_equal; try lra).
Qed.

Lemma demo_reject :
  reject_outliers (F:=R) [0; 1; 1; 1; 1] [false; true; true; true; true]
  = Ok ([false; true; true; true; true], 4%Z).
Proof.
  rewrite (@reject_outliers_eval R _ _ _ [1; 1; 1; 1] 1 1);
    [| Reval; reflexivity | reflexivity | reflexivity | reflexivity].
  unfold outside, lit_1_6. Reval. reflexivity.
Qed.

Lemma demo_solved_settled maxiter :
  lstsq_demo (design_matrix (demo_env maxiter) [false; true; true; true; true] [1; 1; 1; 1; 1])
    [1; 1; 1; 1] = [1; 1].
Proof.
  cbn. unfold normal_solve2, inner, column. cbn.
  f_equal; [field | f_equal; field].
Qed.

Lemma demo_scale_factors_settled maxiter (st : State) :
  mask st = [false; true; true; true; true] ->
  num_voxels st = 4%Z ->
  bias_field_image st = [1; 1; 1; 1; 1] ->
  solve_scale_factors lstsq_demo (demo_env maxiter) st = Ok [1; 1].
Proof.
  intros Hm Hn Hb. unfold solve_scale_factors. rewrite Hm, Hn, Hb.
  nat_eval. change (@fone R RArith) with 1. cbn [repeat].
  rewrite demo_solved_settled. Reval.
  unfold renormalise. cbn. rewrite exp_half_ln by lra.
  replace (1 / 1) with 1 by field. reflexivity.
Qed.

Lemma demo_inner_body_first_pass maxiter k (st : State) :
  (mask st = [true; true; true; true; true] /\ num_voxels st = 5%Z) \/
  (mask st = [false; true; true; true; true] /\ num_voxels st = 4%Z) ->
  bias_field_image st = [1; 1; 1; 1; 1] ->
  exists st',
    inner_body lstsq_demo 0 (demo_env maxiter) 1 k st = Ok (st', false) /\
    demo_settled st'.
Proof.
  intros Hm Hb. unfold inner_body.
  assert (Hs : solve_scale_factors lstsq_demo (demo_env maxiter)
                 (say st (InfoNormIteration k)) = Ok [1; 1]).
  { rewrite solve_scale_factors_say.
    destruct Hm as [[Hm Hn] | [Hm Hn]];
      [apply demo_scale_factors | apply demo_scale_factors_settled]; assumption. }
  rewrite Hs.
  cbn [bind Nat.ltb Nat.leb bias_field_image say set_info initial_mask demo_env].
  rewrite Hb, demo_summed_log.
  unfold refine_mask. cbn [map2 fisfinite RArith fltb fzero andb].
  Rdecide. cbn [andb].
  rewrite demo_reject. cbn [bind fst snd].
  eexists. split; [reflexivity |].
  unfold demo_settled. cbn. auto.
Qed.

Lemma demo_inner_body_converges maxiter it k (st : State) :
  (1 < it)%nat ->
  demo_settled st ->
  exists st',
    inner_body lstsq_demo 0 (demo_env maxiter) it k st = Ok (st', true) /\
    demo_settled st'.
Proof.
  intros Hit [Hm [Hn [Hc [Hp Hb]]]]. unfold inner_body.
  rewrite solve_scale_factors_say, (@demo_scale_factors_settled maxiter st) by assumption.
  cbn [bind].
  apply Nat.ltb_lt in Hit. rewrite Hit.
  cbn [previous_scale_factors say set_info]. rewrite Hp.
  assert (Hchange : relative_change [1; 1] [1; 1] = 0).
  { unfold relative_change, mean. cbn.
    replace (1 - 1) with 0 by lra. rewrite Rabs_R0. lra. }
  rewrite Hchange.
  assert (Hlt : fltb (0 : R) lit_0_001 = true)
    by (unfold lit_0_001; cbn; apply Rltb_true; lra).
  rewrite Hlt.
  eexists. split; [reflexivity |].
  unfold demo_settled. cbn. auto.
Qed.

Lemma demo_fit_bias maxiter (st : State) :
  demo_settled st ->
  demo_settled (fit_bias lstsq_demo scanner_demo (demo_env maxiter) st) /\
  bias_field_log (fit_bias lstsq_demo scanner_demo (demo_env maxiter) st)
    = [0; 0; 0; 0; 0].
Proof.
  intros [Hm [Hn [Hc [Hp Hb]]]].
  assert (Hlog : bias_field_log (fit_bias lstsq_demo scanner_demo (demo_env maxiter) st)
                 = [0; 0; 0; 0; 0]).
  { unfold fit_bias. cbn [bias_field_log]. rewrite Hm, Hc.
    cbn [n_voxels demo_env seq map masked combined_tissue].
    change (lstsq_demo _ _) with
      (constant_fit
         [ln (tissue_sum (demo_env maxiter) [1; 1] [1; 0]) - ln 1;
          ln (tissue_sum (demo_env maxiter) [1; 1] [0; 1]) - ln 1;
          ln (tissue_sum (demo_env maxiter) [1; 1] [1; 0]) - ln 1;
          ln (tissue_sum (demo_env maxiter) [1; 1] [0; 1]) - ln 1]).
    rewrite !constant_fit_field. cbn.
    replace (0 + 1 * 1 + 1 * 0) with 1 by lra. rewrite ln_1.
    replace (0 - 0) with 0 by lra. reflexivity. }
  split; [| exact Hlog].
  unfold demo_settled.
  assert (Himg : bias_field_image (fit_bias lstsq_demo scanner_demo (demo_env maxiter) st)
                 = map exp (bias_field_log
                              (fit_bias lstsq_demo scanner_demo (demo_env maxiter) st)))
    by reflexivity.
  rewrite Himg, Hlog. cbn [map]. rewrite exp_0.
  cbn [mask num_voxels scale_factors previous_scale_factors fit_bias]. auto.
Qed.

Lemma demo_outer_loop :
  exists st,
    outer_loop lstsq_demo scanner_demo 0 (demo_env 3) 1 (demo_state [] []) = Ok st /\
    demo_settled st /\
    inner_passes (info st) = 3%nat.
Proof.
  (* first outer pass: two inner iterations, no convergence test *)
  destruct (@demo_inner_body_first_pass 3 1 (say (demo_state [] []) (InfoIteration 1))
              (or_introl (conj eq_refl eq_refl)) eq_refl) as [s1 [H1 S1]].
  destruct (@demo_inner_body_first_pass 3 2 s1
              (or_intror (conj (proj1 S1) (proj1 (proj2 S1))))
              (proj2 (proj2 (proj2 (proj2 S1))))) as [s2 [H2 S2]].
  assert (L1 : inner_loop lstsq_demo 0 (demo_env 3) 1 1 false
                 (say (demo_state [] []) (InfoIteration 1)) = Ok s2).
  { rewrite inner_loop_step by (cbn; lia). rewrite H1.
    rewrite inner_loop_step by (cbn; lia). rewrite H2.
    apply inner_loop_cap. cbn. lia. }
  set (t1 := fit_bias lstsq_demo scanner_demo (demo_env 3)
               (say s2 (InfoScaleFactors (scale_factors s2)))).
  assert (T1 : demo_settled t1) by (apply demo_fit_bias; exact S2).
  (* second outer pass: the first inner iteration converges *)
  destruct (@demo_inner_body_converges 3 2 1 (say t1 (InfoIteration 2))
              ltac:(lia) T1) as [s3 [H3 S3]].
  assert (L2 : inner_loop lstsq_demo 0 (demo_env 3) 2 1 false
                 (say t1 (InfoIteration 2)) = Ok s3).
  { rewrite inner_loop_step by (cbn; lia). rewrite H3.
    apply inner_loop_converged. }
  set (t2 := fit_bias lstsq_demo scanner_demo (demo_env 3)
               (say s3 (InfoScaleFactors (scale_factors s3)))).
  assert (T2 : demo_settled t2) by (apply demo_fit_bias; exact S3).
  assert (Hrun : outer_loop lstsq_demo scanner_demo 0 (demo_env 3) 1 (demo_state [] [])
                 = Ok t2).
  { rewrite outer_loop_step by (cbn; lia).
    unfold outer_body at 1. rewrite L1. cbn [bind]. fold t1.
    rewrite outer_loop_step by (cbn; lia).
    unfold outer_body at 1. rewrite L2. cbn [bind]. fold t2.
    apply outer_loop_exit. cbn. lia. }
  exists t2. split; [exact Hrun |]. split; [exact T2 |].
  unfold t2. rewrite fit_bias_info. cbn [say set_info info].
  rewrite inner_passes_app.
  destruct (inner_body_info _ _ _ _ _ _ H3) as [I3 _]. rewrite I3.
  cbn [say set_info info]. rewrite inner_passes_app.
  unfold t1. rewrite fit_bias_info. cbn [say set_info info].
  rewrite inner_passes_app.
  destruct (inner_body_info _ _ _ _ _ _ H2) as [I2 _]. rewrite I2.
  destruct (inner_body_info _ _ _ _ _ _ H1) as [I1 _]. rewrite I1.
  cbn. reflexivity.
Qed.

Lemma demo_run :
  exists out, run lstsq_demo scanner_demo 0 (demo_inputs 3) [] [] = Ok out.
Proof.
  destruct demo_outer_loop as [st [H _]].
  unfold run. rewrite demo_setup. cbn [bind fst snd]. rewrite H. cbn [bind]. eauto.
Qed.

(** ** A mask that grows from one inner iteration to the next *)

Lemma gm2_pos a b : 0 < / gm2 a b.
Proof. apply Rinv_0_lt_compat, exp_pos. Qed.

Lemma shrink_setup u up :
  setup shrink_inputs u up
  = Ok (shrink_env, shrink_state [false; true; true; true; true; true; true] 6 u up []).
Proof. unfold setup. Reval. reflexivity. Qed.

Section Shrink.
Variable rest : nat.
Hypothesis rest_off_mask : rest = 0%nat \/ (7 <= rest)%nat.

Lemma shrink_summed_log (a b : R) :
  exists L0,
    summed_log_image rest shrink_env [a; b] [1; 1; 1; 1; 1; 1; 1]
    = [L0; b; 2 * b; a; 3 * a; 4 * a; 4 * a].
Proof.
  unfold summed_log_image.
  destruct rest_off_mask as [-> | Hrest].
  - cbn. eexists. f_equal. repeat (f_equal; try lra).
  - cbn [fold_left seq n_tissue_types shrink_env n_voxels repeat combined_tissue].
    rewrite !update_overflow
      by (rewrite ?map3_length, ?update_length, ?map3_length; simpl; lia).
    cbn. eexists. f_equal. repeat (f_equal; try lra).
Qed.

End Shrink.

Lemma shrink_reject_first (g L0 : R) :
  0 < g ->
  let a := 2 / 7 / g in
  let b := 3 / 5 / g in
  reject_outliers (F:=R) [L0; b; 2 * b; a; 3 * a; 4 * a; 4 * a]
    [false; true; true; true; true; true; true]
  = Ok ([false; true; true; false; true; true; true], 5%Z).
Proof.
  intros Hg a b. pose proof (Rinv_0_lt_compat g Hg) as Hr.
  rewrite (@reject_outliers_eval R _ _ _ [a; b; 3 * a; 4 * a; 4 * a; 2 * b] (3 * a) (2 * b));
    [| unfold a, b; Reval; reflexivity | reflexivity | reflexivity | reflexivity].
  unfold outside, lit_1_6, a, b. Reval. reflexivity.
Qed.

Lemma shrink_reject_second (g L0 : R) :
  0 < g ->
  let a := 11 / 41 / g in
  let b := 3 / 5 / g in
  reject_outliers (F:=R) [L0; b; 2 * b; a; 3 * a; 4 * a; 4 * a]
    [false; true; true; true; true; true; true]
  = Ok ([false; true; true; true; true; true; true], 6%Z).
Proof.
  intros Hg a b. pose proof (Rinv_0_lt_compat g Hg) as Hr.
  rewrite (@reject_outliers_eval R _ _ _ [a; b; 3 * a; 4 * a; 4 * a; 2 * b] (3 * a) (2 * b));
    [| unfold a, b; Reval; reflexivity | reflexivity | reflexivity | reflexivity].
  unfold outside, lit_1_6, a, b. Reval. reflexivity.
Qed.

Lemma shrink_solve_first (st : State) :
  mask st = [false; true; true; true; true; true; true] ->
  num_voxels st = 6%Z ->
  bias_field_image st = [1; 1; 1; 1; 1; 1; 1] ->
  solve_scale_factors lstsq_demo shrink_env st
  = Ok [2 / 7 / gm2 (2 / 7) (3 / 5); 3 / 5 / gm2 (2 / 7) (3 / 5)].
Proof.
  intros Hm Hn Hb. unfold solve_scale_factors. rewrite Hm, Hn, Hb.
  nat_eval. change (@fone R RArith) with 1. cbn [repeat].
  assert (Hs : lstsq_demo
                 (design_matrix shrink_env [false; true; true; true; true; true; true]
                    [1; 1; 1; 1; 1; 1; 1]) [1; 1; 1; 1; 1; 1] = [2 / 7; 3 / 5]).
  { cbn. unfold normal_solve2, inner, column. cbn. f_equal; [field | f_equal; field]. }
  rewrite Hs. Reval. reflexivity.
Qed.

Lemma shrink_solve_second (st : State) :
  mask st = [false; true; true; false; true; true; true] ->
  num_voxels st = 5%Z ->
  bias_field_image st = [1; 1; 1; 1; 1; 1; 1] ->
  solve_scale_factors lstsq_demo shrink_env st
  = Ok [11 / 41 / gm2 (11 / 41) (3 / 5); 3 / 5 / gm2 (11 / 41) (3 / 5)].
Proof.
  intros Hm Hn Hb. unfold solve_scale_factors. rewrite Hm, Hn, Hb.
  nat_eval. change (@fone R RArith) with 1. cbn [repeat].
  assert (Hs : lstsq_demo
                 (design_matrix shrink_env [false; true; true; false; true; true; true]
                    [1; 1; 1; 1; 1; 1; 1]) [1; 1; 1; 1; 1] = [11 / 41; 3 / 5]).
  { cbn. unfold normal_solve2, inner, column. cbn. f_equal; [field | f_equal; field]. }
  rewrite Hs. Reval. reflexivity.
Qed.

Section ShrinkRun.
Variable rest : nat.
Hypothesis rest_off_mask : rest = 0%nat \/ (7 <= rest)%nat.

Lemma shrink_refine (L0 b1 b2 a1 a2 a3 a4 : R) :
  0 < b1 -> 0 < b2 -> 0 < a1 -> 0 < a2 -> 0 < a3 -> 0 < a4 ->
  refine_mask [L0; b1; b2; a1; a2; a3; a4] (initial_mask shrink_env)
  = [false; true; true; true; true; true; true].
Proof.
  intros. unfold refine_mask. cbn [initial_mask shrink_env map2 fisfinite RArith fltb fzero].
  rewrite andb_false_r. Rdecide. reflexivity.
Qed.

Lemma shrink_inner_first u up i :
  inner_body lstsq_demo rest shrink_env 1 1
    (shrink_state [false; true; true; true; true; true; true] 6 u up i)
  = Ok (shrink_state [false; true; true; false; true; true; true] 5
          [2 / 7 / gm2 (2 / 7) (3 / 5); 3 / 5 / gm2 (2 / 7) (3 / 5)]
          [2 / 7 / gm2 (2 / 7) (3 / 5); 3 / 5 / gm2 (2 / 7) (3 / 5)]
          (i ++ [InfoNormIteration 1]), false).
Proof.
  unfold inner_body.
  rewrite shrink_solve_first by reflexivity.
  cbn [bind Nat.ltb Nat.leb bias_field_image say set_info shrink_state].
  destruct (@shrink_summed_log rest rest_off_mask
              (2 / 7 / gm2 (2 / 7) (3 / 5)) (3 / 5 / gm2 (2 / 7) (3 / 5))) as [L0 HL].
  rewrite HL.
  pose proof (gm2_pos (2 / 7) (3 / 5)) as Hr.
  rewrite shrink_refine by lra.
  rewrite shrink_reject_first by apply exp_pos.
  reflexivity.
Qed.

Lemma shrink_inner_second c cp i :
  inner_body lstsq_demo rest shrink_env 1 2
    (shrink_state [false; true; true; false; true; true; true] 5 c cp i)
  = Ok (shrink_state [false; true; true; true; true; true; true] 6
          [11 / 41 / gm2 (11 / 41) (3 / 5); 3 / 5 / gm2 (11 / 41) (3 / 5)]
          [11 / 41 / gm2 (11 / 41) (3 / 5); 3 / 5 / gm2 (11 / 41) (3 / 5)]
          (i ++ [InfoNormIteration 2]), false).
Proof.
  unfold inner_body.
  rewrite shrink_solve_second by reflexivity.
  cbn [bind Nat.ltb Nat.leb bias_field_image say set_info shrink_state].
  destruct (@shrink_summed_log rest rest_off_mask
              (11 / 41 / gm2 (11 / 41) (3 / 5)) (3 / 5 / gm2 (11 / 41) (3 / 5))) as [L0 HL].
  rewrite HL.
  pose proof (gm2_pos (11 / 41) (3 / 5)) as Hr.
  rewrite shrink_refine by lra.
  rewrite shrink_reject_second by apply exp_pos.
  reflexivity.
Qed.

Lemma shrink_inner_loop u up i :
  exists c,
  inner_loop lstsq_demo rest shrink_env 1 1 false
    (shrink_state [false; true; true; true; true; true; true] 6 u up i)
  = Ok (shrink_state [false; true; true; true; true; true; true] 6 c c
          ((i ++ [InfoNormIteration 1]) ++ [InfoNormIteration 2])).
Proof.
  eexists.
  rewrite inner_loop_step by (cbn; lia). rewrite shrink_inner_first.
  rewrite inner_loop_step by (cbn; lia). rewrite shrink_inner_second.
  apply inner_loop_cap. cbn. lia.
Qed.

End ShrinkRun.

Lemma shrink_two_iterations (rest : nat) :
  rest = 0%nat \/ (7 <= rest)%nat ->
  exists st1 st2,
    inner_body lstsq_demo rest shrink_env 1 1
      (shrink_state [false; true; true; true; true; true; true] 6 [] []
         [InfoIteration 1]) = Ok (st1, false) /\
    inner_body lstsq_demo rest shrink_env 1 2 st1 = Ok (st2, false) /\
    inner_loop lstsq_demo rest shrink_env 1 1 false
      (shrink_state [false; true; true; true; true; true; true] 6 [] []
         [InfoIteration 1]) = Ok st2 /\
    mask st1 = [false; true; true; false; true; true; true] /\
    mask st2 = [false; true; true; true; true; true; true].
Proof.
  intros Hrest. do 2 eexists. split; [| split; [| split; [| split]]].
  - apply (shrink_inner_first Hrest).
  - apply (shrink_inner_second Hrest).
  - rewrite inner_loop_step by (cbn; lia). rewrite (shrink_inner_first Hrest).
    rewrite inner_loop_step by (cbn; lia). rewrite (shrink_inner_second Hrest).
    apply inner_loop_cap. cbn. lia.
  - reflexivity.
  - reflexivity.
Qed.

(** ** The claims on the examples *)

Lemma ln_2_lt_2 : ln 2 < 2.
Proof.
  pose proof (exp_ineq1 2 ltac:(lra)) as He.
  rewrite <- (ln_exp 2) at 2. apply ln_increasing; lra.
Qed.

(** C1: in a non-converged inner iteration the volume handed to mask
    refinement is not the per-voxel logarithm of the scaled,
    bias-divided tissue sum.  On the five-voxel example, with the scale
    factors (1, 1) the first inner iteration solves for and the bias
    field all ones, the program takes the logarithm only where the
    cursor rests after each pass over the volume (the first voxel, or no
    voxel at all when it rests past the last one) and leaves the plain
    sum 1 everywhere else, where the logarithm of the sum is 0. *)
Theorem log_taken_where_the_cursor_rests :
  solve_scale_factors lstsq_demo (demo_env 3) (demo_state [] []) = Ok [1; 1] /\
  summed_log_image 0 (demo_env 3) [1; 1] [1; 1; 1; 1; 1] = [0; 1; 1; 1; 1] /\
  summed_log_image 5 (demo_env 3) [1; 1] [1; 1; 1; 1; 1] = [2; 1; 1; 1; 1] /\
  log_of_summed (demo_env 3) [1; 1] [1; 1; 1; 1; 1] = [ln 2; 0; 0; 0; 0] /\
  ln 2 <> 0 /\ ln 2 <> 2 /\ (1 : R) <> 0.
Proof.
  split; [apply demo_scale_factors; reflexivity |].
  split; [apply demo_summed_log |].
  split.
  { unfold summed_log_image.
    cbn [fold_left seq n_tissue_types demo_env n_voxels repeat combined_tissue].
    rewrite !update_overflow
      by (rewrite ?map3_length, ?update_length, ?map3_length; simpl; lia).
    cbn. repeat (f_equal; try lra). }
  split.
  { unfold log_of_summed, plain_sum. cbn.
    replace (0 + 1 * 1 / 1 + 1 * 1 / 1) with 2 by lra.
    replace (0 + 1 * 1 / 1 + 1 * 0 / 1) with 1 by lra.
    replace (0 + 1 * 0 / 1 + 1 * 1 / 1) with 1 by lra.
    rewrite ln_1. reflexivity. }
  pose proof ln_lt_2. pose proof ln_2_lt_2. repeat split; lra.
Qed.

(** C2, as stated, fails: in the first outer pass of the seven-voxel
    example the first inner iteration leaves 5 voxels in the working
    mask and the second one 6, the voxel removed by the first being set
    again, wherever a completed loop leaves the cursor. *)
Lemma mask_count_grows_between_inner_iterations :
  setup shrink_inputs [] []
    = Ok (shrink_env,
          shrink_state [false; true; true; true; true; true; true] 6 [] [] []) /\
  (exists st1 st2,
     inner_body lstsq_demo 0 shrink_env 1 1
       (shrink_state [false; true; true; true; true; true; true] 6 [] []
          [InfoIteration 1]) = Ok (st1, false) /\
     inner_body lstsq_demo 0 shrink_env 1 2 st1 = Ok (st2, false) /\
     count_true (mask st1) = 5%nat /\ count_true (mask st2) = 6%nat /\
     nth 3 (mask st1) false = false /\ nth 3 (mask st2) false = true) /\
  (exists st1 st2,
     inner_body lstsq_demo 7 shrink_env 1 1
       (shrink_state [false; true; true; true; true; true; true] 6 [] []
          [InfoIteration 1]) = Ok (st1, false) /\
     inner_body lstsq_demo 7 shrink_env 1 2 st1 = Ok (st2, false) /\
     count_true (mask st1) = 5%nat /\ count_true (mask st2) = 6%nat /\
     nth 3 (mask st1) false = false /\ nth 3 (mask st2) false = true).
Proof.
  split; [apply shrink_setup |].
  split.
  - destruct (@shrink_two_iterations 0%nat ltac:(lia))
      as [st1 [st2 [H1 [H2 [_ [Hm1 Hm2]]]]]].
    exists st1, st2. rewrite Hm1, Hm2. repeat split; assumption.
  - destruct (@shrink_two_iterations 7%nat ltac:(lia))
      as [st1 [st2 [H1 [H2 [_ [Hm1 Hm2]]]]]].
    exists st1, st2. rewrite Hm1, Hm2. repeat split; assumption.
Qed.

Lemma working_mask_within_initial_mask_witness :
  (count_true [false; true; true; false; true; true; true]
   <= count_true (initial_mask shrink_env))%nat /\
  (5 = Z.of_nat (count_true [false; true; true; false; true; true; true]))%Z.
Proof.
  pose proof (@working_mask_within_initial_mask R RArith lstsq_demo 0%nat shrink_env
                1%nat 1%nat _ _
                (@shrink_inner_first 0%nat (or_introl eq_refl) [] [] [])
                ltac:(simpl; lia)) as H.
  cbv zeta in H. destruct H as [_ [_ [[H1 H2] H3]]].
  cbn [mask num_voxels shrink_state] in *. split; [lia | exact H3].
Defined.

Lemma quartile_lookup_bounds_witness :
  reject_outliers (F:=R) [1; 2] [true; true] = OutOfBounds /\
  exists r, reject_outliers (F:=R) [1; 1; 1; 1] [true; true; true; true] = Ok r.
Proof.
  split.
  - apply (proj1 (@quartile_lookup_bounds R RArith [1; 2] [true; true])).
    simpl. lia.
  - apply (proj2 (@quartile_lookup_bounds R RArith [1; 1; 1; 1]
                    [true; true; true; true])).
    simpl. lia.
Defined.

Lemma unset_scale_factors_reach_output_witness :
  run lstsq_demo scanner_demo 0 (demo_inputs 1) [2; 8] []
    = Ok (compose_outputs (demo_inputs 1) (demo_state [2; 8] [])) /\
  normalisation_scale_factor (compose_outputs (demo_inputs 1) (demo_state [2; 8] []))
    = [gm2 2 8; gm2 2 8] /\
  nth 0 (nth 0 (nth 0 (output_images
                          (compose_outputs (demo_inputs 1) (demo_state [2; 8] [])))
                  []) []) 0
    = (if Rltb (gm2 2 8 * 1 / 1) 0 then 0 else gm2 2 8 * 1 / 1).
Proof.
  destruct (@unset_scale_factors_reach_output R RArith lstsq_demo scanner_demo 0%nat
              (demo_inputs 1) [2; 8] [] (demo_env 1) (demo_state [2; 8] [])
              ltac:(simpl; lia) (demo_setup 1 [2; 8] []))
    as [Hrun [_ [_ [_ [Htag [_ [_ [_ Hs]]]]]]]].
  split; [exact Hrun |]. split; [rewrite Htag; reflexivity |].
  exact (Hs 0%nat 0%nat 0%nat ltac:(simpl; lia) ltac:(simpl; lia) ltac:(simpl; lia)
            ltac:(simpl; lia)).
Defined.

Lemma degenerate_solved :
  lstsq_demo (design_matrix degenerate_env (mask degenerate_state)
                (bias_field_image degenerate_state))
    (repeat 1 (Z.to_nat (num_voxels degenerate_state))) = [1; 0].
Proof.
  cbn. nat_eval. unfold normal_solve2, inner, column. cbn.
  f_equal; [field | f_equal; field].
Qed.



(** C7, as stated, fails on the index: with n = 2^24 + 1 masked voxels
    the count becomes 2^24 in single precision and the upper-quartile
    index is 12582912, where round (n * 0.75) is 12582913. *)
Lemma quartile_index_of_rounded_count :
  float_of_size 16777217 = 16777216%Z /\
  upper_quartile_index 16777217 = 12582912%Z /\
  round_three_quarters 16777217 = 12582913%Z /\
  upper_quartile_index 16777217 <> round_three_quarters 16777217.
Proof. vm_compute. repeat split; congruence. Qed.

(** One value of eight far above the others: the pass removes that voxel
    and no other. *)
Lemma rejection_removes_the_outlier :
  reject_outliers (F:=R) [1; 1; 1; 10; 1; 1; 1; 1]
    [true; true; true; true; true; true; true; true]
  = Ok ([true; true; true; false; true; true; true; true], 7%Z).
Proof.
  rewrite (@reject_outliers_eval R _ _ _ [1; 1; 1; 1; 1; 1; 1; 10] 1 1);
    [| Reval; reflexivity | reflexivity | reflexivity | reflexivity].
  unfold outside, lit_1_6. Reval. reflexivity.
Qed.

Lemma outlier_rejection_pass_witness :
  exists m' nv',
    reject_outliers (F:=R) [1; 1; 1; 10; 1; 1; 1; 1]
      [true; true; true; true; true; true; true; true] = Ok (m', nv') /\
    nv' = Z.of_nat (count_true m').
Proof.
  destruct (@outlier_rejection_pass R RArith [1; 1; 1; 10; 1; 1; 1; 1]
              [true; true; true; true; true; true; true; true]
              ltac:(simpl; lia))
    as [_ [_ [Q1 [Q3 [_ [_ [_ [m' [nv' [Hr [_ [_ Hnv]]]]]]]]]]]].
  exists m', nv'. split; assumption.
Defined.

Lemma loop_iteration_counts_witness :
  exists st',
    outer_loop lstsq_demo scanner_demo 0 (demo_env 3) 1 (demo_state [] []) = Ok st' /\
    outer_passes (info st') = 2%nat /\
    inner_passes (info st') = 3%nat.
Proof.
  destruct demo_outer_loop as [st' [Hrun [_ Hinner]]].
  exists st'. split; [exact Hrun |]. split; [| exact Hinner].
  apply (proj1 (@loop_iteration_counts R RArith lstsq_demo scanner_demo 0%nat
                  (demo_env 3)) _ _ Hrun).
Defined.

Lemma output_samples_witness :
  exists out,
    run lstsq_demo scanner_demo 0 (demo_inputs 3) [] [] = Ok out /\
    Forall (Forall (Forall (fun s => Rltb s 0 = false))) (output_images out).
Proof.
  destruct demo_run as [out Hrun].
  exists out. split; [exact Hrun |].
  destruct (@output_samples R RArith lstsq_demo scanner_demo 0%nat (demo_inputs 3)
              [] [] out Hrun)
    as [env [st0 [st [_ [_ [_ H]]]]]].
  cbv zeta in H. apply H. apply Rltb_false. lra.
Defined.

(** * Further properties of the program *)

Local Close Scope R_scope.

(** ** Masks and counts *)
Lemma count_true_all_false a :
  (forall v, nth v a false = false) -> count_true a = 0%nat.
Proof.
  induction a as [| x a IH]; intros H; [reflexivity |].
  rewrite count_true_cons. rewrite IH by (intros v; exact (H (S v))).
  pose proof (H 0%nat) as H0. simpl in H0. subst x. reflexivity.
Qed.

Lemma count_true_within a b : mask_within a b -> (count_true a <= count_true b)%nat.
Proof.
  revert b; induction a as [| x a IH]; intros b H.
  - unfold count_true at 1. simpl. lia.
  - destruct b as [| y b].
    + rewrite count_true_all_false; [lia |].
      intros v. destruct (nth v (x :: a) false) eqn:E; [| reflexivity].
      specialize (H v E). destruct v; discriminate.
    + rewrite !count_true_cons.
      assert (Hxy : x = true -> y = true) by (intros ->; exact (H 0%nat eq_refl)).
      assert (IHa : (count_true a <= count_true b)%nat)
        by (apply IH; intros v Hv; exact (H (S v) Hv)).
      destruct x, y; try lia; specialize (Hxy eq_refl); discriminate.
Qed.

Lemma count_true_positive m v : nth v m false = true -> (1 <= count_true m)%nat.
Proof.
  revert v; induction m as [| b m IH]; intros [| v] H; simpl in H; try discriminate.
  - subst b. rewrite count_true_cons. lia.
  - rewrite count_true_cons. specialize (IH v H). destruct b; lia.
Qed.

Lemma count_true_zero m : count_true m = 0%nat -> forall v, nth v m false = false.
Proof.
  intros H v. destruct (nth v m false) eqn:E; [| reflexivity].
  apply count_true_positive in E. lia.
Qed.

Lemma count_true_le_length m : (count_true m <= length m)%nat.
Proof.
  induction m as [| b m IH]; [unfold count_true; simpl; lia |].
  rewrite count_true_cons. simpl. destruct b; lia.
Qed.

Lemma count_true_exists m : count_true m <> 0%nat -> exists v, nth v m false = true.
Proof.
  induction m as [| b m IH]; intros H; [exfalso; apply H; reflexivity |].
  rewrite count_true_cons in H. destruct b.
  - exists 0%nat. reflexivity.
  - destruct (IH ltac:(simpl in H; lia)) as [v Hv]. exists (S v). exact Hv.
Qed.

Lemma masked_length_count {A} (m : list bool) (l : list A) :
  (length m <= length l)%nat -> length (masked m l) = count_true m.
Proof.
  revert l; induction m as [| b m IH]; intros [| a l] H; simpl in *;
    try reflexivity; try lia.
  rewrite count_true_cons. specialize (IH l ltac:(lia)). destruct b; simpl; lia.
Qed.

Lemma masked_length_count_le {A} (m : list bool) (l : list A) :
  (length (masked m l) <= count_true m)%nat.
Proof.
  revert l; induction m as [| b m IH]; intros [| a l]; simpl; try lia.
  rewrite count_true_cons. specialize (IH l). destruct b; simpl; lia.
Qed.

Lemma filter_length_perm {A} (P : A -> bool) (l l' : list A) :
  Permutation l l' -> length (filter P l) = length (filter P l').
Proof.
  induction 1 as [| x l l' _ IH | x y l | l l' l'' _ IH1 _ IH2]; simpl; auto.
  - destruct (P x); simpl; congruence.
  - destruct (P x), (P y); reflexivity.
  - congruence.
Qed.

Lemma filter_length_range {A} (P : A -> bool) (d : A) (l : list A) (i j : nat) :
  (i <= j < length l)%nat ->
  (forall p, (i <= p <= j)%nat -> P (nth p l d) = false) ->
  (length (filter P l) + (j - i + 1) <= length l)%nat.
Proof.
  revert i j. induction l as [| x l IH]; intros i j Hij Hp; simpl in *; [lia |].
  destruct i as [| i].
  - rewrite (Hp 0%nat ltac:(lia)).
    destruct j as [| j].
    + pose proof (filter_length_le P l). lia.
    + specialize (IH 0%nat j ltac:(lia)
                    (fun p Hp' => Hp (S p) ltac:(lia))). lia.
  - destruct j as [| j]; [lia |].
    specialize (IH i j ltac:(lia) (fun p Hp' => Hp (S p) ltac:(lia))).
    destruct (P x); simpl; lia.
Qed.

(** ** Mask refinement *)
Section Refine.
Context {F : Type} {AF : Arith F}.

(** X1: [refine_mask] writes one value for every voxel the scalar volume
    and the mask share, keeps a voxel only if the given mask has it, so
    never adds a voxel and never raises the count, and refining the result
    again against the same scalar volume changes nothing. *)
Theorem refine_mask_shrinks_and_is_idempotent (summed : list F) (m : list bool) :
  length (refine_mask summed m) = Nat.min (length summed) (length m) /\
  mask_within (refine_mask summed m) m /\
  (count_true (refine_mask summed m) <= count_true m)%nat /\
  refine_mask summed (refine_mask summed m) = refine_mask summed m.
Proof.
  split; [apply map2_length |].
  split; [intros v; apply refine_mask_within |].
  split.
  - apply count_true_map2_le. intros a b H. apply andb_true_iff in H. tauto.
  - unfold refine_mask. revert m.
    induction summed as [| s summed IH]; intros [| b m]; simpl; try reflexivity.
    f_equal; [| apply IH].
    destruct (fisfinite s), (fltb fzero s), b; reflexivity.
Qed.

End Refine.

(** ** What the loops preserve and what they establish *)
Section Further.
Context {F : Type} {AF : Arith F}.
Variable lstsq : list (list F) -> list F -> list F.
Variable loop_rest : nat.
Variable env : Env (F:=F).

(** Everything an inner iteration that returns has done. *)
Lemma inner_body_Ok it k st st' b :
  inner_body lstsq loop_rest env it k st = Ok (st', b) ->
  exists c,
    solve_scale_factors lstsq env st = Ok c /\
    scale_factors st' = c /\ previous_scale_factors st' = c /\
    bias_field_image st' = bias_field_image st /\
    bias_field_log st' = bias_field_log st /\
    bias_field_weights st' = bias_field_weights st /\
    b = (if (1 <? it)%nat
         then fltb (relative_change (previous_scale_factors st) c) lit_0_001
         else false) /\
    if b then mask st' = mask st /\ num_voxels st' = num_voxels st
    else exists r,
        reject_outliers (summed_log_image loop_rest env c (bias_field_image st))
          (refine_mask (summed_log_image loop_rest env c (bias_field_image st))
             (initial_mask env)) = Ok r /\
        mask st' = fst r /\ num_voxels st' = snd r.
Proof.
  unfold inner_body. intros H.
  apply bind_Ok in H. destruct H as [c [Hc H]].
  rewrite solve_scale_factors_say in Hc. exists c.
  split; [exact Hc |].
  destruct (1 <? it)%nat; cbn [say set_info previous_scale_factors mask num_voxels
    bias_field_image bias_field_log bias_field_weights] in H.
  - destruct (fltb _ lit_0_001) eqn:E.
    + inversion H; subst; clear H. cbn. auto 10.
    + apply bind_Ok in H. destruct H as [r [Hr H]].
      inversion H; subst; clear H. cbn. repeat split; eauto.
  - apply bind_Ok in H. destruct H as [r [Hr H]].
    inversion H; subst; clear H. cbn. repeat split; eauto.
Qed.

Lemma inner_loop_invariant (P : State -> Prop) it :
  (forall k st st' b, P st -> inner_body lstsq loop_rest env it k st = Ok (st', b) -> P st') ->
  forall k conv st st',
    P st -> inner_loop lstsq loop_rest env it k conv st = Ok st' -> P st'.
Proof.
  intros Hstep k conv st.
  funelim (inner_loop lstsq loop_rest env it k conv st); intros st0 HP Hrun.
  - inversion Hrun; subst; assumption.
  - inversion Hrun; subst; assumption.
  - eapply H; eauto.
  - discriminate.
  - discriminate.
Qed.

(** A property every returning inner iteration establishes holds after the
    inner loop as soon as the loop enters its body. *)
Lemma inner_loop_establishes (Q : State -> Prop) it :
  (forall k st st' b, inner_body lstsq loop_rest env it k st = Ok (st', b) -> Q st') ->
  forall k conv st st',
    Q st \/ (conv = false /\ (k < env_max_iter env)%nat) ->
    inner_loop lstsq loop_rest env it k conv st = Ok st' -> Q st'.
Proof.
  intros Hstep k conv st.
  funelim (inner_loop lstsq loop_rest env it k conv st); intros st0 HQ Hrun.
  - inversion Hrun; subst. destruct HQ as [HQ | [HQ _]]; [assumption | discriminate].
  - inversion Hrun; subst. destruct HQ as [HQ | [_ HQ]]; [assumption | lia].
  - eapply H; [exact Hstep | | exact Hrun]. left. eapply Hstep; eauto.
  - discriminate.
  - discriminate.
Qed.

End Further.

Section FurtherOuter.
Context {F : Type} {AF : Arith F}.
Variable lstsq : list (list F) -> list F -> list F.
Variable scanner_pos : nat -> F * F * F.
Variable loop_rest : nat.
Variable env : Env (F:=F).

Lemma outer_loop_invariant (P : State -> Prop) :
  (forall it st st', P st ->
     outer_body lstsq scanner_pos loop_rest env it st = Ok st' -> P st') ->
  forall it st st',
    P st -> outer_loop lstsq scanner_pos loop_rest env it st = Ok st' -> P st'.
Proof.
  intros Hstep it st.
  funelim (outer_loop lstsq scanner_pos loop_rest env it st); intros st0 HP Hrun.
  - inversion Hrun; subst; assumption.
  - eapply H; eauto.
  - discriminate.
  - discriminate.
Qed.

Lemma outer_loop_establishes (Q : State -> Prop) :
  (forall it st st', (1 <= it < env_max_iter env)%nat ->
     outer_body lstsq scanner_pos loop_rest env it st = Ok st' -> Q st') ->
  forall it st st',
    (1 <= it)%nat ->
    Q st \/ (it < env_max_iter env)%nat ->
    outer_loop lstsq scanner_pos loop_rest env it st = Ok st' -> Q st'.
Proof.
  intros Hstep it st.
  funelim (outer_loop lstsq scanner_pos loop_rest env it st); intros st0 Hit HQ Hrun.
  - inversion Hrun; subst. destruct HQ; [assumption | lia].
  - eapply H; [exact Hstep | lia | | exact Hrun]. left. eapply Hstep; [| eauto]. lia.
  - discriminate.
  - discriminate.
Qed.

Lemma outer_body_Ok it st st' :
  outer_body lstsq scanner_pos loop_rest env it st = Ok st' ->
  exists st1,
    inner_loop lstsq loop_rest env it 1 false (say st (InfoIteration it)) = Ok st1 /\
    st' = fit_bias lstsq scanner_pos env (say st1 (InfoScaleFactors (scale_factors st1))).
Proof.
  unfold outer_body. intros H. apply bind_Ok in H. destruct H as [st1 [H1 H]].
  exists st1. inversion H. auto.
Qed.

End FurtherOuter.

(** ** The working state *)
Section Consistent.
Context {F : Type} {AF : Arith F}.

Lemma reject_outliers_result (L : list F) (m : list bool) r :
  reject_outliers L m = Ok r ->
  (Z.of_nat (length (masked m L)) < 2 ^ 64)%Z ->
  mask_within (fst r) m /\
  (length (fst r) <= length m)%nat /\
  snd r = Z.of_nat (count_true (fst r)).
Proof.
  intros Hr Hn.
  apply reject_outliers_Ok in Hr. destruct Hr as [q1 [q3 [_ [_ Hr]]]].
  set (lower := lower_outlier_threshold q1 q3) in Hr.
  set (upper := upper_outlier_threshold q1 q3) in Hr.
  assert (Hfst : fst r = map2 (fun b s => b && negb (outside lower upper s)) m L)
    by (rewrite Hr; apply reject_fst).
  split; [| split].
  - intros v Hv. rewrite Hfst in Hv.
    pose proof (nth_true_in_range _ _ Hv) as Hr'. rewrite map2_length in Hr'.
    rewrite (@nth_map2 _ _ _ _ m L v false fzero false) in Hv by lia.
    apply andb_true_iff in Hv. tauto.
  - rewrite Hfst, map2_length. lia.
  - rewrite Hfst, Hr, reject_snd by lia.
    pose proof (count_true_kept lower upper m L). lia.
Qed.

Lemma sum_inputs_length (imgs : list (list (list F))) nvox :
  (length (sum_inputs imgs nvox) <= nvox)%nat.
Proof.
  unfold sum_inputs.
  assert (H : forall acc : list F,
             (length (fold_left (fun summed img =>
                        map2 (fun s x => ffloat (fadd s (value0 x))) summed img) imgs acc)
              <= length acc)%nat).
  { induction imgs as [| img imgs IH]; intros acc; simpl; [lia |].
    etransitivity; [apply IH |]. rewrite map2_length. lia. }
  etransitivity; [apply H |]. rewrite repeat_length. lia.
Qed.

Variable lstsq : list (list F) -> list F -> list F.
Variable loop_rest : nat.
Variable env : Env (F:=F).

Lemma inner_body_consistent it k st st' b :
  (Z.of_nat (n_voxels env) < 2 ^ 64)%Z ->
  (length (initial_mask env) <= n_voxels env)%nat ->
  consistent env st ->
  inner_body lstsq loop_rest env it k st = Ok (st', b) ->
  consistent env st'.
Proof.
  intros Hsize Hinit [Hw [Hn [Hl Hb]]] H.
  destruct (inner_body_Ok _ _ _ _ _ _ H) as [c [_ [_ [_ [Hbi [_ [_ [_ Hm]]]]]]]].
  unfold consistent. rewrite Hbi.
  destruct b.
  - destruct Hm as [Hm Hnv]. rewrite Hm, Hnv. auto.
  - destruct Hm as [r [Hr [Hm Hnv]]]. rewrite Hm, Hnv.
    set (L := summed_log_image loop_rest env c (bias_field_image st)) in *.
    set (refined := refine_mask L (initial_mask env)) in *.
    assert (Hrl : (length refined <= length (initial_mask env))%nat)
      by (unfold refined, refine_mask; rewrite map2_length; lia).
    destruct (@reject_outliers_result L refined r Hr) as [H1 [H2 H3]].
    { pose proof (masked_length_le refined L). lia. }
    repeat split; try assumption; try lia.
    intros v Hv. apply (@refine_mask_within F AF L). apply H1. exact Hv.
Qed.

Lemma inner_loop_consistent it k conv st st' :
  (Z.of_nat (n_voxels env) < 2 ^ 64)%Z ->
  (length (initial_mask env) <= n_voxels env)%nat ->
  consistent env st ->
  inner_loop lstsq loop_rest env it k conv st = Ok st' ->
  consistent env st'.
Proof.
  intros Hsize Hinit Hc Hrun.
  apply (@inner_loop_invariant F AF lstsq loop_rest env (consistent env) it) with k conv st;
    try assumption.
  intros k0 s s' b Hs Hb. eapply inner_body_consistent; eauto.
Qed.

End Consistent.

Section ConsistentOuter.
Context {F : Type} {AF : Arith F}.
Variable lstsq : list (list F) -> list F -> list F.
Variable scanner_pos : nat -> F * F * F.
Variable loop_rest : nat.
Variable env : Env (F:=F).

Lemma outer_body_consistent it st st' :
  (Z.of_nat (n_voxels env) < 2 ^ 64)%Z ->
  (length (initial_mask env) <= n_voxels env)%nat ->
  consistent env st ->
  outer_body lstsq scanner_pos loop_rest env it st = Ok st' ->
  consistent env st'.
Proof.
  intros Hsize Hinit Hc H.
  destruct (outer_body_Ok _ _ _ _ _ _ H) as [st1 [H1 ->]].
  assert (Hc1 : consistent env st1).
  { eapply inner_loop_consistent; [exact Hsize | exact Hinit | | exact H1]. exact Hc. }
  destruct Hc1 as [Hw [Hn [Hl Hb]]].
  unfold consistent, fit_bias. cbn [mask num_voxels bias_field_image say set_info].
  repeat split; try assumption.
  rewrite !length_map, length_seq. reflexivity.
Qed.

End ConsistentOuter.

Section ConsistentRun.
Context {F : Type} {AF : Arith F}.
Variable lstsq : list (list F) -> list F -> list F.
Variable scanner_pos : nat -> F * F * F.
Variable loop_rest : nat.

Lemma pack_tissues_length (imgs : list (list (list F))) nvox :
  length (pack_tissues imgs nvox) = nvox.
Proof. unfold pack_tissues. rewrite length_map, length_seq. reflexivity. Qed.

(** X2: after a set-up that returns, on a grid of fewer than 2^64
    voxels, the working state is consistent (the working mask lies inside
    the initial mask, [num_voxels] is the number of voxels in the mask,
    the mask and the bias field fit the grid), the initial mask lies
    inside the mask given by the user, every inner iteration that returns
    keeps the state consistent, and so does the whole outer loop; in a
    consistent state the design matrix has [num_voxels] rows and the
    working mask has at most as many voxels as the initial mask, which
    has at most as many as the user's. *)
Theorem working_state_stays_consistent (inp : Inputs) u up env st0 :
  setup inp u up = Ok (env, st0) ->
  (Z.of_nat (n_voxels env) < 2 ^ 64)%Z ->
  consistent env st0 /\
  mask_within (initial_mask env) (orig_mask inp) /\
  (forall it k st st' b,
     consistent env st ->
     inner_body lstsq loop_rest env it k st = Ok (st', b) ->
     consistent env st') /\
  (forall st,
     outer_loop lstsq scanner_pos loop_rest env 1 st0 = Ok st ->
     consistent env st) /\
  (forall st,
     consistent env st ->
     length (design_matrix env (mask st) (bias_field_image st))
       = Z.to_nat (num_voxels st) /\
     (count_true (mask st) <= count_true (initial_mask env)
      <= count_true (orig_mask inp))%nat).
Proof.
  intros Hsetup Hsize.
  pose proof (setup_Ok_full _ _ _ Hsetup) as Hs. cbv zeta in Hs.
  destruct Hs as [_ [_ [Hnv [Hcomb [Hinit [_ [_ [_ [_ [Hm [Hnum [_ [_ [Hb _]]]]]]]]]]]]]].
  assert (Hlen : (length (initial_mask env) <= n_voxels env)%nat).
  { rewrite Hinit. unfold refine_mask. rewrite map2_length.
    pose proof (sum_inputs_length (input_images inp)
                  (length (hd [] (input_images inp)))). lia. }
  assert (Horig : mask_within (initial_mask env) (orig_mask inp)).
  { rewrite Hinit. intros v. apply refine_mask_within. }
  assert (H0 : consistent env st0).
  { unfold consistent. rewrite Hm, Hnum, Hb, repeat_length.
    repeat split; try lia. intros v Hv; exact Hv. }
  split; [exact H0 |]. split; [exact Horig |]. split; [| split].
  - intros it k st st' b Hc Hrun.
    eapply inner_body_consistent; eauto.
  - intros st Hrun.
    apply (@outer_loop_invariant F AF lstsq scanner_pos loop_rest env (consistent env))
      with 1%nat st0; try assumption.
    intros it s s' Hc Hbody. eapply outer_body_consistent; eauto.
  - intros st [Hw [Hn [Hl Hbl]]]. split.
    + unfold design_matrix. rewrite masked_length_count.
      * rewrite Hn. lia.
      * rewrite map2_length, Hcomb, pack_tissues_length, Hbl. lia.
    + split; [apply count_true_within; exact Hw | apply count_true_within; exact Horig].
Qed.

End ConsistentRun.

(** ** Running out of the sorted values *)
Section OutOfBounds.
Context {F : Type} {AF : Arith F}.

Lemma reject_outliers_out_of_bounds_iff (L : list F) (m : list bool) :
  reject_outliers L m = OutOfBounds <-> (Z.of_nat (length (masked m L)) <= 2)%Z.
Proof.
  set (n := Z.of_nat (length (masked m L))).
  split.
  - intros H. destruct (Z.le_gt_cases n 2) as [Hle | Hgt]; [exact Hle |].
    destruct (@reject_outliers_in_bounds F AF L m ltac:(fold n; lia)) as [r Hr].
    rewrite Hr in H. discriminate.
  - intros Hn.
    assert (Hge : (n <= upper_quartile_index n)%Z)
      by (apply upper_quartile_index_ge; unfold n; lia).
    unfold reject_outliers. fold n.
    assert (Hup : @vector_at F F (sort_values (masked m L))
                    (upper_quartile_index n) = OutOfBounds).
    { apply vector_at_out_of_bounds. rewrite sort_values_length. exact Hge. }
    destruct (vector_at_cases (F:=F) (sort_values (masked m L))
                (lower_quartile_index n)) as [[a Ha] | Ha];
      rewrite Ha; simpl; [rewrite Hup |]; reflexivity.
Qed.

Variable lstsq : list (list F) -> list F -> list F.
Variable loop_rest : nat.
Variable env : Env (F:=F).

Lemma solve_scale_factors_in_bounds st :
  solve_scale_factors lstsq env st <> OutOfBounds.
Proof.
  unfold solve_scale_factors.
  match goal with |- context [log_sum_loop ?c ?js ?a] =>
    destruct (log_sum_loop_cases c js a) as [[H _] | [pre [j [post [_ [H _]]]]]];
    rewrite H; simpl; discriminate end.
Qed.

Lemma inner_body_goes_out_of_bounds it k st c :
  solve_scale_factors lstsq env st = Ok c ->
  (if (1 <? it)%nat
   then fltb (relative_change (previous_scale_factors st) c) lit_0_001
   else false) = false ->
  (length (masked
             (refine_mask (summed_log_image loop_rest env c (bias_field_image st))
                (initial_mask env))
             (summed_log_image loop_rest env c (bias_field_image st))) <= 2)%nat ->
  inner_body lstsq loop_rest env it k st = OutOfBounds.
Proof.
  intros Hc Hf Hn.
  unfold inner_body. rewrite solve_scale_factors_say, Hc. cbn [bind].
  change (previous_scale_factors (say st (InfoNormIteration k)))
    with (previous_scale_factors st).
  rewrite Hf.
  assert (Hb : forall i : Info,
             bias_field_image
               (if (1 <? it)%nat then say (say st (InfoNormIteration k)) i
                else say st (InfoNormIteration k))
             = bias_field_image st) by (intros; destruct (1 <? it)%nat; reflexivity).
  rewrite Hb.
  set (L := summed_log_image loop_rest env c (bias_field_image st)) in *.
  assert (E : reject_outliers L (refine_mask L (initial_mask env)) = OutOfBounds)
    by (apply reject_outliers_out_of_bounds_iff; lia).
  rewrite E. reflexivity.
Qed.


End OutOfBounds.

Section TooFew.
Context {F : Type} {AF : Arith F}.
Variable lstsq : list (list F) -> list F -> list F.
Variable loop_rest : nat.
Variable env : Env (F:=F).

Lemma first_pass_needs_three_voxels k st :
  (count_true (initial_mask env) <= 2)%nat ->
  inner_body lstsq loop_rest env 1 k st = OutOfBounds \/
  exists j x, inner_body lstsq loop_rest env 1 k st = Throw (NonPositiveScaleFactor j x).
Proof.
  intros Hfew.
  destruct (solve_scale_factors lstsq env st) as [c | e |] eqn:Hs.
  - left. apply inner_body_goes_out_of_bounds with c; [exact Hs | reflexivity |].
    etransitivity; [apply masked_length_count_le |].
    etransitivity; [| exact Hfew].
    apply count_true_map2_le. intros a b H. apply andb_true_iff in H. tauto.
  - right.
    assert (He : exists j x, e = NonPositiveScaleFactor j x).
    { unfold solve_scale_factors in Hs.
      match type of Hs with context [log_sum_loop ?c ?js ?a] =>
        destruct (log_sum_loop_cases c js a) as [[H _] | [pre [j [post [_ [H _]]]]]];
        rewrite H in Hs; cbn [bind] in Hs; [discriminate |] end.
      inversion Hs. eauto. }
    destruct He as [j [x ->]]. exists j, x.
    apply inner_body_throw. exact Hs.
  - exfalso. exact (solve_scale_factors_in_bounds _ _ _ Hs).
Qed.

End TooFew.

Section TooFewRun.
Context {F : Type} {AF : Arith F}.
Variable lstsq : list (list F) -> list F -> list F.
Variable scanner_pos : nat -> F * F * F.
Variable loop_rest : nat.

(** X4: when the initial mask holds fewer than three voxels and the
    outer loop is entered (max_iter >= 2), the run never writes an
    output: the first inner iteration either reports a non-positive
    scale factor or reads past the end of the sorted values. *)
Theorem fewer_than_three_voxels_never_succeed (inp : Inputs) u up env st0 :
  setup inp u up = Ok (env, st0) ->
  (count_true (initial_mask env) <= 2)%nat ->
  (2 <= max_iter inp)%nat ->
  run lstsq scanner_pos loop_rest inp u up = OutOfBounds \/
  exists j x,
    run lstsq scanner_pos loop_rest inp u up = Throw (NonPositiveScaleFactor j x).
Proof.
  intros Hsetup Hfew Hmax.
  destruct (setup_Ok _ _ _ Hsetup) as [Hm _].
  unfold run. rewrite Hsetup. cbn [bind fst snd].
  rewrite outer_loop_step by lia.
  unfold outer_body. rewrite inner_loop_step by lia.
  destruct (first_pass_needs_three_voxels lstsq loop_rest env 1
              (say st0 (InfoIteration 1)) Hfew) as [H | [j [x H]]];
    rewrite H; cbn [bind]; [left; reflexivity | right; eauto].
Qed.

End TooFewRun.

(** ** The scalar volume of an inner iteration *)
Section SummedLogValues.
Context {F : Type} {AF : Arith F}.
Variable loop_rest : nat.
Variable env : Env (F:=F).
Local Open Scope arith_scope.

Lemma summed_log_at_cursor (c bias : list F) js (acc : list F) :
  (loop_rest < length acc)%nat -> (loop_rest < length (combined_tissue env))%nat ->
  (loop_rest < length bias)%nat ->
  nth loop_rest
    (fold_left
       (fun summed_log j =>
          update loop_rest (fun s => ffloat (flog s))
            (map3 (fun s tv b => ffloat (s + nth j c fzero * nth j tv fzero / b))
               summed_log (combined_tissue env) bias)) js acc) fzero
  = fold_left
      (fun s j => ffloat (flog (ffloat
                    (s + nth j c fzero
                         * nth j (nth loop_rest (combined_tissue env) []) fzero
                         / nth loop_rest bias fzero))))
      js (nth loop_rest acc fzero).
Proof.
  intros Ha Hc Hb. revert acc Ha.
  induction js as [| j js IH]; intros acc Ha; [reflexivity |].
  cbn [fold_left].
  rewrite IH by (rewrite update_length, map3_length; lia).
  rewrite nth_update_same by (rewrite map3_length; lia).
  rewrite (@nth_map3 _ _ _ _ _ acc (combined_tissue env) bias loop_rest fzero [] fzero fzero)
    by assumption.
  reflexivity.
Qed.

(** X5: the volume handed to mask refinement and outlier rejection
    holds, at every voxel but the one the cursor rests on, the plain sum
    over the tissues of c_j * tissue_j / bias, with no logarithm taken;
    at the voxel the cursor rests on, the logarithm is taken after every
    tissue's contribution is added, once per tissue.  The volume being
    an [Image<float>], every partial sum and every logarithm is stored
    as a float. *)
Theorem summed_log_voxel_values (c bias : list F) v :
  (v < n_voxels env)%nat -> (v < length (combined_tissue env))%nat ->
  (v < length bias)%nat ->
  let tv := nth v (combined_tissue env) [] in
  let b := nth v bias fzero in
  let js := seq 0 (n_tissue_types env) in
  nth v (summed_log_image loop_rest env c bias) fzero
  = if (v =? loop_rest)%nat
    then fold_left
           (fun s j => ffloat (flog (ffloat (s + nth j c fzero * nth j tv fzero / b))))
           js fzero
    else fold_left
           (fun s j => ffloat (s + nth j c fzero * nth j tv fzero / b)) js fzero.
Proof.
  intros Hn Hc Hb tv b js. unfold summed_log_image.
  destruct (v =? loop_rest)%nat eqn:E.
  - apply Nat.eqb_eq in E. subst v.
    rewrite summed_log_at_cursor; try assumption.
    + rewrite nth_repeat. reflexivity.
    + rewrite repeat_length. exact Hn.
  - apply Nat.eqb_neq in E.
    rewrite summed_log_passes; try assumption.
    + rewrite nth_repeat. reflexivity.
    + rewrite repeat_length. exact Hn.
Qed.

End SummedLogValues.

(** ** Exceptions *)
Section Throws.
Context {F : Type} {AF : Arith F}.
Variable lstsq : list (list F) -> list F -> list F.
Variable loop_rest : nat.
Variable env : Env (F:=F).

Lemma inner_loop_throw it k conv st e :
  inner_loop lstsq loop_rest env it k conv st = Throw e ->
  exists st', solve_scale_factors lstsq env st' = Throw e.
Proof.
  funelim (inner_loop lstsq loop_rest env it k conv st); intros Hrun;
    try discriminate.
  - eapply H; eauto.
  - inversion Hrun; subst. exists st.
    eapply inner_body_throw. exact Heq.
Qed.

End Throws.

Section ThrowsOuter.
Context {F : Type} {AF : Arith F}.
Variable lstsq : list (list F) -> list F -> list F.
Variable scanner_pos : nat -> F * F * F.
Variable loop_rest : nat.
Variable env : Env (F:=F).

Lemma outer_loop_throw it st e :
  outer_loop lstsq scanner_pos loop_rest env it st = Throw e ->
  (it < env_max_iter env)%nat /\
  exists st', solve_scale_factors lstsq env st' = Throw e.
Proof.
  funelim (outer_loop lstsq scanner_pos loop_rest env it st); intros Hrun;
    try discriminate.
  - split; [assumption |]. eapply H; eauto.
  - inversion Hrun; subst. split; [assumption |].
    unfold outer_body in Heq.
    destruct (inner_loop lstsq loop_rest env iter_ 1 false (say st (InfoIteration iter_)))
      as [s | e' |] eqn:E; cbn [bind] in Heq; try discriminate.
    inversion Heq; subst.
    destruct (inner_loop_throw _ _ _ _ _ _ _ E) as [st' H']. eauto.
Qed.

End ThrowsOuter.

(** ** The shape of the outputs *)
Section Shape.
Context {F : Type} {AF : Arith F}.
Variable lstsq : list (list F) -> list F -> list F.
Variable scanner_pos : nat -> F * F * F.
Variable loop_rest : nat.

Lemma bias_length_after_loop (env : Env) it st0 st :
  length (bias_field_image st0) = n_voxels env ->
  outer_loop lstsq scanner_pos loop_rest env it st0 = Ok st ->
  length (bias_field_image st) = n_voxels env.
Proof.
  intros L0 Hrun.
  apply (@outer_loop_invariant F AF lstsq scanner_pos loop_rest env
           (fun s => length (bias_field_image s) = n_voxels env))
    with it st0; [| exact L0 | exact Hrun].
  intros it' s s' _ Hbody.
  destruct (outer_body_Ok _ _ _ _ _ _ Hbody) as [s1 [_ ->]].
  unfold fit_bias. cbn [bias_field_image].
  rewrite !length_map, length_seq. reflexivity.
Qed.

Lemma write_output_shape (cj : F) (img : list (list F)) (bias : list F) :
  length (write_output cj img bias) = Nat.min (length img) (length bias) /\
  forall v, (v < length img)%nat -> (v < length bias)%nat ->
            length (nth v (write_output cj img bias) []) = length (nth v img []).
Proof.
  unfold write_output. split; [apply map2_length |].
  intros v Hv Hb.
  rewrite (@nth_map2 _ _ _ _ img bias v [] fzero []) by assumption.
  apply length_map.
Qed.

(** X7: a run that returns writes one output image and one header
    entry per input image and a bias field over the grid of the first
    input; output j covers the voxels input j shares with that grid and
    has, at each of them, as many samples as the input. *)
Theorem outputs_have_the_shape_of_the_inputs (inp : Inputs) u up out :
  run lstsq scanner_pos loop_rest inp u up = Ok out ->
  let imgs := input_images inp in
  let nvox := length (hd [] imgs) in
  length (output_images out) = length imgs /\
  length (normalisation_scale_factor out) = length imgs /\
  length (bias_output out) = nvox /\
  forall j, (j < length imgs)%nat ->
    length (nth j (output_images out) []) = Nat.min (length (nth j imgs [])) nvox /\
    forall v, (v < length (nth j imgs []))%nat -> (v < nvox)%nat ->
      length (nth v (nth j (output_images out) []) [])
      = length (nth v (nth j imgs []) []).
Proof.
  intros Hrun imgs nvox.
  unfold run in Hrun.
  apply bind_Ok in Hrun. destruct Hrun as [[env st0] [Hs Hrun]].
  apply bind_Ok in Hrun. destruct Hrun as [st [Hl Hout]]. cbn [fst snd] in Hl.
  inversion Hout; subst out; clear Hout.
  pose proof (setup_Ok_full _ _ _ Hs) as Hf. cbv zeta in Hf.
  fold imgs in Hf. fold nvox in Hf.
  destruct Hf as [_ [_ [Hnv [_ [_ [_ [_ [_ [_ [_ [_ [_ [_ [Hb _]]]]]]]]]]]]]].
  assert (Hbl : length (bias_field_image st) = nvox).
  { rewrite <- Hnv. apply (@bias_length_after_loop env 1%nat st0 st); [| exact Hl].
    rewrite Hb, repeat_length. symmetry. exact Hnv. }
  unfold compose_outputs.
  cbn [output_images normalisation_scale_factor bias_output]. fold imgs.
  rewrite !length_map, length_seq.
  split; [reflexivity |]. split; [reflexivity |]. split; [exact Hbl |].
  intros j Hj.
  rewrite (@nth_map_lt _ _ _ (seq 0 (length imgs)) j [] 0%nat)
    by (rewrite length_seq; exact Hj).
  rewrite seq_nth by exact Hj. cbn [Nat.add].
  match goal with |- context [write_output ?c ?i ?b] =>
    destruct (write_output_shape c i b) as [H1 H2] end.
  rewrite H1, Hbl. split; [reflexivity |].
  intros v Hv Hvn. apply H2; [exact Hv | rewrite Hbl; exact Hvn].
Qed.

End Shape.

(** ** What set-up reads *)
Section SetupValues.
Context {F : Type} {AF : Arith F}.
Local Open Scope arith_scope.

Lemma nth_sum_fold (imgs : list (list (list F))) (acc : list F) v :
  Forall (fun img => length img = length acc) imgs ->
  (v < length acc)%nat ->
  nth v (fold_left (fun summed img => map2 (fun s x => ffloat (s + value0 x)) summed img)
           imgs acc) fzero
  = fold_left (fun s img => ffloat (s + value0 (nth v img []))) imgs (nth v acc fzero).
Proof.
  revert acc; induction imgs as [| img imgs IH]; intros acc Hall Hv; [reflexivity |].
  inversion Hall as [| ? ? Hlen Hrest]; subst.
  cbn [fold_left].
  assert (Hl : length (map2 (fun s x => ffloat (s + value0 x)) acc img) = length acc)
    by (rewrite map2_length; lia).
  rewrite IH.
  - rewrite (@nth_map2 _ _ _ _ acc img v fzero [] fzero) by lia. reflexivity.
  - rewrite Hl. exact Hrest.
  - rewrite Hl. exact Hv.
Qed.

Lemma nth_sum_inputs (imgs : list (list (list F))) nvox v :
  Forall (fun img => length img = nvox) imgs ->
  (v < nvox)%nat ->
  nth v (sum_inputs imgs nvox) fzero
  = fold_left (fun s img => ffloat (s + value0 (nth v img []))) imgs fzero.
Proof.
  intros Hall Hv. unfold sum_inputs.
  rewrite nth_sum_fold.
  - rewrite nth_repeat. reflexivity.
  - rewrite repeat_length. exact Hall.
  - rewrite repeat_length. exact Hv.
Qed.

Lemma sum_inputs_grid_length (imgs : list (list (list F))) nvox :
  Forall (fun img => length img = nvox) imgs ->
  length (sum_inputs imgs nvox) = nvox.
Proof.
  intros Hall. unfold sum_inputs.
  assert (H : forall acc : list F,
             length acc = nvox ->
             length (fold_left (fun summed img =>
                        map2 (fun s x => ffloat (s + value0 x)) summed img) imgs acc) = nvox).
  { induction Hall as [| img imgs Hlen _ IH]; intros acc Ha; [exact Ha |].
    cbn [fold_left]. apply IH. rewrite map2_length. lia. }
  apply H. apply repeat_length.
Qed.

Lemma nth_pack_tissues (imgs : list (list (list F))) nvox v j :
  (v < nvox)%nat -> (j < length imgs)%nat ->
  nth j (nth v (pack_tissues imgs nvox) []) fzero
  = fmax (value0 (nth v (nth j imgs []) [])) fzero.
Proof.
  intros Hv Hj. unfold pack_tissues.
  rewrite (@nth_map_lt _ _ _ (seq 0 nvox) v [] 0%nat) by (rewrite length_seq; exact Hv).
  rewrite seq_nth by exact Hv.
  rewrite (@nth_map_lt _ _ _ imgs j fzero []) by exact Hj.
  reflexivity.
Qed.

Lemma nth_refine_mask (summed : list F) (m : list bool) v :
  nth v (refine_mask summed m) false = true <->
  (v < length summed)%nat /\ nth v m false = true /\
  fisfinite (nth v summed fzero) = true /\ (fzero <? nth v summed fzero) = true.
Proof.
  split.
  - intros H. pose proof (nth_true_in_range _ _ H) as Hv.
    unfold refine_mask in *. rewrite map2_length in Hv.
    rewrite (@nth_map2 _ _ _ _ summed m v fzero false false) in H by lia.
    apply andb_true_iff in H. destruct H as [H1 H2].
    apply andb_true_iff in H1. destruct H1 as [H0 H1].
    repeat split; [lia | assumption | assumption | assumption].
  - intros [Hv [Hm [Hf Hs]]].
    pose proof (nth_true_in_range _ _ Hm) as Hvm.
    unfold refine_mask. rewrite (@nth_map2 _ _ _ _ summed m v fzero false false) by lia.
    rewrite Hf, Hs, Hm. reflexivity.
Qed.

(** X14: for inputs on one grid, a set-up that returns has put a voxel in
    the initial mask exactly when the user's mask has it and the sum of
    the first-volume values over the tissues, accumulated in a float in
    the order of the tissues with negative values included, is finite and
    strictly positive; the packed tissue values are the first-volume
    values with those below 0 replaced by 0; the working mask starts as
    the initial mask with at least one voxel; the normalisation value is
    not <= 0 and its logarithm is kept as a float. *)
Theorem setup_reads_the_first_volume (inp : Inputs) u up env st0 :
  let imgs := input_images inp in
  let nvox := length (hd [] imgs) in
  let raw_sum v :=
    fold_left (fun s img => ffloat (s + hd fzero (nth v img []))) imgs fzero in
  setup inp u up = Ok (env, st0) ->
  Forall (fun img => length img = nvox) imgs ->
  (forall v, nth v (initial_mask env) false = true <->
             nth v (orig_mask inp) false = true /\ (v < nvox)%nat /\
             fisfinite (raw_sum v) = true /\ (fzero <? raw_sum v) = true) /\
  (forall v j, (v < nvox)%nat -> (j < length imgs)%nat ->
     let x := hd fzero (nth v (nth j imgs []) []) in
     nth j (nth v (combined_tissue env) []) fzero = (if x <? fzero then fzero else x)) /\
  mask st0 = initial_mask env /\
  (1 <= num_voxels st0)%Z /\
  (normalisation_value inp <=? fzero) = false /\
  log_norm_value env = ffloat (flog (normalisation_value inp)).
Proof.
  intros imgs nvox raw_sum Hsetup Hgrid.
  pose proof (setup_Ok_full _ _ _ Hsetup) as Hs. cbv zeta in Hs.
  fold imgs in Hs. fold nvox in Hs.
  destruct Hs as [_ [_ [_ [Hc [Hi [Hlog [_ [Hn [Hcount [Hm [Hnv _]]]]]]]]]]].
  assert (Hsum : forall v, (v < nvox)%nat ->
                           nth v (sum_inputs imgs nvox) fzero = raw_sum v)
    by (intros v Hv; exact (nth_sum_inputs Hgrid Hv)).
  split; [| split; [| split; [| split; [| split]]]].
  - intros v. rewrite Hi, nth_refine_mask, (sum_inputs_grid_length Hgrid).
    split.
    + intros [Hv [Ho Hp]]. rewrite (Hsum v Hv) in Hp. tauto.
    + intros [Ho [Hv Hp]]. rewrite (Hsum v Hv). tauto.
  - intros v j Hv Hj x. rewrite Hc, (nth_pack_tissues _ Hv Hj). reflexivity.
  - exact Hm.
  - rewrite Hnv. lia.
  - exact Hn.
  - exact Hlog.
Qed.

End SetupValues.

(** ** The ways a run fails *)

Section Failures.
Context {F : Type} {AF : Arith F}.
Local Open Scope arith_scope.
Variable lstsq : list (list F) -> list F -> list F.

Lemma solve_scale_factors_throw (env : Env) (st : State) e :
  solve_scale_factors lstsq env st = Throw e ->
  let solved :=
    lstsq (design_matrix env (mask st) (bias_field_image st))
          (repeat fone (Z.to_nat (num_voxels st))) in
  exists j, (j < n_tissue_types env)%nat /\
            e = NonPositiveScaleFactor j (nth j solved fzero) /\
            (nth j solved fzero <=? fzero) = true /\
            forall i, (i < j)%nat -> (nth i solved fzero <=? fzero) = false.
Proof.
  intros H solved. unfold solve_scale_factors in H. fold solved in H.
  set (n := n_tissue_types env) in *.
  destruct (log_sum_loop_cases solved (seq 0 n) fzero)
    as [[Hok _] | [pre [j [post [Hjs [Hth [Hle Hpre]]]]]]].
  - rewrite Hok in H. discriminate.
  - rewrite Hth in H. cbn [bind] in H. inversion H; subst e; clear H.
    assert (Hlenpre : j = length pre).
    { pose proof (f_equal (fun l => nth (length pre) l 0%nat) Hjs) as Hn.
      simpl in Hn. rewrite app_nth2, Nat.sub_diag in Hn by lia. simpl in Hn.
      rewrite seq_nth in Hn; [lia |].
      pose proof (f_equal (@length nat) Hjs) as Hl.
      rewrite length_seq, length_app in Hl. simpl in Hl. lia. }
    assert (Hjn : (j < n)%nat).
    { assert (Hin : In j (seq 0 n)) by (rewrite Hjs; apply in_elt).
      apply in_seq in Hin. lia. }
    exists j. split; [exact Hjn |]. split; [reflexivity |]. split; [exact Hle |].
    intros i Hi. apply Hpre.
    pose proof (f_equal (fun l => nth i l 0%nat) Hjs) as Hn.
    simpl in Hn. rewrite app_nth1, seq_nth in Hn by lia. simpl in Hn.
    rewrite Hn. apply nth_In. lia.
Qed.

Variable scanner_pos : nat -> F * F * F.
Variable loop_rest : nat.


End Failures.

(** ** Over the reals *)

Local Open Scope R_scope.

Lemma map_exp_repeat_zero n : map exp (repeat 0 n) = repeat 1 n.
Proof. induction n as [| n IH]; simpl; [reflexivity |]. rewrite exp_0, IH. reflexivity. Qed.

Lemma Forall_map_exp_pos (l : list R) : Forall (fun x => 0 < x) (map exp l).
Proof. induction l; simpl; constructor; [apply exp_pos | assumption]. Qed.

Section RealInner.
Variable lstsq : list (list R) -> list R -> list R.
Variable loop_rest : nat.
Variable env : Env (F:=R).

Lemma solve_scale_factors_positive st c :
  solve_scale_factors lstsq env st = Ok c ->
  (forall j, (j < n_tissue_types env)%nat -> 0 < nth j c 0) /\
  (n_tissue_types env <= length c)%nat /\
  ((forall m bias y,
      (length (lstsq (design_matrix env m bias) y) <= n_tissue_types env)%nat) ->
   (0 < n_tissue_types env)%nat ->
   length c = n_tissue_types env /\ geometric_mean c = 1).
Proof.
  intros Hc.
  destruct (solve_scale_factors_cases lstsq env st) as [[Hall H] | [j [_ [_ [_ H]]]]];
    [| rewrite H in Hc; discriminate].
  rewrite H in Hc. inversion Hc as [Hc']. clear Hc H.
  set (solved := lstsq _ _) in *.
  assert (Hge : (n_tissue_types env <= length solved)%nat).
  { destruct (Nat.le_gt_cases (n_tissue_types env) (length solved)) as [Hle | Hgt];
      [exact Hle |].
    specialize (Hall (length solved) Hgt). rewrite nth_overflow in Hall by lia. lra. }
  split; [| split].
  - intros j Hj. unfold renormalise.
    rewrite (@nth_map_lt _ _ _ solved j 0 0) by lia.
    cbn [fdiv fexp RArith]. apply Rdiv_lt_0_compat; [apply Hall; exact Hj | apply exp_pos].
  - unfold renormalise. rewrite length_map. exact Hge.
  - intros Hlen Hn.
    assert (Heq : length solved = n_tissue_types env)
      by (pose proof (Hlen (mask st) (bias_field_image st)
                        (repeat 1 (Z.to_nat (num_voxels st)))); fold solved in H; lia).
    split; [unfold renormalise; rewrite length_map; exact Heq |].
    rewrite <- Heq at 1. rewrite log_sum_fold.
    apply renormalise_geometric_mean; [exact Hn | exact Heq |].
    apply Forall_forall. intros x Hx.
    destruct (In_nth _ _ 0 Hx) as [j [Hj <-]]. apply Hall. lia.
Qed.

End RealInner.

(** ** Masked lists and sums *)

Lemma masked_map {A B} (f : A -> B) (m : list bool) (l : list A) :
  masked m (map f l) = map f (masked m l).
Proof.
  revert l; induction m as [| b m IH]; intros [| a l]; simpl; try reflexivity.
  destruct b; simpl; rewrite IH; reflexivity.
Qed.

Lemma masked_map2 {A B C} (g : A -> B -> C) (m : list bool) l1 l2 :
  masked m (map2 g l1 l2) = map2 g (masked m l1) (masked m l2).
Proof.
  revert l1 l2; induction m as [| b m IH]; intros [| a l1] [| c l2]; simpl;
    try reflexivity.
  - destruct b; [reflexivity | destruct (masked m l1); reflexivity].
  - destruct b; simpl; rewrite IH; reflexivity.
Qed.

Lemma map2_map {A B C A' B'} (g : A -> B -> C) (f1 : A' -> A) (f2 : B' -> B) l1 l2 :
  map2 g (map f1 l1) (map f2 l2) = map2 (fun a b => g (f1 a) (f2 b)) l1 l2.
Proof.
  revert l2; induction l1 as [| a l1 IH]; intros [| b l2]; simpl; try reflexivity.
  rewrite IH. reflexivity.
Qed.

Lemma map2_map_l {A B C A'} (g : A -> B -> C) (f : A' -> A) l1 l2 :
  map2 g (map f l1) l2 = map2 (fun a b => g (f a) b) l1 l2.
Proof.
  revert l2; induction l1 as [| a l1 IH]; intros [| b l2]; simpl; try reflexivity.
  rewrite IH. reflexivity.
Qed.

Lemma map2_map_r {A B C B'} (g : A -> B -> C) (f : B' -> B) l1 l2 :
  map2 g l1 (map f l2) = map2 (fun a b => g a (f b)) l1 l2.
Proof.
  revert l2; induction l1 as [| a l1 IH]; intros [| b l2]; simpl; try reflexivity.
  rewrite IH. reflexivity.
Qed.

Lemma map_map2 {A B C D} (f : C -> D) (g : A -> B -> C) l1 l2 :
  map f (map2 g l1 l2) = map2 (fun a b => f (g a b)) l1 l2.
Proof.
  revert l2; induction l1 as [| a l1 IH]; intros [| b l2]; simpl; try reflexivity.
  rewrite IH. reflexivity.
Qed.

Lemma map2_swap_ext {A B C} (g : A -> B -> C) (h : B -> A -> C) l1 l2 :
  (forall a b, g a b = h b a) -> map2 g l1 l2 = map2 h l2 l1.
Proof.
  intros H. revert l2; induction l1 as [| a l1 IH]; intros [| b l2]; simpl;
    try reflexivity.
  rewrite H, IH. reflexivity.
Qed.

Lemma sum_map_opp (l : list R) :
  fold_right Rplus 0 (map Ropp l) = - fold_right Rplus 0 l.
Proof. induction l as [| x l IH]; simpl; [lra | rewrite IH; lra]. Qed.

Lemma inner_ones_masked {A B} (g : A -> B -> R) (m : list bool) l1 l2 :
  inner (masked m (map (fun _ => 1) l1)) (masked m (map2 g l1 l2))
  = fold_right Rplus 0 (masked m (map2 g l1 l2)).
Proof.
  unfold inner.
  revert l1 l2; induction m as [| b m IH]; intros [| a l1] [| c l2]; simpl;
    try reflexivity.
  - destruct b; [| destruct (masked m (map (fun _ => 1) l1))]; reflexivity.
  - destruct b; simpl; rewrite IH; [lra | reflexivity].
Qed.

Section RealRun.
Variable lstsq : list (list R) -> list R -> list R.
Variable scanner_pos : nat -> R * R * R.
Variable loop_rest : nat.

(** A property of the scale factors that every returning inner iteration
    establishes holds after every run that enters the outer loop. *)
Lemma run_establishes (Q : list R -> list R -> Prop) (env : Env) st0 st :
  (forall s c, solve_scale_factors lstsq env s = Ok c -> Q c c) ->
  (2 <= env_max_iter env)%nat ->
  outer_loop lstsq scanner_pos loop_rest env 1 st0 = Ok st ->
  Q (scale_factors st) (previous_scale_factors st).
Proof.
  intros HQ Hmax Hrun.
  apply (@outer_loop_establishes R RArith lstsq scanner_pos loop_rest env
           (fun s => Q (scale_factors s) (previous_scale_factors s)))
    with 1%nat st0; [| lia | right; lia | exact Hrun].
  intros it s s' Hit Hbody.
  destruct (outer_body_Ok _ _ _ _ _ _ Hbody) as [s1 [H1 ->]].
  cbn [fit_bias scale_factors previous_scale_factors say set_info].
  apply (@inner_loop_establishes R RArith lstsq loop_rest env
           (fun s => Q (scale_factors s) (previous_scale_factors s)) it)
    with 1%nat false (say s (InfoIteration it)); [| right; split; [reflexivity | lia] | exact H1].
  intros k t t' b Hb.
  destruct (inner_body_Ok _ _ _ _ _ _ Hb) as [c [Hc [Hs [Hp _]]]].
  rewrite Hs, Hp. eapply HQ; eauto.
Qed.

Lemma factors_positive_after_loop (env : Env) st0 st :
  (2 <= env_max_iter env)%nat ->
  outer_loop lstsq scanner_pos loop_rest env 1 st0 = Ok st ->
  (forall j, (j < n_tissue_types env)%nat -> 0 < nth j (scale_factors st) 0) /\
  previous_scale_factors st = scale_factors st /\
  (n_tissue_types env <= length (scale_factors st))%nat.
Proof.
  intros Hmax Hrun.
  apply (@run_establishes
           (fun c p => (forall j, (j < n_tissue_types env)%nat -> 0 < nth j c 0) /\
                       p = c /\ (n_tissue_types env <= length c)%nat)
           env st0 st); [| lia | exact Hrun].
  intros s c Hc.
  destruct (solve_scale_factors_positive _ _ _ Hc) as [H1 [H2 _]]. auto.
Qed.

(** X8: after a run whose outer loop is entered (max_iter >= 2) and
    returns, every scale factor is strictly positive and
    [previous_scale_factors] holds the same values as [scale_factors]. *)
Theorem scale_factors_after_a_run (inp : Inputs) u up env st0 st :
  setup inp u up = Ok (env, st0) ->
  outer_loop lstsq scanner_pos loop_rest env 1 st0 = Ok st ->
  (2 <= max_iter inp)%nat ->
  (forall j, (j < length (input_images inp))%nat -> 0 < nth j (scale_factors st) 0) /\
  previous_scale_factors st = scale_factors st /\
  (length (input_images inp) <= length (scale_factors st))%nat.
Proof.
  intros Hsetup Hrun Hmax.
  destruct (setup_Ok _ _ _ Hsetup) as [Hm [_ [_ [_ [Hn _]]]]].
  rewrite <- Hn. apply (@factors_positive_after_loop env st0 st); [lia | exact Hrun].
Qed.

Lemma bias_field_after_loop (env : Env) it st0 st :
  bias_field_image st0 = map exp (bias_field_log st0) ->
  length (bias_field_log st0) = n_voxels env ->
  outer_loop lstsq scanner_pos loop_rest env it st0 = Ok st ->
  bias_field_image st = map exp (bias_field_log st) /\
  length (bias_field_log st) = n_voxels env.
Proof.
  intros H0 L0 Hrun.
  apply (@outer_loop_invariant R RArith lstsq scanner_pos loop_rest env
           (fun s => bias_field_image s = map exp (bias_field_log s) /\
                     length (bias_field_log s) = n_voxels env))
    with it st0; [| auto | exact Hrun].
  intros it' s s' _ Hbody.
  destruct (outer_body_Ok _ _ _ _ _ _ Hbody) as [s1 [_ ->]].
  unfold fit_bias. cbn [bias_field_image bias_field_log].
  split; [reflexivity |]. rewrite length_map, length_seq. reflexivity.
Qed.

Lemma setup_bias (inp : Inputs) u up env st0 :
  setup inp u up = Ok (env, st0) ->
  bias_field_image st0 = map exp (bias_field_log st0) /\
  length (bias_field_log st0) = n_voxels env.
Proof.
  intros Hsetup.
  pose proof (setup_Ok_full _ _ _ Hsetup) as Hs. cbv zeta in Hs.
  destruct Hs as [_ [_ [Hnv [_ [_ [_ [_ [_ [_ [_ [_ [_ [_ [Hb [Hl _]]]]]]]]]]]]]]].
  rewrite Hb, Hl, Hnv, map_exp_repeat_zero, repeat_length. auto.
Qed.


Lemma Rmax_zero_pos c s b : 0 < c -> 0 < b -> (0 < Rmax 0 (c * s / b) <-> 0 < s).
Proof.
  intros Hc Hb.
  assert (Hq : 0 < c / b) by (apply Rdiv_lt_0_compat; assumption).
  replace (c * s / b) with (c / b * s) by (field; lra).
  unfold Rmax. destruct (Rle_dec 0 (c / b * s)); split; intros H; try nra.
Qed.

(** X10: after a run whose outer loop is entered (max_iter >= 2) and
    returns, with a solver that returns no more factors than there are
    tissues, the geometric mean of the scale factors is 1; so without
    -independent the common factor is 1 for every tissue, every header
    entry carries 1 and every output sample is
    max (0, input / bias field). *)
Theorem joint_scale_factor_is_one (inp : Inputs) u up env st0 st :
  setup inp u up = Ok (env, st0) ->
  outer_loop lstsq scanner_pos loop_rest env 1 st0 = Ok st ->
  (2 <= max_iter inp)%nat ->
  (forall m bias y,
     (length (lstsq (design_matrix env m bias) y) <= n_tissue_types env)%nat) ->
  geometric_mean (scale_factors st) = 1 /\
  final_scale_factors false (scale_factors st)
    = repeat 1 (length (input_images inp)) /\
  (independent inp = false ->
   normalisation_scale_factor (compose_outputs inp st)
     = repeat 1 (length (input_images inp)) /\
   forall j v k,
     (j < length (input_images inp))%nat ->
     (v < length (nth j (input_images inp) []))%nat ->
     (v < length (hd [] (input_images inp)))%nat ->
     (k < length (nth v (nth j (input_images inp) []) []))%nat ->
     nth k (nth v (nth j (output_images (compose_outputs inp st)) []) []) 0
     = Rmax 0 (nth k (nth v (nth j (input_images inp) []) []) 0
               / nth v (bias_field_image st) 0)).
Proof.
  intros Hsetup Hrun Hmax Hlen.
  pose proof (setup_Ok_full _ _ _ Hsetup) as Hf. cbv zeta in Hf.
  destruct Hf as [HN [Hn [Hnv [_ [_ [_ [Hm _]]]]]]].
  assert (H : length (scale_factors st) = n_tissue_types env /\
              geometric_mean (scale_factors st) = 1).
  { apply (@run_establishes
             (fun c _ => length c = n_tissue_types env /\ geometric_mean c = 1)
             env st0 st); [| lia | exact Hrun].
    intros s c Hc.
    destruct (solve_scale_factors_positive _ _ _ Hc) as [_ [_ H3]].
    apply H3; [exact Hlen | lia]. }
  destruct H as [Hl Hg].
  assert (Hfinal : final_scale_factors false (scale_factors st)
                   = repeat 1 (length (input_images inp))).
  { rewrite final_scale_factors_joint, Hg, <- Hn, <- Hl.
    clear. induction (scale_factors st) as [| x l IH]; simpl; [reflexivity |].
    rewrite IH. reflexivity. }
  split; [exact Hg |]. split; [exact Hfinal |].
  intros Hi. unfold compose_outputs.
  cbn [normalisation_scale_factor output_images].
  rewrite Hi, Hfinal.
  set (N := length (input_images inp)).
  split.
  - apply nth_ext with (d := 0) (d' := 0).
    + rewrite length_map, length_seq, repeat_length. reflexivity.
    + intros j Hj. rewrite length_map, length_seq in Hj.
      rewrite (@nth_map_lt _ _ _ (seq 0 N) j 0 0%nat) by (rewrite length_seq; exact Hj).
      rewrite seq_nth by exact Hj. reflexivity.
  - intros j v k Hj Hv Hv0 Hk.
    destruct (setup_bias _ _ _ Hsetup) as [H0 L0].
    destruct (bias_field_after_loop _ _ _ H0 L0 Hrun) as [Hbe Hbl].
    assert (Hvb : (v < length (bias_field_image st))%nat)
      by (rewrite Hbe, length_map; lia).
    rewrite (@nth_map_lt _ _ _ (seq 0 N) j [] 0%nat) by (rewrite length_seq; exact Hj).
    rewrite seq_nth by exact Hj. cbn [Nat.add].
    rewrite write_output_sample by assumption.
    rewrite nth_repeat_lt by exact Hj.
    f_equal. unfold Rdiv. lra.
Qed.


(** *** The residual of the bias fit *)

Lemma last_fit (env : Env) st0 st :
  (2 <= env_max_iter env)%nat ->
  outer_loop lstsq scanner_pos loop_rest env 1 st0 = Ok st ->
  bias_field_weights st =
    lstsq (masked (mask st)
             (map (fun v => basis_function (scanner_pos v)) (seq 0 (n_voxels env))))
          (masked (mask st)
             (map (fun tv => ln (tissue_sum env (scale_factors st) tv)
                             - log_norm_value env)
                  (combined_tissue env))) /\
  bias_field_log st =
    map (fun v => dot (basis_function (scanner_pos v)) (bias_field_weights st))
        (seq 0 (n_voxels env)) /\
  bias_field_image st = map exp (bias_field_log st).
Proof.
  intros Hmax Hrun.
  apply (@outer_loop_establishes R RArith lstsq scanner_pos loop_rest env
           (fun s =>
              bias_field_weights s =
                lstsq (masked (mask s)
                         (map (fun v => basis_function (scanner_pos v))
                            (seq 0 (n_voxels env))))
                      (masked (mask s)
                         (map (fun tv => ln (tissue_sum env (scale_factors s) tv)
                                         - log_norm_value env)
                              (combined_tissue env))) /\
              bias_field_log s =
                map (fun v => dot (basis_function (scanner_pos v)) (bias_field_weights s))
                    (seq 0 (n_voxels env)) /\
              bias_field_image s = map exp (bias_field_log s)))
    with 1%nat st0; [| lia | right; lia | exact Hrun].
  intros it s s' _ Hbody.
  destruct (outer_body_Ok _ _ _ _ _ _ Hbody) as [s1 [_ ->]].
  unfold fit_bias.
  cbn [bias_field_weights bias_field_log bias_field_image mask scale_factors say set_info].
  repeat split.
Qed.


End RealRun.

(** ** The interquartile range survives a rejection pass *)

Lemma sorted_nth_le (l : list R) (i j : nat) :
  Sorted Rle l -> (i <= j < length l)%nat -> nth i l 0 <= nth j l 0.
Proof.
  intros Hs. apply Sorted_StronglySorted in Hs; [| intros x y z; apply Rle_trans].
  revert i j. induction Hs as [| x l Hs IH Hall]; intros i j Hij; simpl in Hij; [lia |].
  destruct i as [| i], j as [| j]; simpl; try lra; try lia.
  - rewrite Forall_forall in Hall. apply Hall. apply nth_In. lia.
  - apply IH. lia.
Qed.

Lemma interquartile_span (n : Z) :
  (n < 2 * (round_three_quarters n - round_quarter n + 1))%Z.
Proof.
  unfold round_three_quarters, round_quarter.
  pose proof (Z.div_mod (3 * n + 2) 4 ltac:(lia)).
  pose proof (Z.div_mod (n + 2) 4 ltac:(lia)).
  pose proof (Z.mod_pos_bound (3 * n + 2) 4 ltac:(lia)).
  pose proof (Z.mod_pos_bound (n + 2) 4 ltac:(lia)).
  lia.
Qed.

(** X12: in a rejection pass over 3 <= n < 2^64 masked values Q1 <= Q3,
    so the fences enclose [Q1, Q3] and every masked voxel whose value
    lies between the quartiles stays in the mask; the count left is at
    least the number of sorted positions from Q1 to Q3, hence at least 1
    (a pass never empties the mask), and more than half of n as long as
    n <= 2^24. *)
Theorem rejection_keeps_the_interquartile_range (L : list R) (m : list bool) :
  let values := masked m L in
  let n := Z.of_nat (length values) in
  (3 <= n < 2 ^ 64)%Z ->
  exists Q1 Q3 m' nv',
    reject_outliers L m = Ok (m', nv') /\
    nth_error (sort_values values) (Z.to_nat (lower_quartile_index n)) = Some Q1 /\
    nth_error (sort_values values) (Z.to_nat (upper_quartile_index n)) = Some Q3 /\
    Q1 <= Q3 /\
    (forall v, nth v m false = true -> (v < length L)%nat ->
               Q1 <= nth v L 0 <= Q3 -> nth v m' false = true) /\
    nv' = Z.of_nat (count_true m') /\
    (upper_quartile_index n - lower_quartile_index n + 1 <= nv' <= n)%Z /\
    (1 <= nv')%Z /\
    ((n <= 2 ^ 24)%Z -> (n < 2 * nv')%Z).
Proof.
  intros values n Hn.
  pose proof (upper_quartile_index_lt (n:=n) ltac:(lia)) as Hu.
  pose proof (@lower_le_upper_quartile_index n ltac:(lia)) as Hl.
  set (i1 := lower_quartile_index n) in *. set (i3 := upper_quartile_index n) in *.
  assert (Hlen : length (sort_values values) = length values) by apply sort_values_length.
  destruct (nth_error (sort_values values) (Z.to_nat i1)) as [Q1 |] eqn:E1;
    [| apply nth_error_None in E1; lia].
  destruct (nth_error (sort_values values) (Z.to_nat i3)) as [Q3 |] eqn:E3;
    [| apply nth_error_None in E3; lia].
  pose proof (reject_outliers_eval L m (sorted := sort_values values) eq_refl
                E1 E3 ltac:(fold values; fold n; lia)) as Hr.
  cbv zeta in Hr. fold values in Hr. fold n in Hr.
  set (lower := lower_outlier_threshold Q1 Q3) in Hr.
  set (upper := upper_outlier_threshold Q1 Q3) in Hr.
  assert (HQ1 : nth (Z.to_nat i1) (sort_values values) 0 = Q1)
    by (apply nth_error_nth; exact E1).
  assert (HQ3 : nth (Z.to_nat i3) (sort_values values) 0 = Q3)
    by (apply nth_error_nth; exact E3).
  assert (HQ : Q1 <= Q3).
  { rewrite <- HQ1, <- HQ3. apply sorted_nth_le; [apply sort_values_sorted | lia]. }
  assert (Hfence : forall s, Q1 <= s <= Q3 -> outside lower upper s = false).
  { intros s Hs. apply outside_real. unfold lower, upper.
    destruct (outlier_thresholds_real Q1 Q3) as [-> ->]. lra. }
  pose proof (count_true_kept lower upper m L) as Hk. fold values in Hk.
  assert (Hf : (length (filter (outside lower upper) values)
                + (Z.to_nat i3 - Z.to_nat i1 + 1) <= length values)%nat).
  { rewrite (filter_length_perm _ (sort_values_perm values)), <- Hlen.
    apply filter_length_range with (d := 0); [lia |].
    intros p Hp. apply Hfence. rewrite <- HQ1, <- HQ3. split.
    - apply sorted_nth_le; [apply sort_values_sorted | lia].
    - apply sorted_nth_le; [apply sort_values_sorted | lia]. }
  eexists Q1, Q3, _, _. split; [exact Hr |].
  split; [reflexivity |]. split; [reflexivity |]. split; [exact HQ |].
  split; [| split; [| split; [| split]]].
  - intros v Hmv Hlv Hin.
    pose proof (nth_true_in_range _ _ Hmv) as Hr'.
    rewrite (@nth_map2 _ _ _ _ m L v false 0 false) by lia.
    rewrite Hmv, (Hfence _ Hin). reflexivity.
  - unfold n. lia.
  - unfold n. lia.
  - unfold n. lia.
  - intros H24.
    destruct (quartile_index_exact (n:=n) ltac:(lia)) as [Ha Hb].
    fold i1 in Ha. fold i3 in Hb.
    pose proof (interquartile_span n) as Hspan. rewrite <- Ha, <- Hb in Hspan.
    unfold n in *. lia.
Qed.

(** ** Set-up, the convergence test and its measure *)

Section ConvergenceR.
Variable lstsq : list (list R) -> list R -> list R.
Variable loop_rest : nat.
Variable env : Env (F:=R).

(** X15: an inner iteration that returns sets the convergence flag
    exactly when the outer counter is at least 2 and the mean relative
    change of the scale factors is below 0.001; a converged iteration
    leaves the mask and the voxel count alone; the change is logged, as a
    percentage, from the second outer pass on and not in the first. *)
Theorem convergence_test (it k : nat) (st st' : State) (b : bool) :
  inner_body lstsq loop_rest env it k st = Ok (st', b) ->
  let change := relative_change (previous_scale_factors st) (scale_factors st') in
  (b = true <-> (2 <= it)%nat /\ change < 1 / 1000) /\
  (b = true -> mask st' = mask st /\ num_voxels st' = num_voxels st) /\
  info st' = info st ++ InfoNormIteration k
                        :: (if (2 <=? it)%nat then [InfoChange (change * 100)] else []).
Proof.
  unfold inner_body. intros H.
  apply bind_Ok in H. destruct H as [c [Hc H]].
  change (previous_scale_factors (say st (InfoNormIteration k)))
    with (previous_scale_factors st) in H.
  assert (Hlit : @lit_0_001 R RArith = 1 / 1000) by (unfold lit_0_001; reflexivity).
  assert (H100 : @lit_100 R RArith = 100) by reflexivity.
  rewrite Hlit, H100 in H.
  change (@fltb R RArith) with Rltb in H. change (@fmul R RArith) with Rmult in H.
  replace (2 <=? it)%nat with (1 <? it)%nat by reflexivity.
  destruct (1 <? it)%nat eqn:Eit.
  - apply Nat.ltb_lt in Eit. unfold Rltb in H.
    destruct (Rlt_dec (relative_change (previous_scale_factors st) c) (1 / 1000)) as [Hlt | Hge].
    + inversion H; subst; clear H. cbn. unfold say, set_info. cbn.
      rewrite <- app_assoc. repeat split; auto; lia.
    + apply bind_Ok in H. destruct H as [r [_ H]].
      inversion H; subst; clear H. cbn. unfold say, set_info. cbn.
      rewrite <- app_assoc. repeat split; try discriminate; auto.
      intros [_ Hlt]. contradiction.
  - apply Nat.ltb_ge in Eit.
    apply bind_Ok in H. destruct H as [r [_ H]].
    inversion H; subst; clear H. cbn.
    repeat split; try discriminate; auto.
    intros [Hit _]. lia.
Qed.

End ConvergenceR.

Section ChangeR.

Lemma fold_left_Rplus_nonneg (l : list R) a :
  Forall (fun x => 0 <= x) l -> 0 <= a ->
  a <= fold_left Rplus l a /\
  (fold_left Rplus l a = a -> Forall (fun x => x = 0) l).
Proof.
  revert a; induction l as [| x l IH]; intros a Hall Ha; simpl.
  - split; [lra | constructor].
  - inversion Hall as [| ? ? Hx Hl]; subst.
    destruct (IH (a + x) Hl ltac:(lra)) as [H1 H2].
    split; [lra |]. intros Heq.
    assert (x = 0) by lra. subst x.
    constructor; [reflexivity |]. apply H2. lra.
Qed.

Lemma relative_terms (p c : list R) :
  Forall (fun x => 0 < x) p -> length c = length p ->
  Forall (fun x => 0 <= x) (map2 (fun a x => Rabs (a - x) / a) p c) /\
  (Forall (fun x => x = 0) (map2 (fun a x => Rabs (a - x) / a) p c) -> c = p) /\
  length (map2 (fun a x => Rabs (a - x) / a) p c) = length p.
Proof.
  revert c; induction p as [| a p IH]; intros [| x c] Hp Hl; simpl in *; try discriminate.
  - repeat split; constructor.
  - inversion Hp as [| ? ? Ha Hp']; subst.
    destruct (IH c Hp' ltac:(lia)) as [H1 [H2 H3]].
    assert (Hq : 0 <= Rabs (a - x) / a).
    { apply Rmult_le_pos; [apply Rabs_pos |]. left. apply Rinv_0_lt_compat. exact Ha. }
    split; [constructor; assumption |]. split; [| rewrite H3; reflexivity].
    intros Hz. inversion Hz as [| ? ? Hz0 Hz']; subst.
    f_equal; [| apply H2; exact Hz'].
    assert (Habs : Rabs (a - x) = 0).
    { apply (Rmult_eq_reg_r (/ a)); [| apply Rinv_neq_0_compat; lra].
      unfold Rdiv in Hz0. lra. }
    destruct (Req_dec (a - x) 0) as [He | Hne]; [lra |].
    apply Rabs_no_R0 in Hne. contradiction.
Qed.

(** X16: against strictly positive previous factors the mean relative
    change is never negative and is 0 exactly when no factor has
    changed. *)
Theorem relative_change_is_a_distance (p c : list R) :
  Forall (fun x => 0 < x) p -> length c = length p -> (1 <= length p)%nat ->
  0 <= relative_change p c /\
  (relative_change p c = 0 <-> c = p).
Proof.
  intros Hp Hl Hn.
  destruct (@relative_terms p c Hp Hl) as [H1 [H2 H3]].
  unfold relative_change, mean.
  change (@fabs R RArith) with Rabs. change (@fsub R RArith) with Rminus.
  change (@fdiv R RArith) with Rdiv. change (@fadd R RArith) with Rplus.
  change (@fzero R RArith) with 0. change (@fofZ R RArith) with IZR.
  set (terms := map2 (fun a x => Rabs (a - x) / a) p c) in *.
  rewrite H3.
  assert (HN : 0 < IZR (Z.of_nat (length p))) by (apply IZR_lt; lia).
  destruct (fold_left_Rplus_nonneg H1 (Rle_refl 0)) as [Hs Hz].
  split.
  - apply Rmult_le_pos; [exact Hs | left; apply Rinv_0_lt_compat; exact HN].
  - split.
    + intros H0. apply H2. apply Hz.
      apply (Rmult_eq_reg_r (/ IZR (Z.of_nat (length p))));
        [| apply Rinv_neq_0_compat; lra].
      unfold Rdiv in H0. lra.
    + intros ->. unfold terms.
      assert (Hzero : forall l : list R,
                fold_left Rplus (map2 (fun a x => Rabs (a - x) / a) l l) 0 = 0).
      { induction l as [| a l IH]; simpl; [reflexivity |].
        replace (0 + Rabs (a - a) / a) with 0; [exact IH |].
        replace (a - a) with 0 by lra. rewrite Rabs_R0. unfold Rdiv. lra. }
      rewrite Hzero. unfold Rdiv. lra.
Qed.

End ChangeR.

(** ** The properties above on the examples *)

Lemma tiny_setup u up :
  setup tiny_inputs u up = Ok (tiny_env, tiny_state u up).
Proof. unfold setup. Reval. reflexivity. Qed.

Lemma tiny_scale_factors u up :
  solve_scale_factors lstsq_demo tiny_env (tiny_state u up) = Ok [1; 1].
Proof.
  unfold solve_scale_factors.
  cbn [mask num_voxels bias_field_image tiny_state].
  nat_eval. change (@fone R RArith) with 1. cbn [repeat].
  assert (Hs : lstsq_demo (design_matrix tiny_env [true; true] [1; 1]) [1; 1] = [1; 1]).
  { cbn. unfold normal_solve2, inner, column. cbn.
    f_equal; [field | f_equal; field]. }
  rewrite Hs. Reval.
  unfold renormalise. cbn. rewrite exp_half_ln by lra.
  replace (1 / 1) with 1 by field. reflexivity.
Qed.

Lemma design_rows_length {A B} (g : A -> B -> A) (n : nat)
  (tissues : list (list A)) (bias : list B) (m : list bool) :
  Forall (fun tv => length tv = n) tissues ->
  Forall (fun row => length row = n)
    (masked m (map2 (fun tv b => map (fun t => g t b) tv) tissues bias)).
Proof.
  intros Hall.
  assert (Hrows : Forall (fun row => length row = n)
                    (map2 (fun tv b => map (fun t => g t b) tv) tissues bias)).
  { revert bias. induction Hall as [| tv tissues Htv _ IH]; intros [| b bias]; simpl;
      constructor; [rewrite length_map; exact Htv | apply IH]. }
  revert m. induction Hrows as [| row rows Hrow _ IH]; intros [| b m]; simpl;
    try constructor.
  destruct b; [constructor; [exact Hrow | apply IH] | apply IH].
Qed.

Lemma demo_solver_length maxiter m bias y :
  (length (lstsq_demo (design_matrix (demo_env maxiter) m bias) y)
   <= n_tissue_types (demo_env maxiter))%nat.
Proof.
  pose proof (@design_rows_length R R Rdiv 2 (combined_tissue (demo_env maxiter)) bias m
                ltac:(repeat constructor)) as Hrows.
  change (Forall (fun row => length row = 2%nat)
            (design_matrix (demo_env maxiter) m bias)) in Hrows.
  unfold lstsq_demo.
  destruct (design_matrix (demo_env maxiter) m bias) as [| row X]; [simpl; lia |].
  inversion Hrows as [| ? ? Hrow _]; subst. rewrite Hrow. simpl. lia.
Qed.

Lemma working_state_stays_consistent_witness :
  consistent (demo_env 3) (demo_state [] []).
Proof.
  destruct (@working_state_stays_consistent R RArith lstsq_demo scanner_demo 0%nat
              (demo_inputs 3) [] [] (demo_env 3) (demo_state [] [])
              (demo_setup 3 [] []) ltac:(simpl; lia)) as [H _].
  exact H.
Defined.

Lemma summed_log_voxel_values_witness :
  nth 1 (summed_log_image 0 (demo_env 3) [1; 1] [1; 1; 1; 1; 1]) 0
  = 0 + 1 * 1 / 1 + 1 * 0 / 1.
Proof.
  apply (@summed_log_voxel_values R RArith 0%nat (demo_env 3) [1; 1] [1; 1; 1; 1; 1]
           1%nat); simpl; lia.
Defined.

Lemma rejection_keeps_the_interquartile_range_witness :
  exists m' nv',
    reject_outliers (F:=R) [1; 1; 1; 10; 1; 1; 1; 1]
      [true; true; true; true; true; true; true; true] = Ok (m', nv') /\
    (1 <= nv')%Z.
Proof.
  destruct (@rejection_keeps_the_interquartile_range [1; 1; 1; 10; 1; 1; 1; 1]
              [true; true; true; true; true; true; true; true]
              ltac:(simpl; lia))
    as [Q1 [Q3 [m' [nv' [Hr [_ [_ [_ [_ [_ [_ [H1 _]]]]]]]]]]]].
  exists m', nv'. split; assumption.
Defined.


Lemma fewer_than_three_voxels_never_succeed_witness :
  run lstsq_demo scanner_demo 0 tiny_inputs [] [] = OutOfBounds \/
  exists j x,
    run lstsq_demo scanner_demo 0 tiny_inputs [] []
    = Throw (NonPositiveScaleFactor j x).
Proof.
  apply (@fewer_than_three_voxels_never_succeed R RArith lstsq_demo scanner_demo 0%nat
           tiny_inputs [] [] tiny_env (tiny_state [] []) (tiny_setup [] []));
    vm_compute; lia.
Defined.

Lemma convergence_test_witness :
  exists st st',
    inner_body lstsq_demo 0 (demo_env 3) 2 1 st = Ok (st', true) /\
    mask st' = mask st.
Proof.
  destruct demo_outer_loop as [st [_ [S _]]].
  destruct (@demo_inner_body_converges 3 2 1 st ltac:(lia) S) as [st' [H _]].
  exists st, st'. split; [exact H |].
  pose proof (@convergence_test lstsq_demo 0%nat (demo_env 3) 2 1 st st' true H) as T.
  destruct T as [_ [T _]]. exact (proj1 (T eq_refl)).
Defined.

Lemma relative_change_is_a_distance_witness :
  0 <= relative_change [1; 1] [1; 1].
Proof.
  apply (@relative_change_is_a_distance [1; 1] [1; 1]);
    [repeat constructor; lra | reflexivity | simpl; lia].
Defined.

Lemma scale_factors_after_a_run_witness :
  exists st,
    outer_loop lstsq_demo scanner_demo 0 (demo_env 3) 1 (demo_state [] []) = Ok st /\
    previous_scale_factors st = scale_factors st.
Proof.
  destruct demo_outer_loop as [st [H _]]. exists st. split; [exact H |].
  exact (proj1 (proj2 (@scale_factors_after_a_run lstsq_demo scanner_demo 0%nat
                         (demo_inputs 3) [] [] (demo_env 3) (demo_state [] []) st
                         (demo_setup 3 [] []) H ltac:(simpl; lia)))).
Defined.

Lemma joint_scale_factor_is_one_witness :
  exists st,
    outer_loop lstsq_demo scanner_demo 0 (demo_env 3) 1 (demo_state [] []) = Ok st /\
    geometric_mean (scale_factors st) = 1.
Proof.
  destruct demo_outer_loop as [st [H _]]. exists st. split; [exact H |].
  exact (proj1 (@joint_scale_factor_is_one lstsq_demo scanner_demo 0%nat
                  (demo_inputs 3) [] [] (demo_env 3) (demo_state [] []) st
                  (demo_setup 3 [] []) H ltac:(simpl; lia) (demo_solver_length 3))).
Defined.



Lemma outputs_have_the_shape_of_the_inputs_witness :
  exists out,
    run lstsq_demo scanner_demo 0 (demo_inputs 3) [] [] = Ok out /\
    length (output_images out) = 2%nat.
Proof.
  destruct demo_run as [out Hrun]. exists out. split; [exact Hrun |].
  exact (proj1 (@outputs_have_the_shape_of_the_inputs R RArith lstsq_demo scanner_demo
                  0%nat (demo_inputs 3) [] [] out Hrun)).
Defined.

(** ** A NaN sample in the output *)

Lemma nan_setup u up :
  setup nan_inputs u up
  = Ok ({| n_tissue_types := 2; n_voxels := 1;
           combined_tissue := [[XFinite 1; XFinite 1]];
           initial_mask := [true];
           log_norm_value := XFinite (ln 1);
           env_max_iter := 1 |},
        {| mask := [true]; num_voxels := 1;
           scale_factors := u; previous_scale_factors := up;
           bias_field_weights := [];
           bias_field_image := [XFinite 1];
           bias_field_log := [XFinite 0];
           info := [] |}).
Proof. unfold setup. Reval. reflexivity. Qed.

(** C9, as stated, fails on a NaN: the second volume of the first tissue
    holds a NaN at the only voxel, the run returns, and the output sample
    written there is that NaN, of which 0 <= NaN does not hold. *)
Lemma nan_sample_reaches_the_output :
  exists out,
    run no_lstsq no_scanner 0 nan_inputs [XFinite 1; XFinite 1] [] = Ok out /\
    nth 1 (nth 0 (nth 0 (output_images out) []) []) (XFinite 0) = XNaN /\
    xleb (XFinite 0) (nth 1 (nth 0 (nth 0 (output_images out) []) []) (XFinite 0)) = false.
Proof.
  eexists. split.
  - eapply run_without_loop; [| apply nan_setup]. simpl. lia.
  - cbn. split; reflexivity.
Qed.

(** ** The remaining properties on the examples *)

Lemma inner_zero (a r : list R) : Forall (fun x => x = 0) r -> inner a r = 0.
Proof.
  unfold inner. intros H. revert a.
  induction H as [| x r Hx _ IH]; intros [| y a]; simpl; try reflexivity.
  rewrite IH, Hx. lra.
Qed.

Lemma demo_normal_equations (st : State) :
  demo_settled st ->
  let X := masked (mask st)
             (map (fun v => basis_function (scanner_demo v))
                (seq 0 (n_voxels (demo_env 3)))) in
  let y := masked (mask st)
             (map (fun tv => ln (tissue_sum (demo_env 3) (scale_factors st) tv)
                             - log_norm_value (demo_env 3))
                (combined_tissue (demo_env 3))) in
  normal_equations n_basis_vecs X y (lstsq_demo X y).
Proof.
  intros [Hm [_ [Hc _]]] X y.
  assert (Hy : y = [0; 0; 0; 0]).
  { unfold y. rewrite Hm, Hc. cbn.
    replace (0 + 1 * 1 + 1 * 0) with 1 by lra.
    replace (0 + 1 * 0 + 1 * 1) with 1 by lra.
    rewrite ln_1. replace (0 - 0) with 0 by lra. reflexivity. }
  assert (HX : X = map (fun v => basis_function (scanner_demo v)) [1; 2; 3; 4]%nat).
  { unfold X. rewrite Hm. reflexivity. }
  rewrite Hy. intros i Hi. apply inner_zero.
  assert (Hw : lstsq_demo X [0; 0; 0; 0] = constant_fit [0; 0; 0; 0])
    by (rewrite HX; reflexivity).
  rewrite Hw, HX. cbn [map map2].
  rewrite !constant_fit_field. cbn [hd].
  repeat constructor; lra.
Qed.



Lemma setup_reads_the_first_volume_witness :
  mask (demo_state [] []) = initial_mask (demo_env 3) /\
  Rleb (normalisation_value (demo_inputs 3)) 0 = false.
Proof.
  pose proof (@setup_reads_the_first_volume R RArith (demo_inputs 3) [] [] (demo_env 3)
                (demo_state [] []) (demo_setup 3 [] [])
                ltac:(repeat constructor)) as H.
  destruct H as [_ [_ [H1 [_ [H2 _]]]]]. split; assumption.
Defined.
